(** * libMesh: the PETSc nonlinear-solver adapter and the fixed-dimension vector

    A shallow embedding of [src/solvers/petsc_nonlinear_solver.C] (the three
    C-linkage callbacks handed to SNES, [build_mat_null_space] and
    [PetscNonlinearSolver::solve]) and of the [TypeVector] value type that
    travels in the same file, together with the properties of the design
    document that concern them.

    Conventions.
    - A fatal condition ([libmesh_error_msg], [error()], a failed assertion,
      a read outside an array) is a [Fail] outcome; everything else is [Ok].
    - [Real] and [Number] are C [double]s.  The vector type is modelled over
      the rationals [Q] (so that every comparison computes); the solver side,
      which needs square roots, over the real numbers [R].  Both are the
      exact-arithmetic reading of the code.
    - Collaborators whose code is not part of the file (the system's
      [update], the constraint enforcer, the SNES engine) are parameters. *)

From Stdlib Require Import String Bool Arith ZArith QArith Qabs Lia.
From Stdlib Require Import Reals Lra.
From Stdlib Require Import List.
Import ListNotations.

Close Scope Q_scope.
Close Scope R_scope.
Open Scope nat_scope.
Open Scope list_scope.

Set Implicit Arguments.

(* ================================================================== *)
(** ** Outcomes of fallible code *)

Inductive Fault : Type :=
| Error_msg (msg : string)   (* libmesh_error_msg(...) / error() *)
| Assertion_failed           (* assert(...) / libmesh_assert(...) *)
| Undefined_behaviour        (* out-of-extent array access, null dereference *)
| Petsc_error (ierr : Z).    (* LIBMESH_CHKERR(ierr) with ierr != 0 *)

Inductive Outcome (A : Type) : Type :=
| Ok (a : A)
| Fail (f : Fault).

Arguments Ok {A} a.
Arguments Fail {A} f.

Definition bind {A B : Type} (m : Outcome A) (k : A -> Outcome B) : Outcome B :=
  match m with
  | Ok a => k a
  | Fail f => Fail f
  end.

Notation "x <- m ;; k" := (bind m (fun x => k))
  (at level 61, m at next level, right associativity).

(** In-place update of slot [i] of an array. *)
Fixpoint upd {A : Type} (l : list A) (i : nat) (x : A) : list A :=
  match l, i with
  | [], _ => []
  | _ :: t, O => x :: t
  | h :: t, S j => h :: upd t j x
  end.

(* ================================================================== *)
(** ** TypeVector<Real> (type_vector.h) *)

Module TypeVec.

Definition Qltb (x y : Q) : bool := negb (Qle_bool y x).

Section Dim.

(** The compile-time constants of [libmesh_common.h]. *)
Variable DIM : nat.
Variable TOLERANCE : Q.

(** [T _coords[DIM];] *)
Record TypeVector : Type := mkTypeVector { _coords : list Q }.

Definition well_formed (v : TypeVector) : Prop := length (_coords v) = DIM.

(** [_coords[i]] as an rvalue and as an assignment target; an index outside
    the array is undefined behaviour. *)
Definition rd (v : TypeVector) (i : nat) : Outcome Q :=
  match nth_error (_coords v) i with
  | Some x => Ok x
  | None => Fail Undefined_behaviour
  end.

Definition wr (c : list Q) (i : nat) (x : Q) : Outcome (list Q) :=
  if i <? length c then Ok (upd c i x) else Fail Undefined_behaviour.

(** [TypeVector (const T x, const T y, const T z)]; the array starts with
    indeterminate contents, here zeros. *)
Definition TypeVector_xyz (x y z : Q) : Outcome TypeVector :=
  c0 <- wr (repeat 0%Q DIM) 0 x ;;
  c1 <- (if 1 <? DIM
         then c <- wr c0 1 y ;;
              if DIM =? 3 then wr c 2 z else Ok c
         else Ok c0) ;;
  Ok (mkTypeVector c1).

(** [i > (DIM-1)]: [i] is [unsigned int], [DIM-1] an [int] converted to
    [unsigned int] for the comparison. *)
Definition gt_DIM_minus_1 (i : nat) : bool :=
  ((Z.of_nat DIM - 1) mod 2 ^ 32 <? Z.of_nat i)%Z.

(** [T operator () (const unsigned int i) const] *)
Definition get (v : TypeVector) (i : nat) : Outcome Q :=
  if negb (i <? 3) then Fail Assertion_failed
  else if (DIM <? 3) && gt_DIM_minus_1 i then Ok 0%Q
  else rd v i.

(** [T & operator () (const unsigned int i)]: the result is the slot the
    returned reference designates. *)
Definition ref (v : TypeVector) (i : nat) : Outcome nat :=
  if (DIM <? 3) && (DIM <=? i) then Fail (Error_msg "")
  else if negb (i <? DIM) then Fail Assertion_failed
  else if i <? length (_coords v) then Ok i
  else Fail Undefined_behaviour.

(** [v(i) = x] through the writable accessor. *)
Definition assign_at (v : TypeVector) (i : nat) (x : Q) : Outcome TypeVector :=
  k <- ref v i ;;
  c <- wr (_coords v) k x ;;
  Ok (mkTypeVector c).

(** [bool TypeVector<Real>::operator == (const TypeVector<Real>& rhs) const] *)
Definition op_eq (a rhs : TypeVector) : Outcome bool :=
  match DIM with
  | 1 =>
      a0 <- rd a 0 ;; b0 <- rd rhs 0 ;;
      Ok (Qltb (Qabs (a0 - b0)) TOLERANCE)%Q
  | 2 =>
      a0 <- rd a 0 ;; b0 <- rd rhs 0 ;;
      a1 <- rd a 1 ;; b1 <- rd rhs 1 ;;
      Ok (Qltb (Qabs (a0 - b0) + Qabs (a1 - b1)) (2 * TOLERANCE))%Q
  | 3 =>
      a0 <- rd a 0 ;; b0 <- rd rhs 0 ;;
      a1 <- rd a 1 ;; b1 <- rd rhs 1 ;;
      a2 <- rd a 2 ;; b2 <- rd rhs 2 ;;
      Ok (Qltb (Qabs (a0 - b0) + Qabs (a1 - b1) + Qabs (a2 - b2))
               (3 * TOLERANCE))%Q
  | _ => Fail Undefined_behaviour
  end.

(** [bool TypeVector<Real>::operator != (const TypeVector<Real>& rhs) const] *)
Definition op_ne (a rhs : TypeVector) : Outcome bool :=
  e <- op_eq a rhs ;; Ok (negb e).

(** Coordinate [i] of a vector. *)
Definition coord (v : TypeVector) (i : nat) : Q := nth i (_coords v) 0%Q.

(** The design document's wording of equality: the sum over all [DIM]
    coordinates of the absolute coordinate differences is strictly below
    [DIM] times the tolerance. *)
Definition sum_abs_diff (a b : TypeVector) : Q :=
  fold_right (fun i acc => Qabs (coord a i - coord b i) + acc)%Q 0%Q
             (seq 0 DIM).

Definition spec_equal (a b : TypeVector) : Prop :=
  (sum_abs_diff a b < inject_Z (Z.of_nat DIM) * TOLERANCE)%Q.

(** *** The arithmetic of [TypeVector] *)

(** [for (unsigned int i=0; i<DIM; i++) body] on the array. *)
Definition for_coords (body : nat -> list Q -> Outcome (list Q))
    (c : list Q) : Outcome (list Q) :=
  fold_left (fun acc i => c <- acc ;; body i c) (seq 0 DIM) (Ok c).

(** [_coords[i] op= x] for [+=], [-=], [*=] and [/=]. *)
Definition compound (op : Q -> Q -> Q) (c : list Q) (i : nat) (x : Q)
  : Outcome (list Q) :=
  match nth_error c i with
  | Some ci => Ok (upd c i (op ci x))
  | None => Fail Undefined_behaviour
  end.

(** [TypeVector (const TypeVector<T> &p)] *)
Definition TypeVector_copy (p : TypeVector) : Outcome TypeVector :=
  c <- for_coords (fun i c => pi <- rd p i ;; wr c i pi) (repeat 0%Q DIM) ;;
  Ok (mkTypeVector c).

(** [void assign (const TypeVector<T> &p)] *)
Definition assign (this p : TypeVector) : Outcome TypeVector :=
  c <- for_coords (fun i c => pi <- rd p i ;; wr c i pi) (_coords this) ;;
  Ok (mkTypeVector c).

(** [TypeVector<T> operator + (const TypeVector<T> &p) const]; the
    constructor's missing arguments default to [0.]. *)
Definition op_plus (this p : TypeVector) : Outcome TypeVector :=
  match DIM with
  | 1 =>
      a0 <- rd this 0 ;; p0 <- rd p 0 ;;
      TypeVector_xyz (a0 + p0) 0 0
  | 2 =>
      a0 <- rd this 0 ;; p0 <- rd p 0 ;;
      a1 <- rd this 1 ;; p1 <- rd p 1 ;;
      TypeVector_xyz (a0 + p0) (a1 + p1) 0
  | 3 =>
      a0 <- rd this 0 ;; p0 <- rd p 0 ;;
      a1 <- rd this 1 ;; p1 <- rd p 1 ;;
      a2 <- rd this 2 ;; p2 <- rd p 2 ;;
      TypeVector_xyz (a0 + p0) (a1 + p1) (a2 + p2)
  | _ => Fail Undefined_behaviour
  end.

(** [void add (const TypeVector<T> &p)]: the vector after the call. *)
Definition add (this p : TypeVector) : Outcome TypeVector :=
  match DIM with
  | 1 =>
      p0 <- rd p 0 ;; c <- compound Qplus (_coords this) 0 p0 ;;
      Ok (mkTypeVector c)
  | 2 =>
      p0 <- rd p 0 ;; c <- compound Qplus (_coords this) 0 p0 ;;
      p1 <- rd p 1 ;; c <- compound Qplus c 1 p1 ;;
      Ok (mkTypeVector c)
  | 3 =>
      p0 <- rd p 0 ;; c <- compound Qplus (_coords this) 0 p0 ;;
      p1 <- rd p 1 ;; c <- compound Qplus c 1 p1 ;;
      p2 <- rd p 2 ;; c <- compound Qplus c 2 p2 ;;
      Ok (mkTypeVector c)
  | _ => Ok this
  end.

(** [const TypeVector<T> & operator += (const TypeVector<T> &p)] *)
Definition op_plus_assign (this p : TypeVector) : Outcome TypeVector :=
  add this p.

(** [void add_scaled (const TypeVector<T2> &p, const T factor)]; [p(i)] is
    the read-only accessor. *)
Definition add_scaled (this p : TypeVector) (factor : Q) : Outcome TypeVector :=
  match DIM with
  | 1 =>
      p0 <- get p 0 ;; c <- compound Qplus (_coords this) 0 (factor * p0) ;;
      Ok (mkTypeVector c)
  | 2 =>
      p0 <- get p 0 ;; c <- compound Qplus (_coords this) 0 (factor * p0) ;;
      p1 <- get p 1 ;; c <- compound Qplus c 1 (factor * p1) ;;
      Ok (mkTypeVector c)
  | 3 =>
      p0 <- get p 0 ;; c <- compound Qplus (_coords this) 0 (factor * p0) ;;
      p1 <- get p 1 ;; c <- compound Qplus c 1 (factor * p1) ;;
      p2 <- get p 2 ;; c <- compound Qplus c 2 (factor * p2) ;;
      Ok (mkTypeVector c)
  | _ => Ok this
  end.

(** [TypeVector<T> operator - (const TypeVector<T> &p) const] *)
Definition op_minus (this p : TypeVector) : Outcome TypeVector :=
  match DIM with
  | 1 =>
      a0 <- rd this 0 ;; p0 <- rd p 0 ;;
      TypeVector_xyz (a0 - p0) 0 0
  | 2 =>
      a0 <- rd this 0 ;; p0 <- rd p 0 ;;
      a1 <- rd this 1 ;; p1 <- rd p 1 ;;
      TypeVector_xyz (a0 - p0) (a1 - p1) 0
  | 3 =>
      a0 <- rd this 0 ;; p0 <- rd p 0 ;;
      a1 <- rd this 1 ;; p1 <- rd p 1 ;;
      a2 <- rd this 2 ;; p2 <- rd p 2 ;;
      TypeVector_xyz (a0 - p0) (a1 - p1) (a2 - p2)
  | _ => Fail Undefined_behaviour
  end.

(** [void subtract (const TypeVector<T>& p)] *)
Definition subtract (this p : TypeVector) : Outcome TypeVector :=
  c <- for_coords (fun i c => pi <- rd p i ;; compound Qminus c i pi)
                  (_coords this) ;;
  Ok (mkTypeVector c).

(** [const TypeVector<T> & operator -= (const TypeVector<T> &p)] *)
Definition op_minus_assign (this p : TypeVector) : Outcome TypeVector :=
  subtract this p.

(** [void subtract_scaled (const TypeVector<T2> &p, const T factor)] *)
Definition subtract_scaled (this p : TypeVector) (factor : Q)
  : Outcome TypeVector :=
  c <- for_coords (fun i c => pi <- get p i ;;
                              compound Qminus c i (factor * pi)%Q)
                  (_coords this) ;;
  Ok (mkTypeVector c).

(** [TypeVector<T> operator - () const] *)
Definition op_neg (this : TypeVector) : Outcome TypeVector :=
  match DIM with
  | 1 =>
      a0 <- rd this 0 ;;
      TypeVector_xyz (- a0) 0 0
  | 2 =>
      a0 <- rd this 0 ;; a1 <- rd this 1 ;;
      TypeVector_xyz (- a0) (- a1) 0
  | 3 =>
      a0 <- rd this 0 ;; a1 <- rd this 1 ;; a2 <- rd this 2 ;;
      TypeVector_xyz (- a0) (- a1) (- a2)
  | _ => Fail Undefined_behaviour
  end.

(** [TypeVector<T> operator * (const Scalar factor) const] *)
Definition op_mul_scalar (this : TypeVector) (factor : Q) : Outcome TypeVector :=
  match DIM with
  | 1 =>
      a0 <- rd this 0 ;;
      TypeVector_xyz (a0 * factor) 0 0
  | 2 =>
      a0 <- rd this 0 ;; a1 <- rd this 1 ;;
      TypeVector_xyz (a0 * factor) (a1 * factor) 0
  | 3 =>
      a0 <- rd this 0 ;; a1 <- rd this 1 ;; a2 <- rd this 2 ;;
      TypeVector_xyz (a0 * factor) (a1 * factor) (a2 * factor)
  | _ => Fail Undefined_behaviour
  end.

(** [operator * (const Scalar factor, const TypeVector<T> &v)] *)
Definition scalar_mul (factor : Q) (v : TypeVector) : Outcome TypeVector :=
  op_mul_scalar v factor.

(** [const TypeVector<T> & operator *= (const Scalar factor)] *)
Definition op_mul_assign (this : TypeVector) (factor : Q) : Outcome TypeVector :=
  match DIM with
  | 1 =>
      c <- compound Qmult (_coords this) 0 factor ;;
      Ok (mkTypeVector c)
  | 2 =>
      c <- compound Qmult (_coords this) 0 factor ;;
      c <- compound Qmult c 1 factor ;;
      Ok (mkTypeVector c)
  | 3 =>
      c <- compound Qmult (_coords this) 0 factor ;;
      c <- compound Qmult c 1 factor ;;
      c <- compound Qmult c 2 factor ;;
      Ok (mkTypeVector c)
  | _ => Ok this
  end.

(** [TypeVector<T> operator / (const T factor) const] *)
Definition op_div (this : TypeVector) (factor : Q) : Outcome TypeVector :=
  if Qeq_bool factor 0 then Fail Assertion_failed
  else
    match DIM with
    | 1 =>
        a0 <- rd this 0 ;;
        TypeVector_xyz (a0 / factor) 0 0
    | 2 =>
        a0 <- rd this 0 ;; a1 <- rd this 1 ;;
        TypeVector_xyz (a0 / factor) (a1 / factor) 0
    | 3 =>
        a0 <- rd this 0 ;; a1 <- rd this 1 ;; a2 <- rd this 2 ;;
        TypeVector_xyz (a0 / factor) (a1 / factor) (a2 / factor)
    | _ => Fail Undefined_behaviour
    end.

(** [const TypeVector<T> & operator /= (const T factor)] *)
Definition op_div_assign (this : TypeVector) (factor : Q) : Outcome TypeVector :=
  if Qeq_bool factor 0 then Fail Assertion_failed
  else
    c <- for_coords (fun i c => compound Qdiv c i factor) (_coords this) ;;
    Ok (mkTypeVector c).

(** [T operator * (const TypeVector<T2> &p) const], the dot product; in
    three dimensions the right operand is read through the accessor. *)
Definition op_dot (this p : TypeVector) : Outcome Q :=
  match DIM with
  | 1 =>
      a0 <- rd this 0 ;; p0 <- rd p 0 ;;
      Ok (a0 * p0)%Q
  | 2 =>
      a0 <- rd this 0 ;; p0 <- rd p 0 ;;
      a1 <- rd this 1 ;; p1 <- rd p 1 ;;
      Ok (a0 * p0 + a1 * p1)%Q
  | 3 =>
      a0 <- rd this 0 ;; p0 <- get p 0 ;;
      a1 <- rd this 1 ;; p1 <- get p 1 ;;
      a2 <- rd this 2 ;; p2 <- get p 2 ;;
      Ok (a0 * p0 + a1 * p1 + a2 * p2)%Q
  | _ => Fail Undefined_behaviour
  end.

(** [Real TypeVector<Real>::size_sq () const] *)
Definition size_sq (this : TypeVector) : Outcome Q :=
  op_dot this this.

(** [void zero()] *)
Definition zero (this : TypeVector) : Outcome TypeVector :=
  c <- for_coords (fun i c => wr c i 0%Q) (_coords this) ;;
  Ok (mkTypeVector c).

End Dim.

End TypeVec.

(* ================================================================== *)
(** ** The PETSc nonlinear-solver adapter (petsc_nonlinear_solver.C) *)

Module Petsc.

Local Open Scope R_scope.

(** *** PETSc data *)

(** [typedef Real Number;] with [Real] read as the real numbers. *)
Abbreviation Number := R (only parsing).
Definition PetscInt : Type := Z.
Definition PetscErrorCode : Type := Z.

(** The numeric buffer behind a PETSc [Vec] handle. *)
Definition Vec : Type := list Number.

(** The PETSc vector primitives used by [build_mat_null_space], with the
    meaning their manual pages give them for real scalars in exact
    arithmetic. *)
Fixpoint VecDot (x y : Vec) : Number :=
  match x, y with
  | a :: x', b :: y' => a * b + VecDot x' y'
  | _, _ => 0
  end.

Definition VecScale (x : Vec) (alpha : Number) : Vec :=
  map (fun a => alpha * a) x.

(** [y = y + alpha x] *)
Fixpoint VecAXPY (y : Vec) (alpha : Number) (x : Vec) : Vec :=
  match y, x with
  | b :: y', a :: x' => (b + alpha * a) :: VecAXPY y' alpha x'
  | _, _ => y
  end.

(** [val[j] = x . y[j]] for [j < nv] *)
Definition VecMDot (x : Vec) (nv : nat) (y : list Vec) : list Number :=
  map (fun yj => VecDot x yj) (firstn nv y).

(** [y = y + sum_{j < nv} alpha[j] x[j]] *)
Definition VecMAXPY (y : Vec) (nv : nat) (alpha : list Number) (x : list Vec) : Vec :=
  fold_left (fun acc ax => VecAXPY acc (fst ax) (snd ax))
            (combine (firstn nv alpha) (firstn nv x)) y.

Definition VecNorm (x : Vec) : Number := sqrt (VecDot x x).

(** [VecNormalize(x, PETSC_NULL)]: scales by the reciprocal of the 2-norm;
    a vector of zero norm is left as it is. *)
Definition VecNormalize (x : Vec) : Vec :=
  if Req_dec_T (VecNorm x) 0 then x else VecScale x (1 / VecNorm x).

(** *** libMesh data declared in headers outside the file *)

(** [PetscVector<Number>]: the adapter around a [Vec]. *)
Record PetscVector : Type := mkPetscVector {
  _vec : Vec;
  _is_closed : bool
}.

(** [PetscVector<Number> V(v, comm)]: wraps an existing, assembled [Vec]. *)
Definition PetscVector_of_Vec (v : Vec) : PetscVector :=
  {| _vec := v; _is_closed := true |}.

(** [V.zero()] and [V.close()] *)
Definition zero (V : PetscVector) : PetscVector :=
  {| _vec := map (fun _ => 0) (_vec V); _is_closed := _is_closed V |}.

Definition close (V : PetscVector) : PetscVector :=
  {| _vec := _vec V; _is_closed := true |}.

(** Modelled from the spec: [PetscVector::swap] lives in petsc_vector.h,
    outside the file.  "[swap] exchanges the underlying storage between two
    adapters in O(1) without copying": each adapter ends up holding what the
    other one held. *)
Definition swap (a b : PetscVector) : PetscVector * PetscVector := (b, a).

Record DofMap : Type := mkDofMap {
  n_constrained_dofs : nat
}.

(** [Mat] with its subspace annotations, behind [PetscMatrix<Number>]. *)
Record PetscMatrix : Type := mkPetscMatrix {
  _mat : list (list Number);
  _mat_is_closed : bool;
  _dof_map : option DofMap;
  mat_null_space : option (list Vec);
  mat_transpose_null_space : option (list Vec);
  mat_near_null_space : option (list Vec)
}.

Definition PetscMatrix_with (f : list (list Number) -> list (list Number))
    (closed : bool -> bool) (dm : option DofMap -> option DofMap)
    (M : PetscMatrix) : PetscMatrix :=
  {| _mat := f (_mat M); _mat_is_closed := closed (_mat_is_closed M);
     _dof_map := dm (_dof_map M);
     mat_null_space := mat_null_space M;
     mat_transpose_null_space := mat_transpose_null_space M;
     mat_near_null_space := mat_near_null_space M |}.

Definition attach_dof_map (d : DofMap) : PetscMatrix -> PetscMatrix :=
  PetscMatrix_with (fun m => m) (fun c => c) (fun _ => Some d).

Definition mat_zero : PetscMatrix -> PetscMatrix :=
  PetscMatrix_with (map (map (fun _ => 0))) (fun c => c) (fun d => d).

Definition mat_close : PetscMatrix -> PetscMatrix :=
  PetscMatrix_with (fun m => m) (fun _ => true) (fun d => d).

Definition MatSetNullSpace (M : PetscMatrix) (msp : list Vec) : PetscMatrix :=
  {| _mat := _mat M; _mat_is_closed := _mat_is_closed M; _dof_map := _dof_map M;
     mat_null_space := Some msp;
     mat_transpose_null_space := mat_transpose_null_space M;
     mat_near_null_space := mat_near_null_space M |}.

Definition MatSetTransposeNullSpace (M : PetscMatrix) (msp : list Vec) : PetscMatrix :=
  {| _mat := _mat M; _mat_is_closed := _mat_is_closed M; _dof_map := _dof_map M;
     mat_null_space := mat_null_space M;
     mat_transpose_null_space := Some msp;
     mat_near_null_space := mat_near_null_space M |}.

Definition MatSetNearNullSpace (M : PetscMatrix) (msp : list Vec) : PetscMatrix :=
  {| _mat := _mat M; _mat_is_closed := _mat_is_closed M; _dof_map := _dof_map M;
     mat_null_space := mat_null_space M;
     mat_transpose_null_space := mat_transpose_null_space M;
     mat_near_null_space := Some msp |}.

(** [NonlinearImplicitSystem]: the canonical (distributed) solution, its
    local replica and the degree-of-freedom map. *)
Record NonlinearImplicitSystem : Type := mkSystem {
  solution : PetscVector;
  current_local_solution : PetscVector;
  get_dof_map : DofMap
}.

Definition set_solution (v : PetscVector) (sys : NonlinearImplicitSystem) :=
  {| solution := v;
     current_local_solution := current_local_solution sys;
     get_dof_map := get_dof_map sys |}.

Definition set_current_local_solution (v : PetscVector)
    (sys : NonlinearImplicitSystem) :=
  {| solution := solution sys;
     current_local_solution := v;
     get_dof_map := get_dof_map sys |}.

(** [V.swap(X_sys)] where [X_sys] is a reference to [*sys.solution]: the
    exchange is seen through the system. *)
Definition swap_with_solution (V : PetscVector) (sys : NonlinearImplicitSystem)
  : PetscVector * NonlinearImplicitSystem :=
  let '(V', X_sys') := swap V (solution sys) in
  (V', set_solution X_sys' sys).

(** *** The user-supplied computation forms

    A function pointer and the corresponding method of a polymorphic object
    have the same shape: arguments passed by non-const reference come back
    in the result. *)
Definition residual_fn : Type :=
  PetscVector -> PetscVector -> NonlinearImplicitSystem ->
  PetscVector * NonlinearImplicitSystem.

Definition jacobian_fn : Type :=
  PetscVector -> PetscMatrix -> NonlinearImplicitSystem ->
  PetscMatrix * NonlinearImplicitSystem.

Definition matvec_fn : Type :=
  PetscVector -> option PetscVector -> option PetscMatrix ->
  NonlinearImplicitSystem ->
  option PetscVector * option PetscMatrix * NonlinearImplicitSystem.

Record PostcheckEffect : Type := mkPostcheckEffect {
  pc_old_soln : PetscVector;
  pc_search_direction : PetscVector;
  pc_new_soln : PetscVector;
  pc_changed_search_direction : bool;
  pc_changed_new_soln : bool;
  pc_system : NonlinearImplicitSystem
}.

Definition postcheck_fn : Type :=
  PetscVector -> PetscVector -> PetscVector -> bool -> bool ->
  NonlinearImplicitSystem -> PostcheckEffect.

Definition subspace_fn : Type :=
  NonlinearImplicitSystem -> list PetscVector * NonlinearImplicitSystem.

(** Which user form a callback handed control to (bookkeeping of the model,
    not a variable of the program). *)
Inductive Form : Type :=
| F_residual | F_residual_object
| F_jacobian | F_jacobian_object
| F_matvec | F_residual_and_jacobian_object
| F_postcheck | F_postcheck_object.

(** *** The engine *)

Inductive Callback : Type :=
| __libmesh_petsc_snes_monitor_cb
| __libmesh_petsc_snes_residual_cb
| __libmesh_petsc_snes_jacobian_cb
| __libmesh_petsc_snes_postcheck_cb.

(** The configuration calls made on a SNES handle (and on the KSP, PC, DM
    and line search reached through it). *)
Inductive EngineCall : Type :=
| SNESCreate
| SNESSetOptionsPrefix (name : string)
| SNESSetDM (prefix : option string)
| SNESMonitorSet (cb : Callback)
| SNESSetFromOptions
| PCShellSetUp
| SNESLineSearchSetPostCheck (cb : Callback)
| SNESSetFunction (r : Vec) (cb : Callback)
| SNESSetJacobian (cb : Callback)
| KSPSetTolerances (rtol : Number) (maxits : Z)
| SNESSetTolerances (abstol rtol stol : Number) (maxit maxf : Z)
| KSPSetFromOptions.

Record SNES : Type := mkSNES {
  snes_calls : list EngineCall;
  snes_iteration_number : PetscInt;
  snes_linear_solve_iterations : PetscInt;
  snes_converged_reason : Z;
  snes_function : Vec
}.

Definition snes_call (c : EngineCall) (s : SNES) : SNES :=
  {| snes_calls := snes_calls s ++ [c];
     snes_iteration_number := snes_iteration_number s;
     snes_linear_solve_iterations := snes_linear_solve_iterations s;
     snes_converged_reason := snes_converged_reason s;
     snes_function := snes_function s |}.

Definition SNES_created : SNES :=
  {| snes_calls := [SNESCreate];
     snes_iteration_number := 0%Z;
     snes_linear_solve_iterations := 0%Z;
     snes_converged_reason := 0%Z;
     snes_function := [] |}.

(** [SolverConfiguration]: an object with two hooks acting on the engine. *)
Record SolverConfiguration : Type := mkSolverConfiguration {
  set_options_during_init : SNES -> SNES;
  configure_solver : SNES -> SNES
}.

(** [Preconditioner<Number>] *)
Record Preconditioner : Type := mkPreconditioner {
  _matrix : option PetscMatrix;
  pc_init_calls : nat
}.

Definition pc_init (p : Preconditioner) : Preconditioner :=
  {| _matrix := _matrix p; pc_init_calls := S (pc_init_calls p) |}.

Definition pc_set_matrix (m : PetscMatrix) (p : Preconditioner) : Preconditioner :=
  {| _matrix := Some m; pc_init_calls := pc_init_calls p |}.

(** *** The callback context

    The members that the code of the file only reads (the registered forms,
    the tolerances, the flags) ... *)
Record NonlinearSolverSettings : Type := mkSettings {
  residual : option residual_fn;
  residual_object : option residual_fn;
  jacobian : option jacobian_fn;
  jacobian_object : option jacobian_fn;
  matvec : option matvec_fn;
  residual_and_jacobian_object : option matvec_fn;
  postcheck : option postcheck_fn;
  postcheck_object : option postcheck_fn;
  nullspace : option subspace_fn;
  nullspace_object : option subspace_fn;
  transpose_nullspace : option subspace_fn;
  transpose_nullspace_object : option subspace_fn;
  nearnullspace : option subspace_fn;
  nearnullspace_object : option subspace_fn;
  user_presolve : option (NonlinearImplicitSystem -> NonlinearImplicitSystem);
  max_nonlinear_iterations : Z;
  max_function_evaluations : Z;
  absolute_residual_tolerance : Number;
  relative_residual_tolerance : Number;
  relative_step_tolerance : Number;
  max_linear_iterations : Z;
  initial_linear_tolerance : Number;
  _solver_configuration : option SolverConfiguration;
  _zero_out_residual : bool;
  _zero_out_jacobian : bool;
  _default_monitor : bool
}.

(** ... and the ones it writes. *)
Record PetscNonlinearSolver : Type := mkSolver {
  settings :> NonlinearSolverSettings;
  converged : bool;
  system : NonlinearImplicitSystem;
  _is_initialized : bool;
  _preconditioner : option Preconditioner;
  _snes : option SNES;
  _reason : Z;
  _n_linear_iterations : PetscInt;
  _current_nonlinear_iteration_number : Z
}.

Definition set_converged (v : bool) (s : PetscNonlinearSolver) :=
  {| settings := settings s; converged := v; system := system s;
     _is_initialized := _is_initialized s; _preconditioner := _preconditioner s;
     _snes := _snes s; _reason := _reason s;
     _n_linear_iterations := _n_linear_iterations s;
     _current_nonlinear_iteration_number := _current_nonlinear_iteration_number s |}.

Definition set_system (v : NonlinearImplicitSystem) (s : PetscNonlinearSolver) :=
  {| settings := settings s; converged := converged s; system := v;
     _is_initialized := _is_initialized s; _preconditioner := _preconditioner s;
     _snes := _snes s; _reason := _reason s;
     _n_linear_iterations := _n_linear_iterations s;
     _current_nonlinear_iteration_number := _current_nonlinear_iteration_number s |}.

Definition set_is_initialized (v : bool) (s : PetscNonlinearSolver) :=
  {| settings := settings s; converged := converged s; system := system s;
     _is_initialized := v; _preconditioner := _preconditioner s;
     _snes := _snes s; _reason := _reason s;
     _n_linear_iterations := _n_linear_iterations s;
     _current_nonlinear_iteration_number := _current_nonlinear_iteration_number s |}.

Definition set_preconditioner (v : option Preconditioner) (s : PetscNonlinearSolver) :=
  {| settings := settings s; converged := converged s; system := system s;
     _is_initialized := _is_initialized s; _preconditioner := v;
     _snes := _snes s; _reason := _reason s;
     _n_linear_iterations := _n_linear_iterations s;
     _current_nonlinear_iteration_number := _current_nonlinear_iteration_number s |}.

Definition set_snes (v : option SNES) (s : PetscNonlinearSolver) :=
  {| settings := settings s; converged := converged s; system := system s;
     _is_initialized := _is_initialized s; _preconditioner := _preconditioner s;
     _snes := v; _reason := _reason s;
     _n_linear_iterations := _n_linear_iterations s;
     _current_nonlinear_iteration_number := _current_nonlinear_iteration_number s |}.

Definition set_reason (v : Z) (s : PetscNonlinearSolver) :=
  {| settings := settings s; converged := converged s; system := system s;
     _is_initialized := _is_initialized s; _preconditioner := _preconditioner s;
     _snes := _snes s; _reason := v;
     _n_linear_iterations := _n_linear_iterations s;
     _current_nonlinear_iteration_number := _current_nonlinear_iteration_number s |}.

Definition set_n_linear_iterations (v : PetscInt) (s : PetscNonlinearSolver) :=
  {| settings := settings s; converged := converged s; system := system s;
     _is_initialized := _is_initialized s; _preconditioner := _preconditioner s;
     _snes := _snes s; _reason := _reason s;
     _n_linear_iterations := v;
     _current_nonlinear_iteration_number := _current_nonlinear_iteration_number s |}.

Definition set_current_nonlinear_iteration_number (v : Z) (s : PetscNonlinearSolver) :=
  {| settings := settings s; converged := converged s; system := system s;
     _is_initialized := _is_initialized s; _preconditioner := _preconditioner s;
     _snes := _snes s; _reason := _reason s;
     _n_linear_iterations := _n_linear_iterations s;
     _current_nonlinear_iteration_number := v |}.

(** A member that is a pointer, tested as a condition. *)
Definition is_set {A : Type} (p : option A) : bool :=
  match p with Some _ => true | None => false end.

(** [cast_int<unsigned>(n)] *)
Definition cast_int_unsigned (n : PetscInt) : Z := (n mod 2 ^ 32)%Z.

(** *** What the callbacks and [solve] hand back *)

Record ResidualReturn : Type := mkResidualReturn {
  res_ierr : PetscErrorCode;
  res_x : Vec;
  res_r : Vec;
  res_solver : PetscNonlinearSolver;
  res_invoked : list Form
}.

Record JacobianReturn : Type := mkJacobianReturn {
  jac_ierr : PetscErrorCode;
  jac_x : Vec;
  jac_jac : PetscMatrix;
  jac_pc : PetscMatrix;
  jac_solver : PetscNonlinearSolver;
  jac_invoked : list Form
}.

Record PostcheckReturn : Type := mkPostcheckReturn {
  post_ierr : PetscErrorCode;
  post_x : Vec;
  post_y : Vec;
  post_w : Vec;
  changed_y : bool;
  changed_w : bool;
  post_solver : PetscNonlinearSolver;
  post_invoked : list Form
}.

(** What one run of the engine leaves behind: its status, the handle (with
    the iteration counts, the convergence reason and the last function
    value), the vectors and matrix it worked on, and what its calls to the
    callbacks did to the context. *)
Record EngineRun : Type := mkEngineRun {
  run_ierr : PetscErrorCode;
  run_snes : SNES;
  run_jac : PetscMatrix;
  run_x : PetscVector;
  run_r : PetscVector;
  run_system : NonlinearImplicitSystem;
  run_current_nonlinear_iteration_number : Z
}.

Record SolveReturn : Type := mkSolveReturn {
  n_iterations : Z;
  final_residual_norm : Number;
  solve_solver : PetscNonlinearSolver;
  solve_jac : PetscMatrix;
  solve_x : PetscVector;
  solve_r : PetscVector
}.

(** [solve] up to the point where it calls [SNESSolve]. *)
Record SolveSetup : Type := mkSolveSetup {
  setup_snes : SNES;
  setup_solver : PetscNonlinearSolver;
  setup_jac : PetscMatrix
}.

(** *** The messages of [libmesh_error_msg] *)

Definition residual_both_msg : string :=
  "ERROR: cannot specify both a function and object to compute the Residual!".

Definition combined_both_msg : string :=
  "ERROR: cannot specify both a function and object to compute the combined Residual & Jacobian!".

Definition jacobian_both_msg : string :=
  "ERROR: cannot specify both a function and object to compute the Jacobian!".

Definition postcheck_both_msg : string :=
  "ERROR: cannot specify both a function and object for performing the solve postcheck!".

Definition no_form_msg : string :=
  "Error! Unable to compute residual and/or Jacobian!".

(** *** Gram-Schmidt on the [modes] array of [build_mat_null_space] *)

(** One turn of the loop [for (PetscInt i=1; i<nmodes; i++)]. *)
Definition orthonormalize_mode (modes : list Vec) (i : nat) : list Vec :=
  (* VecMDot(modes[i],i,modes,dots) *)
  let dots := VecMDot (nth i modes []) i modes in
  (* for (j<i) dots[j] *= -1. *)
  let dots := map (fun d => d * -1) dots in
  (* VecMAXPY(modes[i],i,dots,modes) *)
  let modes := upd modes i (VecMAXPY (nth i modes []) i dots modes) in
  (* VecNormalize(modes[i],PETSC_NULL) *)
  upd modes i (VecNormalize (nth i modes [])).

Definition orthonormalize_modes (sp : list PetscVector) : list Vec :=
  let nmodes := length sp in
  (* VecDuplicate / VecCopy of every sp[i] *)
  let modes := map _vec sp in
  (* VecNormalize(modes[0],PETSC_NULL) *)
  let modes := upd modes 0 (VecNormalize (nth 0 modes [])) in
  fold_left orthonormalize_mode (seq 1 (nmodes - 1)) modes.

Section Collaborators.

(** Modelled from the spec: [System::update] is outside the file.  It is
    the system's "refresh local view" operation, which "produces a
    locally-consistent replica" from the canonical solution:
    [localize solution old_replica] is the new replica. *)
Variable localize : PetscVector -> PetscVector -> PetscVector.

Definition update (sys : NonlinearImplicitSystem) : NonlinearImplicitSystem :=
  set_current_local_solution
    (localize (solution sys) (current_local_solution sys)) sys.

(** Modelled from the spec: [DofMap::enforce_constraints_exactly] is
    outside the file.  "Given a system and a local solution buffer,
    overwrites constrained degrees of freedom with their required values";
    without a buffer it works on the canonical solution. *)
Variable enforce_on : NonlinearImplicitSystem -> PetscVector -> PetscVector.

Definition enforce_constraints_exactly_local (sys : NonlinearImplicitSystem) :=
  set_current_local_solution (enforce_on sys (current_local_solution sys)) sys.

Definition enforce_constraints_exactly (sys : NonlinearImplicitSystem) :=
  set_solution (enforce_on sys (solution sys)) sys.

(** The PETSc release the file is compiled against. *)
Variable PETSC_VERSION : nat * nat * nat.

Definition PETSC_VERSION_LESS_THAN (major minor subminor : nat) : bool :=
  let '(M, m, s) := PETSC_VERSION in
  (M <? major)%nat
  || ((M =? major)%nat
      && ((m <? minor)%nat || ((m =? minor)%nat && (s <? subminor)%nat))).

(** [SNESSolve] with everything the engine does while it runs. *)
Variable SNESSolve :
  SNES -> PetscNonlinearSolver -> PetscMatrix -> PetscVector -> PetscVector ->
  Outcome EngineRun.

(** [X_global.swap(X_sys); sys.update(); X_global.swap(X_sys);] *)
Definition update_through_swap (X_global : PetscVector)
    (sys : NonlinearImplicitSystem) : PetscVector * NonlinearImplicitSystem :=
  let '(X_global, sys) := swap_with_solution X_global sys in
  let sys := update sys in
  swap_with_solution X_global sys.

(** [__libmesh_petsc_snes_residual (SNES snes, Vec x, Vec r, void * ctx)] *)
Definition __libmesh_petsc_snes_residual (snes : SNES) (x r : Vec)
    (solver : PetscNonlinearSolver) : Outcome ResidualReturn :=
  let ierr := 0%Z in
  let solver :=
    set_current_nonlinear_iteration_number
      (cast_int_unsigned (snes_iteration_number snes)) solver in
  let sys := system solver in
  let X_global := PetscVector_of_Vec x in
  let R := PetscVector_of_Vec r in
  let '(X_global, sys) := update_through_swap X_global sys in
  let sys := enforce_constraints_exactly_local sys in
  let R := if _zero_out_residual solver then zero R else R in
  if is_set (residual solver) && is_set (residual_object solver) then
    Fail (Error_msg residual_both_msg)
  else if is_set (matvec solver)
          && is_set (residual_and_jacobian_object solver) then
    Fail (Error_msg combined_both_msg)
  else
    out <-
      match residual solver, residual_object solver,
            matvec solver, residual_and_jacobian_object solver with
      | Some f, _, _, _ =>
          Ok (f (current_local_solution sys) R sys, F_residual)
      | None, Some o, _, _ =>
          Ok (o (current_local_solution sys) R sys, F_residual_object)
      | None, None, Some f, _ =>
          let '(R', _, sys') := f (current_local_solution sys) (Some R) None sys in
          Ok (match R' with Some v => v | None => R end, sys', F_matvec)
      | None, None, None, Some o =>
          let '(R', _, sys') := o (current_local_solution sys) (Some R) None sys in
          Ok (match R' with Some v => v | None => R end, sys',
              F_residual_and_jacobian_object)
      | None, None, None, None =>
          Fail (Error_msg no_form_msg)
      end ;;
    let '(R, sys, form) := out in
    let R := close R in
    Ok {| res_ierr := ierr; res_x := _vec X_global; res_r := _vec R;
          res_solver := set_system sys solver; res_invoked := [form] |}.

(** [__libmesh_petsc_snes_jacobian (SNES snes, Vec x, Mat jac, Mat pc, void * ctx)] *)
Definition __libmesh_petsc_snes_jacobian (snes : SNES) (x : Vec)
    (jac pc : PetscMatrix) (solver : PetscNonlinearSolver)
  : Outcome JacobianReturn :=
  let ierr := 0%Z in
  let solver :=
    set_current_nonlinear_iteration_number
      (cast_int_unsigned (snes_iteration_number snes)) solver in
  let sys := system solver in
  let PC := pc in
  let Jac := jac in
  let X_global := PetscVector_of_Vec x in
  let PC := attach_dof_map (get_dof_map sys) PC in
  let Jac := attach_dof_map (get_dof_map sys) Jac in
  let '(X_global, sys) := update_through_swap X_global sys in
  let sys := enforce_constraints_exactly_local sys in
  let PC := if _zero_out_jacobian solver then mat_zero PC else PC in
  if is_set (jacobian solver) && is_set (jacobian_object solver) then
    Fail (Error_msg jacobian_both_msg)
  else if is_set (matvec solver)
          && is_set (residual_and_jacobian_object solver) then
    Fail (Error_msg combined_both_msg)
  else
    out <-
      match jacobian solver, jacobian_object solver,
            matvec solver, residual_and_jacobian_object solver with
      | Some f, _, _, _ =>
          Ok (f (current_local_solution sys) PC sys, F_jacobian)
      | None, Some o, _, _ =>
          Ok (o (current_local_solution sys) PC sys, F_jacobian_object)
      | None, None, Some f, _ =>
          let '(_, J', sys') := f (current_local_solution sys) None (Some PC) sys in
          Ok (match J' with Some m => m | None => PC end, sys', F_matvec)
      | None, None, None, Some o =>
          let '(_, J', sys') := o (current_local_solution sys) None (Some PC) sys in
          Ok (match J' with Some m => m | None => PC end, sys',
              F_residual_and_jacobian_object)
      | None, None, None, None =>
          Fail (Error_msg no_form_msg)
      end ;;
    let '(PC, sys, form) := out in
    let PC := mat_close PC in
    let Jac := mat_close Jac in
    Ok {| jac_ierr := ierr; jac_x := _vec X_global; jac_jac := Jac; jac_pc := PC;
          jac_solver := set_system sys solver; jac_invoked := [form] |}.

(** [__libmesh_petsc_snes_postcheck (SNESLineSearch, Vec x, Vec y, Vec w,
    PetscBool * changed_y, PetscBool * changed_w, void * context)] *)
Definition __libmesh_petsc_snes_postcheck (x y w : Vec)
    (solver : PetscNonlinearSolver) : Outcome PostcheckReturn :=
  let ierr := 0%Z in
  let changed_w := false in
  let changed_y := false in
  if is_set (postcheck solver) && is_set (postcheck_object solver) then
    Fail (Error_msg postcheck_both_msg)
  else
    let sys := system solver in
    let dof_map := get_dof_map sys in
    if negb (0 <? n_constrained_dofs dof_map)%nat
       && negb (is_set (postcheck solver))
       && negb (is_set (postcheck_object solver))
    then
      Ok {| post_ierr := ierr; post_x := x; post_y := y; post_w := w;
            changed_y := changed_y; changed_w := changed_w;
            post_solver := solver; post_invoked := [] |}
    else
      let petsc_w := PetscVector_of_Vec w in
      let changed_search_direction := false in
      let changed_new_soln := false in
      let user :=
        if is_set (postcheck solver) || is_set (postcheck_object solver) then
          let petsc_x := PetscVector_of_Vec x in
          let petsc_y := PetscVector_of_Vec y in
          match postcheck solver, postcheck_object solver with
          | Some f, _ =>
              (Some (f petsc_x petsc_y petsc_w changed_search_direction
                       changed_new_soln sys), [F_postcheck])
          | None, Some o =>
              (Some (o petsc_x petsc_y petsc_w changed_search_direction
                       changed_new_soln sys), [F_postcheck_object])
          | None, None => (None, [])
          end
        else (None, []) in
      let '(effect, invoked) := user in
      let x := match effect with Some e => _vec (pc_old_soln e) | None => x end in
      let y := match effect with
               | Some e => _vec (pc_search_direction e) | None => y end in
      let petsc_w := match effect with
                     | Some e => pc_new_soln e | None => petsc_w end in
      let changed_search_direction :=
        match effect with
        | Some e => pc_changed_search_direction e
        | None => changed_search_direction
        end in
      let changed_new_soln :=
        match effect with
        | Some e => pc_changed_new_soln e
        | None => changed_new_soln
        end in
      let sys := match effect with Some e => pc_system e | None => sys end in
      let dof_map := get_dof_map sys in
      let changed_y := if changed_search_direction then true else changed_y in
      let changed_w := if changed_new_soln then true else changed_w in
      let '(petsc_w, sys, changed_w) :=
        if (0 <? n_constrained_dofs dof_map)%nat then
          let '(petsc_w, sys) := swap_with_solution petsc_w sys in
          let sys := enforce_constraints_exactly sys in
          let changed_w := true in
          let '(petsc_w, sys) := swap_with_solution petsc_w sys in
          (petsc_w, sys, changed_w)
        else (petsc_w, sys, changed_w) in
      Ok {| post_ierr := ierr; post_x := x; post_y := y; post_w := _vec petsc_w;
            changed_y := changed_y; changed_w := changed_w;
            post_solver := set_system sys solver; post_invoked := invoked |}.

(** [void PetscNonlinearSolver<T>::clear ()] *)
Definition clear (this : PetscNonlinearSolver) : PetscNonlinearSolver :=
  if _is_initialized this then
    let this := set_is_initialized false this in
    let this := set_snes None this in
    set_current_nonlinear_iteration_number 0%Z this
  else this.

(** [void PetscNonlinearSolver<T>::init (const char * name)] *)
Definition init (name : option string) (this : PetscNonlinearSolver)
  : Outcome PetscNonlinearSolver :=
  let this :=
    if negb (_is_initialized this) then
      let this := set_is_initialized true this in
      let snes := SNES_created in
      let snes := match name with
                  | Some n => snes_call (SNESSetOptionsPrefix n) snes
                  | None => snes
                  end in
      let snes := if negb (PETSC_VERSION_LESS_THAN 3 3 0)
                  then snes_call (SNESSetDM name) snes else snes in
      let snes := if _default_monitor this
                  then snes_call (SNESMonitorSet __libmesh_petsc_snes_monitor_cb) snes
                  else snes in
      let snes := match _solver_configuration this with
                  | Some c => set_options_during_init c snes
                  | None => snes
                  end in
      let snes := if PETSC_VERSION_LESS_THAN 3 1 0
                  then snes_call SNESSetFromOptions snes else snes in
      match _preconditioner this with
      | Some p =>
          set_snes (Some (snes_call PCShellSetUp snes))
                   (set_preconditioner (Some (pc_init p)) this)
      | None => set_snes (Some snes) this
      end
    else this in
  if is_set (postcheck this) || is_set (postcheck_object this) then
    match _snes this with
    | Some snes =>
        Ok (set_snes
              (Some (snes_call
                       (SNESLineSearchSetPostCheck __libmesh_petsc_snes_postcheck_cb)
                       snes)) this)
    | None => Fail Undefined_behaviour
    end
  else Ok this.

(** [void PetscNonlinearSolver<T>::build_mat_null_space]: the provider is
    the object when there is one, the function pointer otherwise; the
    result is what the code leaves in [*msp]. *)
Definition build_mat_null_space
    (computeSubspaceObject computeSubspace : option subspace_fn)
    (this : PetscNonlinearSolver)
  : Outcome (option (list Vec) * PetscNonlinearSolver) :=
  filled <-
    match computeSubspaceObject, computeSubspace with
    | Some o, _ => Ok (o (system this))
    | None, Some f => Ok (f (system this))
    | None, None => Fail Undefined_behaviour
    end ;;
  let '(sp, sys) := filled in
  let this := set_system sys this in
  let msp := None in
  let msp :=
    if (0 <? length sp)%nat then Some (orthonormalize_modes sp) else msp in
  Ok (msp, this).

(** A call made on the engine through the [_snes] handle. *)
Definition on_snes (f : SNES -> SNES) (this : PetscNonlinearSolver)
  : Outcome PetscNonlinearSolver :=
  match _snes this with
  | Some snes => Ok (set_snes (Some (f snes)) this)
  | None => Fail Undefined_behaviour
  end.

(** One of the three blocks of [solve] that build a subspace and annotate
    the Jacobian matrix with it when it is not empty. *)
Definition attach_subspace
    (computeSubspaceObject computeSubspace : option subspace_fn)
    (MatSet : PetscMatrix -> list Vec -> PetscMatrix)
    (jac : PetscMatrix) (this : PetscNonlinearSolver)
  : Outcome (PetscMatrix * PetscNonlinearSolver) :=
  built <- build_mat_null_space computeSubspaceObject computeSubspace this ;;
  let '(msp, this) := built in
  match msp with
  | Some basis => Ok (MatSet jac basis, this)
  | None => Ok (jac, this)
  end.

(** [PetscNonlinearSolver<T>::solve], from its first statement to the last
    one before [SNESSolve]. *)
Definition solve_setup (jac_in : PetscMatrix) (x_in r_in : PetscVector)
    (this : PetscNonlinearSolver) : Outcome SolveSetup :=
  this <- init None this ;;
  let jac := jac_in in
  let r := r_in in
  this <- on_snes (snes_call (SNESSetFunction (_vec r)
                                __libmesh_petsc_snes_residual_cb)) this ;;
  this <- (if is_set (jacobian this) || is_set (jacobian_object this)
              || is_set (residual_and_jacobian_object this)
           then on_snes (snes_call (SNESSetJacobian
                                      __libmesh_petsc_snes_jacobian_cb)) this
           else Ok this) ;;
  st <- (if negb (PETSC_VERSION_LESS_THAN 3 3 0) then
           st <- (if is_set (nullspace this) || is_set (nullspace_object this)
                  then attach_subspace (nullspace_object this) (nullspace this)
                                       MatSetNullSpace jac this
                  else Ok (jac, this)) ;;
           let '(jac, this) := st in
           st <- (if is_set (transpose_nullspace this)
                     || is_set (transpose_nullspace_object this)
                  then
                    if PETSC_VERSION_LESS_THAN 3 6 0
                    then (* libmesh_warning: the transpose nullspace is ignored *)
                      Ok (jac, this)
                    else attach_subspace (transpose_nullspace_object this)
                                         (transpose_nullspace this)
                                         MatSetTransposeNullSpace jac this
                  else Ok (jac, this)) ;;
           let '(jac, this) := st in
           if is_set (nearnullspace this) || is_set (nearnullspace_object this)
           then attach_subspace (nearnullspace_object this) (nearnullspace this)
                                MatSetNearNullSpace jac this
           else Ok (jac, this)
         else Ok (jac, this)) ;;
  let '(jac, this) := st in
  this <- on_snes (snes_call (KSPSetTolerances (initial_linear_tolerance this)
                                               (max_linear_iterations this)))
                  this ;;
  this <- on_snes (snes_call (SNESSetTolerances
                                (absolute_residual_tolerance this)
                                (relative_residual_tolerance this)
                                (relative_step_tolerance this)
                                (max_nonlinear_iterations this)
                                (max_function_evaluations this))) this ;;
  this <- (if PETSC_VERSION_LESS_THAN 3 7 0
           then on_snes (snes_call KSPSetFromOptions) this else Ok this) ;;
  this <- on_snes (snes_call SNESSetFromOptions) this ;;
  let this := match user_presolve this with
              | Some presolve => set_system (presolve (system this)) this
              | None => this
              end in
  let this := match _preconditioner this with
              | Some p =>
                  set_preconditioner (Some (pc_init (pc_set_matrix jac_in p))) this
              | None => this
              end in
  this <- (match _solver_configuration this with
           | Some c => on_snes (configure_solver c) this
           | None => Ok this
           end) ;;
  snes <- (match _snes this with
           | Some snes => Ok snes
           | None => Fail Undefined_behaviour
           end) ;;
  Ok {| setup_snes := snes; setup_solver := this; setup_jac := jac |}.

(** [PetscNonlinearSolver<T>::solve], from the return of [SNESSolve]. *)
Definition solve_finish (setup : SolveSetup) (run : EngineRun)
  : Outcome SolveReturn :=
  (* LIBMESH_CHKERR(ierr) *)
  if negb (run_ierr run =? 0)%Z then Fail (Petsc_error (run_ierr run))
  else
    let this := setup_solver setup in
    let this := set_snes (Some (run_snes run)) this in
    let this := set_system (run_system run) this in
    let this := set_current_nonlinear_iteration_number
                  (run_current_nonlinear_iteration_number run) this in
    snes <- (match _snes this with
             | Some snes => Ok snes
             | None => Fail Undefined_behaviour
             end) ;;
    let n_iterations := snes_iteration_number snes in
    let this := set_n_linear_iterations (snes_linear_solve_iterations snes) this in
    let this := set_system (enforce_constraints_exactly (system this)) this in
    let f := snes_function snes in
    let final_residual_norm := VecNorm f in
    let this := set_reason (snes_converged_reason snes) this in
    let this := set_converged (0 <=? _reason this)%Z this in
    let this := clear this in
    Ok {| n_iterations := cast_int_unsigned n_iterations;
          final_residual_norm := final_residual_norm;
          solve_solver := this;
          solve_jac := run_jac run;
          solve_x := run_x run;
          solve_r := run_r run |}.

(** [std::pair<unsigned int, Real> PetscNonlinearSolver<T>::solve
    (SparseMatrix<T> & jac_in, NumericVector<T> & x_in,
     NumericVector<T> & r_in, const double, const unsigned int)] *)
Definition solve (jac_in : PetscMatrix) (x_in r_in : PetscVector)
    (this : PetscNonlinearSolver) : Outcome SolveReturn :=
  setup <- solve_setup jac_in x_in r_in this ;;
  run <- SNESSolve (setup_snes setup) (setup_solver setup) (setup_jac setup)
                   x_in r_in ;;
  solve_finish setup run.

End Collaborators.

(** *** The rest of the class *)

(** [PetscNonlinearSolver<T>::~PetscNonlinearSolver ()] *)
Definition destroy (this : PetscNonlinearSolver) : PetscNonlinearSolver :=
  clear this.

(** [SNESConvergedReason PetscNonlinearSolver<T>::get_converged_reason()]:
    the value returned and the context after the call. *)
Definition get_converged_reason (this : PetscNonlinearSolver)
  : Outcome (Z * PetscNonlinearSolver) :=
  this <- (if _is_initialized this then
             match _snes this with
             | Some snes => Ok (set_reason (snes_converged_reason snes) this)
             | None => Fail Undefined_behaviour
             end
           else Ok this) ;;
  Ok (_reason this, this).

(** [int PetscNonlinearSolver<T>::get_total_linear_iterations()] *)
Definition get_total_linear_iterations (this : PetscNonlinearSolver) : Z :=
  _n_linear_iterations this.


End Petsc.

(* ================================================================== *)
(** ** Vocabulary of the properties *)

Module PetscSpec.
Import Petsc.

(** The context never claims to be initialized without an engine handle
    (the constructor starts with [_is_initialized = false]; [init] and
    [clear] change the flag and the handle together). *)
Definition handle_consistent (s : PetscNonlinearSolver) : Prop :=
  _is_initialized s = true -> _snes s <> None.

(** The context holds an engine handle. *)
Definition ready (s : PetscNonlinearSolver) : Prop := exists snes, _snes s = Some snes.


(** From [s] to [s'] the settings, the initialization flag and the presence
    of a handle are kept. *)
Definition keeps (s s' : PetscNonlinearSolver) : Prop :=
ready s' /\ settings s' = settings s /\ _is_initialized s' = _is_initialized s.


(** The calls already made on the handle that [solve] will use: those of an
    initialized context; none when [init] is still to create the handle. *)
Definition calls_on_entry (s : PetscNonlinearSolver) : list EngineCall :=
  if _is_initialized s
  then match _snes s with Some snes => snes_calls snes | None => [] end
  else [].

Definition non_jacobian (c : EngineCall) : Prop :=
  c <> SNESSetJacobian __libmesh_petsc_snes_jacobian_cb.

(** From [s] to [s'] the settings and the flag are kept and the handle has
    received further calls, none of them [SNESSetJacobian]. *)
Definition appends (s s' : PetscNonlinearSolver) : Prop :=
  settings s' = settings s /\ _is_initialized s' = _is_initialized s /\
  exists snes snes' made,
    _snes s = Some snes /\ _snes s' = Some snes' /\
    snes_calls snes' = snes_calls snes ++ made /\ Forall non_jacobian made.

(** The test of [solve] before [SNESSetJacobian]. *)
Definition solve_registers_jacobian (s : PetscNonlinearSolver) : bool :=
  is_set (jacobian s) || is_set (jacobian_object s)
  || is_set (residual_and_jacobian_object s).

(** The first registered form of the residual role, in the order in which
    the dispatch of the residual callback tests them. *)
Definition first_residual_form (s : PetscNonlinearSolver) : option Form :=
  if is_set (residual s) then Some F_residual
  else if is_set (residual_object s) then Some F_residual_object
  else if is_set (matvec s) then Some F_matvec
  else if is_set (residual_and_jacobian_object s)
       then Some F_residual_and_jacobian_object
  else None.

Definition first_jacobian_form (s : PetscNonlinearSolver) : option Form :=
  if is_set (jacobian s) then Some F_jacobian
  else if is_set (jacobian_object s) then Some F_jacobian_object
  else if is_set (matvec s) then Some F_matvec
  else if is_set (residual_and_jacobian_object s)
       then Some F_residual_and_jacobian_object
  else None.

(** What running one form of the residual role does to the output buffer
    and the system. *)
Definition residual_form_effect (form : Form) (s : PetscNonlinearSolver)
    (X R : PetscVector) (sys : NonlinearImplicitSystem)
  : option (PetscVector * NonlinearImplicitSystem) :=
  let combined (f : matvec_fn) :=
    let '(R', _, sys') := f X (Some R) None sys in
    (match R' with Some v => v | None => R end, sys') in
  match form with
  | F_residual => option_map (fun f => f X R sys) (residual s)
  | F_residual_object => option_map (fun o => o X R sys) (residual_object s)
  | F_matvec => option_map combined (matvec s)
  | F_residual_and_jacobian_object =>
      option_map combined (residual_and_jacobian_object s)
  | _ => None
  end.

Definition configuration_error {A : Type} (o : Outcome A) : Prop :=
  exists msg, o = Fail (Error_msg msg).

(** The four roles for which a function and an object can both be set. *)
Inductive Role : Type :=
| Residual_role | Jacobian_role | Residual_and_jacobian_role | Postcheck_role.

Definition both_registered (role : Role) (s : PetscNonlinearSolver) : bool :=
  match role with
  | Residual_role => is_set (residual s) && is_set (residual_object s)
  | Jacobian_role => is_set (jacobian s) && is_set (jacobian_object s)
  | Residual_and_jacobian_role =>
      is_set (matvec s) && is_set (residual_and_jacobian_object s)
  | Postcheck_role => is_set (postcheck s) && is_set (postcheck_object s)
  end.

(** A user post-check receives the system by reference; this says that it
    hands the degree-of-freedom map back as it got it. *)
Definition keeps_dof_map (f : postcheck_fn) : Prop :=
  forall old_soln search_direction new_soln changed_search_direction
         changed_new_soln sys,
    get_dof_map (pc_system (f old_soln search_direction new_soln
                              changed_search_direction changed_new_soln sys))
    = get_dof_map sys.

Definition postcheck_forms_keep_dof_map (s : PetscNonlinearSolver) : Prop :=
  (forall f, postcheck s = Some f -> keeps_dof_map f) /\
  (forall o, postcheck_object s = Some o -> keeps_dof_map o).

(** The condition under which [solve] registers the Jacobian callback,
    as the design document words it. *)
Definition any_jacobian_producing_form (s : PetscNonlinearSolver) : bool :=
  is_set (jacobian s) || is_set (jacobian_object s)
  || is_set (matvec s) || is_set (residual_and_jacobian_object s).

(** Concrete data for the closed statements below: settings with the given
    eight forms and no subspace provider, hook or preconditioner. *)
Definition with_forms (f o : option residual_fn) (j jo : option jacobian_fn)
    (m rj : option matvec_fn) (pc pco : option postcheck_fn)
  : NonlinearSolverSettings :=
  {| residual := f; residual_object := o;
     jacobian := j; jacobian_object := jo;
     matvec := m; residual_and_jacobian_object := rj;
     postcheck := pc; postcheck_object := pco;
     nullspace := None; nullspace_object := None;
     transpose_nullspace := None; transpose_nullspace_object := None;
     nearnullspace := None; nearnullspace_object := None;
     user_presolve := None;
     max_nonlinear_iterations := 50%Z; max_function_evaluations := 10000%Z;
     absolute_residual_tolerance := 0%R; relative_residual_tolerance := 0%R;
     relative_step_tolerance := 0%R;
     max_linear_iterations := 10000%Z; initial_linear_tolerance := 0%R;
     _solver_configuration := None;
     _zero_out_residual := true; _zero_out_jacobian := true;
     _default_monitor := true |}.

Definition no_forms : NonlinearSolverSettings :=
  with_forms None None None None None None None None.

Definition sys0 (constrained : nat) : NonlinearImplicitSystem :=
  {| solution := PetscVector_of_Vec [1%R; 2%R];
     current_local_solution := PetscVector_of_Vec [0%R; 0%R];
     get_dof_map := {| n_constrained_dofs := constrained |} |}.

(** [PetscNonlinearSolver (sys_type & system_in)] with the given settings *)
Definition constructed (cfg : NonlinearSolverSettings)
    (sys : NonlinearImplicitSystem) : PetscNonlinearSolver :=
  {| settings := cfg; converged := false; system := sys;
     _is_initialized := false; _preconditioner := None; _snes := None;
     _reason := 0%Z; _n_linear_iterations := 0%Z;
     _current_nonlinear_iteration_number := 0%Z |}.

Definition a_residual : residual_fn := fun X R sys => (X, sys).
Definition a_matvec : matvec_fn := fun X R J sys => (R, J, sys).

(** A user post-check that changes nothing and reports no change. *)
Definition a_postcheck : postcheck_fn :=
  fun old_soln search_direction new_soln changed_search_direction
      changed_new_soln sys =>
    {| pc_old_soln := old_soln; pc_search_direction := search_direction;
       pc_new_soln := new_soln;
       pc_changed_search_direction := false; pc_changed_new_soln := false;
       pc_system := sys |}.

(** Both residual forms registered. *)
Definition residual_twice : PetscNonlinearSolver :=
  constructed (with_forms (Some a_residual) (Some a_residual)
                          None None None None None None) (sys0 0).

(** Only the combined function registered. *)
Definition matvec_only : PetscNonlinearSolver :=
  constructed (with_forms None None None None (Some a_matvec) None None None)
              (sys0 0).

(** An engine that gives up at once with [SNES_DIVERGED_FUNCTION_COUNT]. *)
Definition diverging_engine (snes : SNES) (s : PetscNonlinearSolver)
    (jac : PetscMatrix) (x r : PetscVector) : Outcome EngineRun :=
  Ok {| run_ierr := 0%Z;
        run_snes := {| snes_calls := snes_calls snes;
                       snes_iteration_number := 0%Z;
                       snes_linear_solve_iterations := 0%Z;
                       snes_converged_reason := (-2)%Z;
                       snes_function := _vec r |};
        run_jac := jac; run_x := x; run_r := r;
        run_system := system s;
        run_current_nonlinear_iteration_number := 0%Z |}.
Definition plain_copy : PetscVector -> PetscVector -> PetscVector :=
  fun solution _ => solution.
Definition no_constraints : NonlinearImplicitSystem -> PetscVector -> PetscVector :=
  fun _ v => v.
Definition a_matrix : PetscMatrix :=
  {| _mat := [[1%R; 0%R]; [0%R; 1%R]]; _mat_is_closed := true; _dof_map := None;
     mat_null_space := None; mat_transpose_null_space := None;
     mat_near_null_space := None |}.

(** The residual callback's dispatch as the design document words it,
    instantiated at one invocation: the first registered form is the one
    invoked, and with no form at all the callback ends in a configuration
    error. *)
Definition residual_dispatch_as_stated
    (localize : PetscVector -> PetscVector -> PetscVector)
    (enforce_on : NonlinearImplicitSystem -> PetscVector -> PetscVector)
    (snes : SNES) (x r : Vec) (s : PetscNonlinearSolver) : Prop :=
  match first_residual_form s with
  | Some form =>
      exists ret, __libmesh_petsc_snes_residual localize enforce_on snes x r s = Ok ret
                  /\ res_invoked ret = [form]
  | None =>
      configuration_error
        (__libmesh_petsc_snes_residual localize enforce_on snes x r s)
  end.


(** The post-check flag as the design document words it, instantiated at
    one invocation: on a system with at least one constrained degree of
    freedom, the callback returns with the "new point changed" flag set. *)
Definition postcheck_constraints_as_stated
    (enforce_on : NonlinearImplicitSystem -> PetscVector -> PetscVector)
    (x y w : Vec) (s : PetscNonlinearSolver) : Prop :=
  0 < n_constrained_dofs (get_dof_map (system s)) ->
  forall ret,
    __libmesh_petsc_snes_postcheck enforce_on x y w s = Ok ret ->
    changed_w ret = true.

(** A user post-check that, through the system it receives by reference,
    leaves a degree-of-freedom map without constraints; it changes neither
    vector and reports no change. *)
Definition a_clearing_postcheck : postcheck_fn :=
  fun old_soln search_direction new_soln changed_search_direction
      changed_new_soln sys =>
    {| pc_old_soln := old_soln; pc_search_direction := search_direction;
       pc_new_soln := new_soln;
       pc_changed_search_direction := false; pc_changed_new_soln := false;
       pc_system := {| solution := solution sys;
                       current_local_solution := current_local_solution sys;
                       get_dof_map := {| n_constrained_dofs := 0 |} |} |}.

(** One constrained degree of freedom on entry, and that post-check. *)
Definition constraints_cleared_by_postcheck : PetscNonlinearSolver :=
  constructed (with_forms None None None None None None
                          (Some a_clearing_postcheck) None) (sys0 1).


Local Open Scope R_scope.

(** All the vectors have [n] entries. *)
Definition same_dim (n : nat) (vs : list Vec) : Prop :=
  Forall (fun v => length v = n) vs.

(** The linear combinations of the vectors of [S], in dimension [n]: the
    zero vector, and any of them plus a multiple of a vector of [S]. *)
Inductive span (n : nat) (S : list Vec) : Vec -> Prop :=
| span_zero : span n S (repeat 0 n)
| span_axpy y a x : span n S y -> In x S -> span n S (VecAXPY y a x).

(** No vector is a linear combination of the ones before it. *)
Definition independent_of_earlier (n : nat) (vs : list Vec) : Prop :=
  forall k, (k < length vs)%nat -> ~ span n (firstn k vs) (nth k vs []).

(** [lincomb n [c1; ...; cm] [v1; ...; vm]] is [c1 v1 + ... + cm vm] in
    dimension [n]. *)
Fixpoint lincomb (n : nat) (cs : list R) (vs : list Vec) : Vec :=
  match cs, vs with
  | c :: cs', v :: vs' => VecAXPY (lincomb n cs' vs') c v
  | _, _ => repeat 0 n
  end.

(** Linear independence: a linear combination of the vectors is the zero
    vector only when all its coefficients are zero. *)
Definition linearly_independent (n : nat) (vs : list Vec) : Prop :=
  forall cs, length cs = length vs -> lincomb n cs vs = repeat 0 n ->
             Forall (fun c => c = 0) cs.

(** Every vector of unit norm, every two distinct ones orthogonal. *)
Definition orthonormal (us : list Vec) : Prop :=
  (forall i, (i < length us)%nat -> VecNorm (nth i us []) = 1) /\
  (forall i j, (i < length us)%nat -> (j < length us)%nat -> i <> j ->
               VecDot (nth i us []) (nth j us []) = 0).

(** The same, by recursion on the list. *)
Fixpoint ortho (us : list Vec) : Prop :=
  match us with
  | [] => True
  | u :: rest =>
      VecDot u u = 1 /\ Forall (fun w => VecDot u w = 0) rest /\ ortho rest
  end.

(** Removing from [acc] its components along [us], with the coefficients
    taken on [y0]: what [VecMDot], the sign change and [VecMAXPY] of one
    turn of the loop do together. *)
Definition project_out (y0 : Vec) (us : list Vec) (acc : Vec) : Vec :=
  fold_left (fun acc u => VecAXPY acc (VecDot y0 u * -1) u) us acc.

(** Sum of a list of reals. *)
Fixpoint sumR (l : list R) : R :=
  match l with [] => 0 | a :: t => a + sumR t end.

(** The provider [build_mat_null_space] calls: the object when there is
    one, the function pointer otherwise. *)
Definition provider (computeSubspaceObject computeSubspace : option subspace_fn)
  : option subspace_fn :=
  match computeSubspaceObject with
  | Some o => Some o
  | None => computeSubspace
  end.

(** The construction of a subspace basis as the design document words it,
    instantiated at one call: nothing is built from an empty set of
    vectors, and any other set yields an orthonormal basis. *)
Definition null_space_basis_as_stated
    (computeSubspaceObject computeSubspace : option subspace_fn)
    (this : PetscNonlinearSolver) : Prop :=
  forall p sp sys',
    provider computeSubspaceObject computeSubspace = Some p ->
    p (system this) = (sp, sys') ->
    (sp = [] ->
     build_mat_null_space computeSubspaceObject computeSubspace this
     = Ok (None, set_system sys' this)) /\
    (sp <> [] ->
     exists basis,
       build_mat_null_space computeSubspaceObject computeSubspace this
       = Ok (Some basis, set_system sys' this) /\
       orthonormal basis).

Definition zero_mode : subspace_fn :=
  fun sys => ([PetscVector_of_Vec [0]], sys).

Definition two_modes : subspace_fn :=
  fun sys => ([PetscVector_of_Vec [1; 0]; PetscVector_of_Vec [1; 1]], sys).

(** What holds of the [modes] array of [build_mat_null_space] when the
    first [k] of the input vectors [vs] have been processed. *)
Record Inv (n : nat) (vs : list Vec) (k : nat) (modes : list Vec) : Prop := mkInv {
  I_len : length modes = length vs;
  I_dim : same_dim n modes;
  I_rest : skipn k modes = skipn k vs;
  I_ortho : ortho (firstn k modes);
  I_span : Forall (span n (firstn k vs)) (firstn k modes)
}.

(** *** Vocabulary for the callbacks' effects and for [init] and [solve] *)

Local Close Scope R_scope.

(** What running one form of the Jacobian role does to the matrix it is
    handed and to the system. *)
Definition jacobian_form_effect (form : Form) (s : PetscNonlinearSolver)
    (X : PetscVector) (PC : PetscMatrix) (sys : NonlinearImplicitSystem)
  : option (PetscMatrix * NonlinearImplicitSystem) :=
  let combined (f : matvec_fn) :=
    let '(_, J', sys') := f X None (Some PC) sys in
    (match J' with Some m => m | None => PC end, sys') in
  match form with
  | F_jacobian => option_map (fun f => f X PC sys) (jacobian s)
  | F_jacobian_object => option_map (fun o => o X PC sys) (jacobian_object s)
  | F_matvec => option_map combined (matvec s)
  | F_residual_and_jacobian_object =>
      option_map combined (residual_and_jacobian_object s)
  | _ => None
  end.

(** The registered post-check form, when exactly one is. *)
Definition the_postcheck (s : PetscNonlinearSolver) : option (postcheck_fn * Form) :=
  match postcheck s, postcheck_object s with
  | Some f, None => Some (f, F_postcheck)
  | None, Some o => Some (o, F_postcheck_object)
  | _, _ => None
  end.

(** The candidate solution and the system as the user post-check leaves
    them (as they came in when there is none). *)
Definition after_user_postcheck (s : PetscNonlinearSolver) (x y w : Vec)
  : PetscVector * NonlinearImplicitSystem :=
  match the_postcheck s with
  | Some (f, _) =>
      let e := f (PetscVector_of_Vec x) (PetscVector_of_Vec y)
                 (PetscVector_of_Vec w) false false (system s) in
      (pc_new_soln e, pc_system e)
  | None => (PetscVector_of_Vec w, system s)
  end.

(** The three subspace blocks of [solve], between the registration of the
    callbacks and the tolerances. *)
Definition subspace_blocks (PETSC_VERSION : nat * nat * nat)
    (jac : PetscMatrix) (this : PetscNonlinearSolver)
  : Outcome (PetscMatrix * PetscNonlinearSolver) :=
  if negb (PETSC_VERSION_LESS_THAN PETSC_VERSION 3 3 0) then
    st <- (if is_set (nullspace this) || is_set (nullspace_object this)
           then attach_subspace (nullspace_object this) (nullspace this)
                                MatSetNullSpace jac this
           else Ok (jac, this)) ;;
    let '(jac, this) := st in
    st <- (if is_set (transpose_nullspace this)
              || is_set (transpose_nullspace_object this)
           then
             if PETSC_VERSION_LESS_THAN PETSC_VERSION 3 6 0
             then Ok (jac, this)
             else attach_subspace (transpose_nullspace_object this)
                                  (transpose_nullspace this)
                                  MatSetTransposeNullSpace jac this
           else Ok (jac, this)) ;;
    let '(jac, this) := st in
    if is_set (nearnullspace this) || is_set (nearnullspace_object this)
    then attach_subspace (nearnullspace_object this) (nearnullspace this)
                         MatSetNearNullSpace jac this
    else Ok (jac, this)
  else Ok (jac, this).

(** [solve] from the tolerances to the last statement before [SNESSolve],
    on the matrix and the context the subspace blocks leave. *)
Definition solve_tail (PETSC_VERSION : nat * nat * nat) (jac_in : PetscMatrix)
    (st : PetscMatrix * PetscNonlinearSolver) : Outcome SolveSetup :=
  let '(jac, this) := st in
  this <- on_snes (snes_call (KSPSetTolerances (initial_linear_tolerance this)
                                               (max_linear_iterations this)))
                  this ;;
  this <- on_snes (snes_call (SNESSetTolerances
                                (absolute_residual_tolerance this)
                                (relative_residual_tolerance this)
                                (relative_step_tolerance this)
                                (max_nonlinear_iterations this)
                                (max_function_evaluations this))) this ;;
  this <- (if PETSC_VERSION_LESS_THAN PETSC_VERSION 3 7 0
           then on_snes (snes_call KSPSetFromOptions) this else Ok this) ;;
  this <- on_snes (snes_call SNESSetFromOptions) this ;;
  let this := match user_presolve this with
              | Some presolve => set_system (presolve (system this)) this
              | None => this
              end in
  let this := match _preconditioner this with
              | Some p =>
                  set_preconditioner (Some (pc_init (pc_set_matrix jac_in p))) this
              | None => this
              end in
  this <- (match _solver_configuration this with
           | Some c => on_snes (configure_solver c) this
           | None => Ok this
           end) ;;
  snes <- (match _snes this with
           | Some snes => Ok snes
           | None => Fail Undefined_behaviour
           end) ;;
  Ok {| setup_snes := snes; setup_solver := this; setup_jac := jac |}.

(** No subspace provider of any kind is registered. *)
Definition no_subspace_provider (s : PetscNonlinearSolver) : Prop :=
  nullspace s = None /\ nullspace_object s = None /\
  transpose_nullspace s = None /\ transpose_nullspace_object s = None /\
  nearnullspace s = None /\ nearnullspace_object s = None.

(** The engine calls a first [init] makes on the handle it creates, when no
    [SolverConfiguration] hook is attached. *)
Definition init_calls (PETSC_VERSION : nat * nat * nat) (name : option string)
    (s : PetscNonlinearSolver) : list EngineCall :=
  [SNESCreate]
  ++ match name with Some n => [SNESSetOptionsPrefix n] | None => [] end
  ++ (if PETSC_VERSION_LESS_THAN PETSC_VERSION 3 3 0 then [] else [SNESSetDM name])
  ++ (if _default_monitor s
      then [SNESMonitorSet __libmesh_petsc_snes_monitor_cb] else [])
  ++ (if PETSC_VERSION_LESS_THAN PETSC_VERSION 3 1 0
      then [SNESSetFromOptions] else [])
  ++ (if is_set (_preconditioner s) then [PCShellSetUp] else []).

(** The registration [init] makes on every call. *)
Definition postcheck_registration (s : PetscNonlinearSolver) : list EngineCall :=
  if is_set (postcheck s) || is_set (postcheck_object s)
  then [SNESLineSearchSetPostCheck __libmesh_petsc_snes_postcheck_cb] else [].

(** The registrations of the two callbacks by [solve]. *)
Definition callback_registrations (r : PetscVector) (s : PetscNonlinearSolver)
  : list EngineCall :=
  SNESSetFunction (_vec r) __libmesh_petsc_snes_residual_cb
  :: (if solve_registers_jacobian s
      then [SNESSetJacobian __libmesh_petsc_snes_jacobian_cb] else []).

(** The engine calls of [solve] from the tolerances on, when no
    [SolverConfiguration] hook is attached. *)
Definition tail_calls (PETSC_VERSION : nat * nat * nat)
    (s : PetscNonlinearSolver) : list EngineCall :=
  [KSPSetTolerances (initial_linear_tolerance s) (max_linear_iterations s);
   SNESSetTolerances (absolute_residual_tolerance s)
                     (relative_residual_tolerance s)
                     (relative_step_tolerance s)
                     (max_nonlinear_iterations s)
                     (max_function_evaluations s)]
  ++ (if PETSC_VERSION_LESS_THAN PETSC_VERSION 3 7 0
      then [KSPSetFromOptions] else [])
  ++ [SNESSetFromOptions].

(** The engine calls of [solve] after [init], up to [SNESSolve], when no
    [SolverConfiguration] hook is attached. *)
Definition solve_calls (PETSC_VERSION : nat * nat * nat) (r : PetscVector)
    (s : PetscNonlinearSolver) : list EngineCall :=
  callback_registrations r s ++ tail_calls PETSC_VERSION s.


(** More concrete data: a user post-check that moves the candidate and says
    so, an engine whose call fails, and the canonical basis of the plane. *)
Definition a_moving_postcheck : postcheck_fn :=
  fun old_soln search_direction new_soln changed_search_direction
      changed_new_soln sys =>
    {| pc_old_soln := old_soln; pc_search_direction := search_direction;
       pc_new_soln := zero new_soln;
       pc_changed_search_direction := false; pc_changed_new_soln := true;
       pc_system := sys |}.

Definition with_postcheck (f : postcheck_fn) (constrained : nat)
  : PetscNonlinearSolver :=
  constructed (with_forms None None None None None None (Some f) None)
              (sys0 constrained).

Definition failing_engine (snes : SNES) (s : PetscNonlinearSolver)
    (jac : PetscMatrix) (x r : PetscVector) : Outcome EngineRun :=
  Ok {| run_ierr := 73%Z; run_snes := snes; run_jac := jac; run_x := x;
        run_r := r; run_system := system s;
        run_current_nonlinear_iteration_number := 0%Z |}.

Definition canonical_basis : list PetscVector :=
  [PetscVector_of_Vec [1%R; 0%R]; PetscVector_of_Vec [0%R; 1%R]].

End PetscSpec.


Module TypeVecSpec.
Import TypeVec.

(** Two vectors whose coordinates are pairwise equal as rationals. *)
Definition same_coords (a b : TypeVector) : Prop :=
  Forall2 Qeq (_coords a) (_coords b).

(** The vector whose coordinate [i] is [f] of the operands' coordinates [i]. *)
Definition pointwise (f : Q -> Q -> Q) (a b : TypeVector) : TypeVector :=
  mkTypeVector (map (fun ab => f (fst ab) (snd ab))
                    (combine (_coords a) (_coords b))).

(** The vector whose coordinate [i] is [f] of the operand's coordinate [i]. *)
Definition coordwise (f : Q -> Q) (a : TypeVector) : TypeVector :=
  mkTypeVector (map f (_coords a)).

(** The three arguments of the constructor as a list. *)
Definition xyz (x y z : Q) : list Q := [x; y; z].

(** The origin of [DIM]-space. *)
Definition origin (DIM : nat) : TypeVector := mkTypeVector (repeat 0%Q DIM).

End TypeVecSpec.

(* ================================================================== *)
(** * Properties *)

Unset Implicit Arguments.

Lemma upd_length {A : Type} (l : list A) i x : length (upd l i x) = length l.
Proof.
  revert i; induction l as [|h t IH]; intros [|j]; simpl; auto.
Qed.

Module TypeVecFacts.
Import TypeVec.

Lemma Qltb_iff x y : Qltb x y = true <-> (x < y)%Q.
Proof.
  unfold Qltb. rewrite negb_true_iff. split.
  - intros H. apply Qnot_le_lt. intros Hle.
    apply Qle_bool_iff in Hle. congruence.
  - intros H. destruct (Qle_bool y x) eqn:E; auto.
    apply Qle_bool_iff in E. exfalso. exact (Qlt_not_le _ _ H E).
Qed.

Lemma rd_in_range (v : TypeVector) i :
  i < length (_coords v) -> rd v i = Ok (coord v i).
Proof.
  intros Hi. unfold rd, coord.
  destruct (nth_error (_coords v) i) as [x|] eqn:E.
  - now rewrite (nth_error_nth _ _ 0%Q E).
  - apply nth_error_None in E. lia.
Qed.

Lemma gt_DIM_minus_1_spec DIM i :
  1 <= DIM -> DIM < 3 -> gt_DIM_minus_1 DIM i = negb (i <? DIM).
Proof.
  intros H1 H3. unfold gt_DIM_minus_1.
  rewrite Z.mod_small by lia.
  destruct (i <? DIM) eqn:E; simpl.
  - apply Nat.ltb_lt in E. apply Z.ltb_ge. lia.
  - apply Nat.ltb_ge in E. apply Z.ltb_lt. lia.
Qed.

(** C10.  With [DIM < 3], the read-only accessor is total on the indices
    0, 1, 2: it yields 0 for an index at or beyond [DIM] (without touching
    the array) and coordinate [i] below [DIM]; the writable accessor at an
    index at or beyond [DIM] ends in [error()] instead of a reference. *)
Theorem accessor_beyond_DIM (DIM : nat) (v : TypeVector) (i : nat) :
  1 <= DIM -> DIM < 3 -> well_formed DIM v -> i < 3 ->
  (DIM <= i -> get DIM v i = Ok 0%Q /\ ref DIM v i = Fail (Error_msg "")) /\
  (i < DIM -> get DIM v i = Ok (coord v i) /\
              nth_error (_coords v) i = Some (coord v i)) /\
  (exists x, get DIM v i = Ok x).
Proof.
  intros H1 H3 Hwf Hi. unfold well_formed in Hwf.
  assert (Hlt3 : (i <? 3) = true) by now apply Nat.ltb_lt.
  assert (HD : (DIM <? 3) = true) by now apply Nat.ltb_lt.
  assert (Hhi : DIM <= i -> get DIM v i = Ok 0%Q).
  { intros Hge. unfold get. rewrite Hlt3, HD, gt_DIM_minus_1_spec by lia.
    simpl. replace (i <? DIM) with false; [reflexivity|].
    symmetry. apply Nat.ltb_ge. lia. }
  assert (Hlo : i < DIM -> get DIM v i = Ok (coord v i)).
  { intros Hl. unfold get. rewrite Hlt3, HD, gt_DIM_minus_1_spec by lia.
    simpl. replace (i <? DIM) with true; [simpl|].
    - apply rd_in_range. lia.
    - symmetry. now apply Nat.ltb_lt. }
  split; [|split].
  - intros Hge. split; [now apply Hhi|].
    unfold ref. rewrite HD. replace (DIM <=? i) with true; [reflexivity|].
    symmetry. now apply Nat.leb_le.
  - intros Hl. split; [now apply Hlo|].
    unfold coord. apply nth_error_nth'. lia.
  - destruct (Nat.lt_ge_cases i DIM) as [Hl|Hge]; eauto.
Qed.

Lemma accessor_beyond_DIM_witness :
  get 2 (mkTypeVector [1#2; 5]%Q) 2 = Ok 0%Q /\
  ref 2 (mkTypeVector [1#2; 5]%Q) 2 = Fail (Error_msg "").
Proof.
  refine (proj1 (@accessor_beyond_DIM 2 (mkTypeVector [1#2; 5]%Q) 2 _ _ _ _) _);
    try reflexivity; unfold well_formed; simpl; lia.
Defined.

(** C9.  For [DIM] = 1, 2 or 3 the equality operator of the real-valued
    vector answers [true] exactly when the sum over the [DIM] coordinates of
    the absolute coordinate differences is strictly below [DIM] times
    [TOLERANCE], and the inequality operator answers the negation. *)
Theorem op_eq_is_sum_abs_diff (DIM : nat) (TOLERANCE : Q) (a b : TypeVector) :
  1 <= DIM <= 3 -> well_formed DIM a -> well_formed DIM b ->
  exists e : bool,
    op_eq DIM TOLERANCE a b = Ok e /\
    (e = true <-> spec_equal DIM TOLERANCE a b) /\
    op_ne DIM TOLERANCE a b = Ok (negb e).
Proof.
  intros HD Ha Hb. unfold well_formed in *.
  destruct a as [ca], b as [cb]; simpl in *.
  assert (HD3 : DIM = 1 \/ DIM = 2 \/ DIM = 3) by lia.
  destruct HD3 as [E|[E|E]]; subst DIM.
  - destruct ca as [|a0 [|? ?]]; try discriminate.
    destruct cb as [|b0 [|? ?]]; try discriminate.
    eexists; split; [reflexivity|]. split; [|reflexivity].
    rewrite Qltb_iff. unfold spec_equal, sum_abs_diff, coord; simpl.
    rewrite Qplus_0_r, Qmult_1_l. reflexivity.
  - destruct ca as [|a0 [|a1 [|? ?]]]; try discriminate.
    destruct cb as [|b0 [|b1 [|? ?]]]; try discriminate.
    eexists; split; [reflexivity|]. split; [|reflexivity].
    rewrite Qltb_iff. unfold spec_equal, sum_abs_diff, coord; simpl.
    rewrite Qplus_0_r. reflexivity.
  - destruct ca as [|a0 [|a1 [|a2 [|? ?]]]]; try discriminate.
    destruct cb as [|b0 [|b1 [|b2 [|? ?]]]]; try discriminate.
    eexists; split; [reflexivity|]. split; [|reflexivity].
    rewrite Qltb_iff. unfold spec_equal, sum_abs_diff, coord; simpl.
    rewrite Qplus_0_r, Qplus_assoc. reflexivity.
Qed.

Lemma op_eq_is_sum_abs_diff_witness :
  exists e : bool,
    op_eq 3 (1 # 1000000) (mkTypeVector [1; 2; 3]%Q)
          (mkTypeVector [1; 2; 3000001 # 1000000]%Q) = Ok e /\
    (e = true <->
     spec_equal 3 (1 # 1000000) (mkTypeVector [1; 2; 3]%Q)
                (mkTypeVector [1; 2; 3000001 # 1000000]%Q)) /\
    op_ne 3 (1 # 1000000) (mkTypeVector [1; 2; 3]%Q)
          (mkTypeVector [1; 2; 3000001 # 1000000]%Q) = Ok (negb e).
Proof.
  apply (@op_eq_is_sum_abs_diff 3 (1 # 1000000) (mkTypeVector [1; 2; 3]%Q)
           (mkTypeVector [1; 2; 3000001 # 1000000]%Q)).
  - lia.
  - reflexivity.
  - reflexivity.
Defined.

(** The operators on the vectors above: a distance of one tolerance in the
    last coordinate still compares equal in three dimensions. *)
Example op_eq_within_tolerance :
  op_eq 3 (1 # 1000000) (mkTypeVector [1; 2; 3]%Q)
        (mkTypeVector [1; 2; 3000001 # 1000000]%Q) = Ok true /\
  op_eq 1 (1 # 1000000) (mkTypeVector [3]%Q)
        (mkTypeVector [3000001 # 1000000]%Q) = Ok false.
Proof. split; vm_compute; reflexivity. Qed.

  End TypeVecFacts.

(* ================================================================== *)
(** ** The arithmetic of [TypeVector] *)

From Stdlib Require Qfield Lqa.

Module TypeVecArith.
Import TypeVec TypeVecSpec TypeVecFacts.

(** A vector of one, two or three coordinates, coordinate by coordinate. *)
Ltac by_dim :=
  repeat match goal with
         | H : 1 <= ?D <= 3 |- _ =>
             assert (D = 1 \/ D = 2 \/ D = 3) as [?|[?|?]] by lia; clear H; subst D
         end;
  unfold well_formed in *;
  repeat match goal with
         | v : TypeVector |- _ => destruct v as [v]; cbn [_coords] in *
         end;
  repeat match goal with
         | H : length ?c = S _ |- _ =>
             destruct c as [|? [|? [|? [|? ?]]]]; try discriminate H; clear H
         end.

Ltac coords_eq := unfold same_coords; simpl; repeat (constructor; try ring).

(** X1.  The constructor keeps the first [DIM] of its three arguments, and
    the read-only accessor reads them back: index [i] below [DIM] yields
    argument [i], an index from [DIM] to 2 yields 0. *)
Theorem ctor_then_get (DIM : nat) (x y z : Q) :
  1 <= DIM <= 3 ->
  exists v, TypeVector_xyz DIM x y z = Ok v /\ well_formed DIM v /\
            _coords v = firstn DIM (xyz x y z) /\
            forall i, i < 3 ->
              get DIM v i = Ok (if i <? DIM then nth i (xyz x y z) 0%Q else 0%Q).
Proof.
  intros HD. by_dim; eexists; (split; [reflexivity|]);
    (split; [reflexivity|]); (split; [reflexivity|]);
    intros [|[|[|i]]] Hi; try lia; reflexivity.
Qed.

Lemma ctor_then_get_witness :
  exists v, TypeVector_xyz 2 (1 # 2) 5 7 = Ok v /\ well_formed 2 v /\
            _coords v = firstn 2 (xyz (1 # 2) 5 7) /\
            forall i, i < 3 ->
              get 2 v i = Ok (if i <? 2 then nth i (xyz (1 # 2) 5 7) 0%Q else 0%Q).
Proof. apply (ctor_then_get 2 (1 # 2) 5 7). lia. Defined.

(** X2.  An assignment through the writable accessor at an index below
    [DIM] succeeds, is read back by the read-only accessor at that index,
    and leaves what the read-only accessor yields at every other index. *)
Theorem assign_at_then_get (DIM : nat) (v : TypeVector) (i : nat) (x : Q) :
  1 <= DIM <= 3 -> well_formed DIM v -> i < DIM ->
  exists v', assign_at DIM v i x = Ok v' /\ well_formed DIM v' /\
             get DIM v' i = Ok x /\
             forall j, j <> i -> get DIM v' j = get DIM v j.
Proof.
  intros HD Hv Hi. by_dim; destruct i as [|[|[|i]]]; try lia;
    eexists; (split; [reflexivity|]); (split; [reflexivity|]);
    (split; [reflexivity|]);
    intros [|[|[|j]]] Hj; try congruence; reflexivity.
Qed.

Lemma assign_at_then_get_witness :
  exists v', assign_at 3 (mkTypeVector [1; 2; 3]%Q) 1 9 = Ok v' /\
             well_formed 3 v' /\ get 3 v' 1 = Ok 9%Q /\
             forall j, j <> 1 -> get 3 v' j = get 3 (mkTypeVector [1; 2; 3]%Q) j.
Proof.
  apply (assign_at_then_get 3 (mkTypeVector [1; 2; 3]%Q) 1 9);
    [lia|reflexivity|lia].
Defined.

(** X3.  The copy constructor and [assign] both yield exactly the vector
    they are given. *)
Theorem copy_and_assign (DIM : nat) (this p : TypeVector) :
  1 <= DIM <= 3 -> well_formed DIM this -> well_formed DIM p ->
  TypeVector_copy DIM p = Ok p /\ assign DIM this p = Ok p.
Proof.
  intros HD Ht Hp. by_dim; split; reflexivity.
Qed.

Lemma copy_and_assign_witness :
  TypeVector_copy 2 (mkTypeVector [4; 5]%Q) = Ok (mkTypeVector [4; 5]%Q) /\
  assign 2 (mkTypeVector [0; 1]%Q) (mkTypeVector [4; 5]%Q)
  = Ok (mkTypeVector [4; 5]%Q).
Proof.
  apply (copy_and_assign 2 (mkTypeVector [0; 1]%Q) (mkTypeVector [4; 5]%Q));
    [lia|reflexivity|reflexivity].
Defined.

(** X4.  The three ways of adding ([operator +], [add], [operator +=])
    yield the coordinate-wise sum, and the three ways of subtracting
    ([operator -], [subtract], [operator -=]) the coordinate-wise
    difference, the unrolled forms and the loops alike. *)
Theorem additive_forms_agree (DIM : nat) (a p : TypeVector) :
  1 <= DIM <= 3 -> well_formed DIM a -> well_formed DIM p ->
  (op_plus DIM a p = Ok (pointwise Qplus a p) /\
   add DIM a p = Ok (pointwise Qplus a p) /\
   op_plus_assign DIM a p = Ok (pointwise Qplus a p) /\
   well_formed DIM (pointwise Qplus a p)) /\
  (op_minus DIM a p = Ok (pointwise Qminus a p) /\
   subtract DIM a p = Ok (pointwise Qminus a p) /\
   op_minus_assign DIM a p = Ok (pointwise Qminus a p) /\
   well_formed DIM (pointwise Qminus a p)).
Proof.
  intros HD Ha Hp. by_dim; repeat split; reflexivity.
Qed.

Lemma additive_forms_agree_witness :
  op_plus 3 (mkTypeVector [1; 2; 3]%Q) (mkTypeVector [10; 20; 30]%Q)
  = Ok (pointwise Qplus (mkTypeVector [1; 2; 3]%Q)
                  (mkTypeVector [10; 20; 30]%Q)) /\
  subtract 3 (mkTypeVector [1; 2; 3]%Q) (mkTypeVector [10; 20; 30]%Q)
  = Ok (pointwise Qminus (mkTypeVector [1; 2; 3]%Q)
                  (mkTypeVector [10; 20; 30]%Q)).
Proof.
  destruct (additive_forms_agree 3 (mkTypeVector [1; 2; 3]%Q)
              (mkTypeVector [10; 20; 30]%Q))
    as [(Hp & _) (_ & Hs & _)]; [lia|reflexivity|reflexivity|].
  split; [exact Hp|exact Hs].
Defined.

(** X5.  Subtracting what was added gives the vector back, coordinate by
    coordinate. *)
Theorem add_then_subtract (DIM : nat) (a b : TypeVector) :
  1 <= DIM <= 3 -> well_formed DIM a -> well_formed DIM b ->
  exists s d, op_plus DIM a b = Ok s /\ op_minus DIM s b = Ok d /\
              same_coords d a.
Proof.
  intros HD Ha Hb. by_dim; eexists _, _; (split; [reflexivity|]);
    (split; [reflexivity|]); coords_eq.
Qed.

Lemma add_then_subtract_witness :
  exists s d,
    op_plus 2 (mkTypeVector [1 # 3; 2]%Q) (mkTypeVector [5; 1 # 7]%Q) = Ok s /\
    op_minus 2 s (mkTypeVector [5; 1 # 7]%Q) = Ok d /\
    same_coords d (mkTypeVector [1 # 3; 2]%Q).
Proof.
  apply (add_then_subtract 2 (mkTypeVector [1 # 3; 2]%Q)
           (mkTypeVector [5; 1 # 7]%Q)); [lia|reflexivity|reflexivity].
Defined.

(** [add_scaled] and [subtract_scaled] coordinate by coordinate. *)
Lemma scaled_forms_pointwise (DIM : nat) (a p : TypeVector) (k : Q) :
  1 <= DIM <= 3 -> well_formed DIM a -> well_formed DIM p ->
  add_scaled DIM a p k = Ok (pointwise (fun x y => x + k * y)%Q a p) /\
  subtract_scaled DIM a p k = Ok (pointwise (fun x y => x - k * y)%Q a p).
Proof.
  intros HD Ha Hp. by_dim; split; reflexivity.
Qed.

(** X6.  [subtract_scaled] undoes [add_scaled] with the same vector and
    factor, and with factor 1 the two are [add] and [subtract]. *)
Theorem add_scaled_then_subtract_scaled (DIM : nat) (a p : TypeVector) (k : Q) :
  1 <= DIM <= 3 -> well_formed DIM a -> well_formed DIM p ->
  (exists s d, add_scaled DIM a p k = Ok s /\
               subtract_scaled DIM s p k = Ok d /\ same_coords d a) /\
  (exists s t u v, add_scaled DIM a p 1 = Ok s /\ add DIM a p = Ok t /\
                   same_coords s t /\
                   subtract_scaled DIM a p 1 = Ok u /\
                   subtract DIM a p = Ok v /\ same_coords u v).
Proof.
  intros HD Ha Hp. by_dim; split;
    try (eexists _, _; (split; [reflexivity|]); (split; [reflexivity|]);
         coords_eq);
    eexists _, _, _, _; (split; [reflexivity|]); (split; [reflexivity|]);
    (split; [coords_eq|]); (split; [reflexivity|]); (split; [reflexivity|]);
    coords_eq.
Qed.

Lemma add_scaled_then_subtract_scaled_witness :
  exists s d,
    add_scaled 3 (mkTypeVector [1; 2; 3]%Q) (mkTypeVector [1; 0; 1 # 2]%Q) (2 # 3)
    = Ok s /\
    subtract_scaled 3 s (mkTypeVector [1; 0; 1 # 2]%Q) (2 # 3) = Ok d /\
    same_coords d (mkTypeVector [1; 2; 3]%Q).
Proof.
  apply (add_scaled_then_subtract_scaled 3 (mkTypeVector [1; 2; 3]%Q)
           (mkTypeVector [1; 0; 1 # 2]%Q) (2 # 3)); [lia|reflexivity|reflexivity].
Defined.

(** X7.  The opposite of a vector is its additive inverse, and the
    opposite of the opposite is the vector. *)
Theorem negation_is_additive_inverse (DIM : nat) (a : TypeVector) :
  1 <= DIM <= 3 -> well_formed DIM a ->
  exists n s a', op_neg DIM a = Ok n /\ well_formed DIM n /\
                 op_plus DIM a n = Ok s /\ same_coords s (origin DIM) /\
                 op_neg DIM n = Ok a' /\ same_coords a' a.
Proof.
  intros HD Ha. by_dim; eexists _, _, _; (split; [reflexivity|]);
    (split; [reflexivity|]); (split; [reflexivity|]); (split; [coords_eq|]);
    (split; [reflexivity|]); coords_eq.
Qed.

Lemma negation_is_additive_inverse_witness :
  exists n s a',
    op_neg 2 (mkTypeVector [3; -1 # 2]%Q) = Ok n /\ well_formed 2 n /\
    op_plus 2 (mkTypeVector [3; -1 # 2]%Q) n = Ok s /\
    same_coords s (origin 2) /\
    op_neg 2 n = Ok a' /\ same_coords a' (mkTypeVector [3; -1 # 2]%Q).
Proof.
  apply (negation_is_additive_inverse 2 (mkTypeVector [3; -1 # 2]%Q));
    [lia|reflexivity].
Defined.

(** X8.  The three ways of scaling (vector times scalar, scalar times
    vector, [operator *=]) yield the same vector, every coordinate
    multiplied by the factor. *)
Theorem scaling_forms_agree (DIM : nat) (a : TypeVector) (k : Q) :
  1 <= DIM <= 3 -> well_formed DIM a ->
  op_mul_scalar DIM a k = Ok (coordwise (fun x => x * k)%Q a) /\
  scalar_mul DIM k a = Ok (coordwise (fun x => x * k)%Q a) /\
  op_mul_assign DIM a k = Ok (coordwise (fun x => x * k)%Q a) /\
  well_formed DIM (coordwise (fun x => x * k)%Q a).
Proof.
  intros HD Ha. by_dim; repeat split; reflexivity.
Qed.

Lemma scaling_forms_agree_witness :
  op_mul_scalar 3 (mkTypeVector [1; 2; 3]%Q) (1 # 2)
  = Ok (coordwise (fun x => x * (1 # 2))%Q (mkTypeVector [1; 2; 3]%Q)) /\
  op_mul_assign 3 (mkTypeVector [1; 2; 3]%Q) (1 # 2)
  = Ok (coordwise (fun x => x * (1 # 2))%Q (mkTypeVector [1; 2; 3]%Q)).
Proof.
  destruct (scaling_forms_agree 3 (mkTypeVector [1; 2; 3]%Q) (1 # 2))
    as (H1 & _ & H3 & _); [lia|reflexivity|].
  split; [exact H1|exact H3].
Defined.

(** X9.  Division by a factor, in both its forms, ends in a failed
    assertion exactly when the factor is zero; otherwise both forms divide
    every coordinate, and dividing by the factor a vector was scaled with
    gives the vector back. *)
Theorem division_inverts_scaling (DIM : nat) (a : TypeVector) (k : Q) :
  1 <= DIM <= 3 -> well_formed DIM a ->
  ((k == 0)%Q -> op_div DIM a k = Fail Assertion_failed /\
                 op_div_assign DIM a k = Fail Assertion_failed) /\
  (~ (k == 0)%Q ->
   op_div DIM a k = Ok (coordwise (fun x => x / k)%Q a) /\
   op_div_assign DIM a k = Ok (coordwise (fun x => x / k)%Q a) /\
   exists m d, op_mul_scalar DIM a k = Ok m /\ op_div DIM m k = Ok d /\
               same_coords d a).
Proof.
  intros HD Ha. unfold op_div, op_div_assign. split; intros Hk.
  - apply Qeq_bool_iff in Hk. rewrite Hk. split; reflexivity.
  - destruct (Qeq_bool k 0) eqn:E; [apply Qeq_bool_iff in E; contradiction|].
    by_dim; (split; [reflexivity|]); (split; [reflexivity|]);
      eexists _, _; (split; [reflexivity|]); (split; [reflexivity|]);
      unfold same_coords; simpl; repeat (constructor; try (field; assumption)).
Qed.

Lemma division_inverts_scaling_witness :
  op_div 2 (mkTypeVector [1; 2]%Q) 0 = Fail Assertion_failed /\
  op_div 2 (mkTypeVector [1; 2]%Q) (3 # 1)
  = Ok (coordwise (fun x => x / (3 # 1))%Q (mkTypeVector [1; 2]%Q)).
Proof.
  split.
  - apply (division_inverts_scaling 2 (mkTypeVector [1; 2]%Q) 0);
      [lia|reflexivity|reflexivity].
  - apply (division_inverts_scaling 2 (mkTypeVector [1; 2]%Q) (3 # 1));
      [lia|reflexivity|discriminate].
Defined.

(** X10.  The dot product is symmetric; and, the coordinates being read as
    exact numbers (not as rounded [double]s), it is additive in its left
    operand and compatible with scaling. *)
Theorem op_dot_symmetric_bilinear (DIM : nat) (a b c : TypeVector) (k : Q) :
  1 <= DIM <= 3 -> well_formed DIM a -> well_formed DIM b ->
  well_formed DIM c ->
  exists ab ba s sc ac bc m mc,
    op_dot DIM a b = Ok ab /\ op_dot DIM b a = Ok ba /\ (ab == ba)%Q /\
    op_plus DIM a b = Ok s /\ op_dot DIM s c = Ok sc /\
    op_dot DIM a c = Ok ac /\ op_dot DIM b c = Ok bc /\ (sc == ac + bc)%Q /\
    op_mul_scalar DIM a k = Ok m /\ op_dot DIM m c = Ok mc /\
    (mc == k * ac)%Q.
Proof.
  intros HD Ha Hb Hc. by_dim; eexists _, _, _, _, _, _, _, _;
    repeat (split; [first [reflexivity | simpl; ring]|]); simpl; ring.
Qed.

Lemma op_dot_symmetric_bilinear_witness :
  exists ab ba,
    op_dot 3 (mkTypeVector [1; 2; 3]%Q) (mkTypeVector [4; 5; 6]%Q) = Ok ab /\
    op_dot 3 (mkTypeVector [4; 5; 6]%Q) (mkTypeVector [1; 2; 3]%Q) = Ok ba /\
    (ab == ba)%Q.
Proof.
  destruct (op_dot_symmetric_bilinear 3 (mkTypeVector [1; 2; 3]%Q)
              (mkTypeVector [4; 5; 6]%Q) (mkTypeVector [0; 0; 1]%Q) 2)
    as (ab & ba & _ & _ & _ & _ & _ & _ & H1 & H2 & H3 & _);
    [lia|reflexivity|reflexivity|reflexivity|].
  exists ab, ba. split; [exact H1|]. split; [exact H2|exact H3].
Defined.

(** X11.  The coordinates being read as exact numbers (a [double] square
    can underflow to 0), the squared size is never negative, and it is
    zero exactly for the vector whose coordinates are all zero. *)
Theorem size_sq_definite (DIM : nat) (a : TypeVector) :
  1 <= DIM <= 3 -> well_formed DIM a ->
  exists q, size_sq DIM a = Ok q /\ (0 <= q)%Q /\
            ((q == 0)%Q <-> same_coords a (origin DIM)).
Proof.
  intros HD Ha. by_dim; eexists; (split; [reflexivity|]);
    unfold same_coords; simpl.
  - split; [Lqa.nra|]. split.
    + intros H. repeat constructor. Lqa.nra.
    + intros H. inversion H; subst. Lqa.nra.
  - split; [Lqa.nra|]. split.
    + intros H. repeat constructor; Lqa.nra.
    + intros H. inversion H as [|? ? ? ? ? H2]; subst.
      inversion H2; subst. Lqa.nra.
  - split; [Lqa.nra|]. split.
    + intros H. repeat constructor; Lqa.nra.
    + intros H. inversion H as [|? ? ? ? ? H2]; subst.
      inversion H2 as [|? ? ? ? ? H3]; subst. inversion H3; subst. Lqa.nra.
Qed.

Lemma size_sq_definite_witness :
  exists q, size_sq 2 (mkTypeVector [3; 4]%Q) = Ok q /\ (0 <= q)%Q /\
            ((q == 0)%Q <-> same_coords (mkTypeVector [3; 4]%Q) (origin 2)).
Proof.
  apply (size_sq_definite 2 (mkTypeVector [3; 4]%Q)); [lia|reflexivity].
Defined.

(** X12.  [zero()] turns any vector into the origin: every coordinate reads
    0, the squared size is 0, and it is what subtracting the vector from
    itself gives. *)
Theorem zero_is_origin (DIM : nat) (a : TypeVector) :
  1 <= DIM <= 3 -> well_formed DIM a ->
  zero DIM a = Ok (origin DIM) /\ size_sq DIM (origin DIM) = Ok 0%Q /\
  (forall i, i < 3 -> get DIM (origin DIM) i = Ok 0%Q) /\
  exists d, op_minus DIM a a = Ok d /\ same_coords d (origin DIM).
Proof.
  intros HD Ha. by_dim; (split; [reflexivity|]); (split; [reflexivity|]);
    (split; [intros [|[|[|i]]] Hi; try lia; reflexivity|]);
    eexists; (split; [reflexivity|]); coords_eq.
Qed.

Lemma zero_is_origin_witness :
  zero 3 (mkTypeVector [1; 2; 3]%Q) = Ok (origin 3).
Proof.
  apply (zero_is_origin 3 (mkTypeVector [1; 2; 3]%Q)); [lia|reflexivity].
Defined.

Lemma Qltb_ext (x y x' y' : Q) :
  (x == x')%Q -> (y == y')%Q -> Qltb x y = Qltb x' y'.
Proof.
  intros Hx Hy. apply eq_true_iff_eq. rewrite !Qltb_iff, Hx, Hy. reflexivity.
Qed.

Ltac flip_abs :=
  match goal with
  | |- Ok (Qltb (Qabs (?x - ?y) + Qabs (?z - ?w) + Qabs (?u - ?v)) _) = _ =>
      rewrite (Qabs_Qminus x y), (Qabs_Qminus z w), (Qabs_Qminus u v)
  | |- Ok (Qltb (Qabs (?x - ?y) + Qabs (?z - ?w)) _) = _ =>
      rewrite (Qabs_Qminus x y), (Qabs_Qminus z w)
  | |- Ok (Qltb (Qabs (?x - ?y)) _) = _ =>
      rewrite (Qabs_Qminus x y)
  end.

Lemma Qltb_of_zero (s th T : Q) :
  (s == 0)%Q -> ((0 < th)%Q <-> (0 < T)%Q) ->
  (@Ok bool (Qltb s th) = Ok true <-> (0 < T)%Q) /\
  (@Ok bool (Qltb s th) = Ok false <-> (T <= 0)%Q).
Proof.
  intros Hs Hth. rewrite (Qltb_ext s th 0%Q th Hs (Qeq_refl _)).
  destruct (Qltb 0 th) eqn:E.
  - apply Qltb_iff in E. apply Hth in E.
    split; split; auto; try discriminate. intros H. exfalso. Lqa.lra.
  - assert (H : ~ (0 < T)%Q).
    { intros H. apply Hth in H. apply Qltb_iff in H. congruence. }
    split; split; auto; try discriminate; try contradiction.
    intros _. Lqa.lra.
Qed.

(** X13.  Equality is symmetric; a vector equals itself exactly when
    [TOLERANCE] is positive, and with a tolerance of zero or less no vector
    equals itself. *)
Theorem op_eq_symmetric_reflexive (DIM : nat) (TOLERANCE : Q)
    (a b : TypeVector) :
  1 <= DIM <= 3 -> well_formed DIM a -> well_formed DIM b ->
  op_eq DIM TOLERANCE a b = op_eq DIM TOLERANCE b a /\
  (op_eq DIM TOLERANCE a a = Ok true <-> (0 < TOLERANCE)%Q) /\
  (op_eq DIM TOLERANCE a a = Ok false <-> (TOLERANCE <= 0)%Q).
Proof.
  intros HD Ha Hb.
  assert (Hz : forall x, (Qabs (x - x) == 0)%Q).
  { intros x. setoid_replace (x - x)%Q with 0%Q by ring. reflexivity. }
  by_dim; unfold op_eq; cbn [rd bind nth_error _coords];
    (split; [flip_abs; reflexivity|]); apply Qltb_of_zero;
    try (rewrite !Hz; ring); try reflexivity; split; intros H; Lqa.lra.
Qed.

Lemma op_eq_symmetric_reflexive_witness :
  op_eq 2 0 (mkTypeVector [1; 2]%Q) (mkTypeVector [1; 2]%Q) = Ok false.
Proof.
  apply (op_eq_symmetric_reflexive 2 0 (mkTypeVector [1; 2]%Q)
           (mkTypeVector [1; 2]%Q)); [lia|reflexivity|reflexivity|].
  discriminate.
Defined.

Lemma Qltb_abs_diff_true (x y s th : Q) :
  (x <= y)%Q -> (s == 0)%Q -> (y - x < th)%Q ->
  Qltb (Qabs (x - y) + s) th = true.
Proof.
  intros Hxy Hs Hlt. apply Qltb_iff.
  rewrite Qabs_Qminus, (Qabs_pos (y - x)), Hs by Lqa.lra. Lqa.lra.
Qed.

Lemma Qltb_abs_diff_false (x y s th : Q) :
  (x <= y)%Q -> (s == 0)%Q -> (th <= y - x)%Q ->
  Qltb (Qabs (x - y) + s) th = false.
Proof.
  intros Hxy Hs Hle. destruct (Qltb (Qabs (x - y) + s) th) eqn:E; auto.
  apply Qltb_iff in E.
  rewrite Qabs_Qminus, (Qabs_pos (y - x)), Hs in E by Lqa.lra. Lqa.lra.
Qed.

(** X14.  Equality is not transitive, whatever the positive tolerance: in
    every dimension there are three vectors of which the first equals the
    second and the second the third, while the first differs from the
    third. *)
Theorem op_eq_not_transitive (DIM : nat) (TOLERANCE : Q) :
  1 <= DIM <= 3 -> (0 < TOLERANCE)%Q ->
  exists a b c, well_formed DIM a /\ well_formed DIM b /\ well_formed DIM c /\
    op_eq DIM TOLERANCE a b = Ok true /\ op_eq DIM TOLERANCE b c = Ok true /\
    op_eq DIM TOLERANCE a c = Ok false.
Proof.
  intros HD HT.
  set (d := (inject_Z (Z.of_nat DIM) * TOLERANCE)%Q).
  exists (mkTypeVector (firstn DIM [0; 0; 0]%Q)),
         (mkTypeVector (firstn DIM [(2 # 3) * d; 0; 0]%Q)),
         (mkTypeVector (firstn DIM [(4 # 3) * d; 0; 0]%Q)).
  assert (D1 : DIM = 1 \/ DIM = 2 \/ DIM = 3) by lia.
  destruct D1 as [E|[E|E]]; subst DIM; unfold d; clear d;
    cbn [firstn well_formed length _coords]; repeat (split; [reflexivity|]);
    unfold op_eq; cbn [rd bind nth_error _coords Z.of_nat Pos.of_succ_nat Pos.succ].
  - rewrite <- !(Qltb_ext (Qabs _ + 0) TOLERANCE _ TOLERANCE
                          (Qplus_0_r _) (Qeq_refl _)).
    repeat split; f_equal;
      [apply Qltb_abs_diff_true | apply Qltb_abs_diff_true
       | apply Qltb_abs_diff_false]; try reflexivity;
      unfold inject_Z; Lqa.lra.
  - repeat split; f_equal;
      [apply Qltb_abs_diff_true | apply Qltb_abs_diff_true
       | apply Qltb_abs_diff_false]; try reflexivity;
      unfold inject_Z; Lqa.lra.
  - rewrite <- !(Qltb_ext (Qabs _ + (Qabs (0 - 0) + Qabs (0 - 0))) (3 * TOLERANCE)
                          _ (3 * TOLERANCE)
                          (Qplus_assoc _ _ _) (Qeq_refl _)).
    repeat split; f_equal;
      [apply Qltb_abs_diff_true | apply Qltb_abs_diff_true
       | apply Qltb_abs_diff_false]; try reflexivity;
      unfold inject_Z; Lqa.lra.
Qed.

Lemma op_eq_not_transitive_witness :
  exists a b c,
    well_formed 3 a /\ well_formed 3 b /\ well_formed 3 c /\
    op_eq 3 (1 # 1000000) a b = Ok true /\
    op_eq 3 (1 # 1000000) b c = Ok true /\
    op_eq 3 (1 # 1000000) a c = Ok false.
Proof.
  apply (op_eq_not_transitive 3 (1 # 1000000)); [lia|reflexivity].
Defined.

(** X15.  Equality does not see a common translation: two vectors compare
    as their translates by a third one do. *)
Theorem op_eq_translation_invariant (DIM : nat) (TOLERANCE : Q)
    (a b c : TypeVector) :
  1 <= DIM <= 3 -> well_formed DIM a -> well_formed DIM b ->
  well_formed DIM c ->
  exists a' b' e, op_plus DIM a c = Ok a' /\ op_plus DIM b c = Ok b' /\
                  op_eq DIM TOLERANCE a' b' = Ok e /\
                  op_eq DIM TOLERANCE a b = Ok e.
Proof.
  intros HD Ha Hb Hc.
  assert (Hs : forall x y z, (Qabs (x + z - (y + z)) == Qabs (x - y))%Q).
  { intros x y z. setoid_replace (x + z - (y + z))%Q with (x - y)%Q by ring.
    reflexivity. }
  by_dim; eexists _, _, _; (split; [reflexivity|]); (split; [reflexivity|]);
    (split; [reflexivity|]);
    unfold op_eq; cbn [rd bind nth_error _coords]; f_equal; apply Qltb_ext;
    rewrite ?Hs; reflexivity.
Qed.

Lemma op_eq_translation_invariant_witness :
  exists a' b' e,
    op_plus 2 (mkTypeVector [1; 2]%Q) (mkTypeVector [10; 10]%Q) = Ok a' /\
    op_plus 2 (mkTypeVector [1; 3]%Q) (mkTypeVector [10; 10]%Q) = Ok b' /\
    op_eq 2 (1 # 10) a' b' = Ok e /\
    op_eq 2 (1 # 10) (mkTypeVector [1; 2]%Q) (mkTypeVector [1; 3]%Q) = Ok e.
Proof.
  apply (op_eq_translation_invariant 2 (1 # 10) (mkTypeVector [1; 2]%Q)
           (mkTypeVector [1; 3]%Q) (mkTypeVector [10; 10]%Q));
    [lia|reflexivity|reflexivity|reflexivity].
Defined.

End TypeVecArith.

(* ================================================================== *)
(** ** The callbacks and the solve orchestrator *)

Module PetscFacts.
Import Petsc PetscSpec.

Section Callbacks.

Variable localize : PetscVector -> PetscVector -> PetscVector.
Variable enforce_on : NonlinearImplicitSystem -> PetscVector -> PetscVector.

Local Abbreviation residual_cb := (__libmesh_petsc_snes_residual localize enforce_on).
Local Abbreviation jacobian_cb := (__libmesh_petsc_snes_jacobian localize enforce_on).
Local Abbreviation postcheck_cb := (__libmesh_petsc_snes_postcheck enforce_on).

Ltac case_forms s :=
  destruct s as [[res reso jac0 jaco mv rj pc0 pco ? ? ? ? ? ? ? ? ? ? ? ? ? ? ? ? ? ?]
                   ? ? ? ? ? ? ? ?];
  simpl in *.

(** C1 (as amended).  The residual callback ends in a configuration error
    when the plain function and the object are both registered, or the
    combined function and the combined object are; otherwise it hands
    control to exactly one form, the first registered one in the order
    plain function, polymorphic object, combined function, combined
    object, and ends in a configuration error when none is registered. *)
Theorem residual_dispatch_precedence (snes : SNES) (x r : Vec)
    (s : PetscNonlinearSolver) :
  if both_registered Residual_role s then
    residual_cb snes x r s = Fail (Error_msg residual_both_msg)
  else if both_registered Residual_and_jacobian_role s then
    residual_cb snes x r s = Fail (Error_msg combined_both_msg)
  else
    match first_residual_form s with
    | Some form =>
        exists ret, residual_cb snes x r s = Ok ret /\ res_invoked ret = [form]
    | None =>
        residual_cb snes x r s = Fail (Error_msg no_form_msg)
    end.
Proof.
  case_forms s.
  unfold __libmesh_petsc_snes_residual, first_residual_form; simpl.
  destruct res as [f|], reso as [o|], mv as [m|], rj as [oj|]; simpl;
    try reflexivity;
    try match goal with
        | |- context [match ?e with (_, _) => _ end] => destruct e as [[? ?] ?]
        end;
    eexists; split; reflexivity.
Qed.

(** X17.  What the residual callback hands back is what the one form it
    invoked made of the output buffer (zeroed first when
    [_zero_out_residual] is set) and of the system with its refreshed,
    constrained local replica; the buffer is closed and the trial vector is
    untouched. *)
Lemma residual_result_is_the_forms (snes : SNES) (x r : Vec)
    (s : PetscNonlinearSolver) ret :
  residual_cb snes x r s = Ok ret ->
  let sys := enforce_constraints_exactly_local enforce_on
               (snd (update_through_swap localize (PetscVector_of_Vec x)
                                         (system s))) in
  let R := if _zero_out_residual s
           then zero (PetscVector_of_Vec r) else PetscVector_of_Vec r in
  exists form R' sys',
    res_invoked ret = [form] /\
    residual_form_effect form s (current_local_solution sys) R sys
    = Some (R', sys') /\
    res_r ret = _vec R' /\ system (res_solver ret) = sys' /\
    res_x ret = x /\ res_ierr ret = 0%Z.
Proof.
  case_forms s.
  unfold __libmesh_petsc_snes_residual, residual_form_effect; simpl.
  destruct res as [f|], reso as [o|], mv as [m|], rj as [oj|]; simpl;
    try discriminate;
    try match goal with
        | |- context [match ?e with (_, _) => _ end] =>
            destruct e as [[? ?] ?] eqn:?
        end;
    simpl; intros H; injection H as <-; simpl;
    eexists _, _, _; repeat split; simpl; eauto.
Qed.

(** X16.  The Jacobian callback dispatches the same way over the Jacobian
    forms: a configuration error when the plain function and the object,
    or the combined function and the combined object, are both registered;
    otherwise the first registered form in the order plain function,
    object, combined function, combined object; a configuration error
    when there is none. *)
Lemma jacobian_dispatch_precedence (snes : SNES) (x : Vec)
    (jac pc : PetscMatrix) (s : PetscNonlinearSolver) :
  if both_registered Jacobian_role s then
    jacobian_cb snes x jac pc s = Fail (Error_msg jacobian_both_msg)
  else if both_registered Residual_and_jacobian_role s then
    jacobian_cb snes x jac pc s = Fail (Error_msg combined_both_msg)
  else
    match first_jacobian_form s with
    | Some form =>
        exists ret, jacobian_cb snes x jac pc s = Ok ret /\ jac_invoked ret = [form]
    | None =>
        jacobian_cb snes x jac pc s = Fail (Error_msg no_form_msg)
    end.
Proof.
  case_forms s.
  unfold __libmesh_petsc_snes_jacobian, first_jacobian_form; simpl.
  destruct jac0 as [f|], jaco as [o|], mv as [m|], rj as [oj|]; simpl;
    try reflexivity;
    try match goal with
        | |- context [match ?e with (_, _) => _ end] => destruct e as [[? ?] ?]
        end;
    eexists; split; reflexivity.
Qed.

(** The callbacks' side of double registration: a context in which both
    forms of a role are set makes every invocation of the role's callback
    end in a configuration error. *)
Lemma residual_both_registered snes x r s :
  both_registered Residual_role s = true ->
  residual_cb snes x r s = Fail (Error_msg residual_both_msg).
Proof.
  unfold both_registered, __libmesh_petsc_snes_residual.
  intros H. simpl.
  destruct (update_through_swap localize (PetscVector_of_Vec x) (system s)).
  now rewrite H.
Qed.

Lemma residual_both_combined snes x r s :
  both_registered Residual_and_jacobian_role s = true ->
  configuration_error (residual_cb snes x r s).
Proof.
  unfold both_registered, __libmesh_petsc_snes_residual.
  intros H. simpl.
  destruct (update_through_swap localize (PetscVector_of_Vec x) (system s)).
  rewrite H.
  destruct (is_set (residual s) && is_set (residual_object s));
    eexists; reflexivity.
Qed.

Lemma jacobian_both_registered snes x jac pc s :
  both_registered Jacobian_role s = true ->
  jacobian_cb snes x jac pc s = Fail (Error_msg jacobian_both_msg).
Proof.
  unfold both_registered, __libmesh_petsc_snes_jacobian.
  intros H. simpl.
  destruct (update_through_swap localize (PetscVector_of_Vec x) (system s)).
  now rewrite H.
Qed.

Lemma jacobian_both_combined snes x jac pc s :
  both_registered Residual_and_jacobian_role s = true ->
  configuration_error (jacobian_cb snes x jac pc s).
Proof.
  unfold both_registered, __libmesh_petsc_snes_jacobian.
  intros H. simpl.
  destruct (update_through_swap localize (PetscVector_of_Vec x) (system s)).
  rewrite H.
  destruct (is_set (jacobian s) && is_set (jacobian_object s));
    eexists; reflexivity.
Qed.

Lemma postcheck_both_registered x y w s :
  both_registered Postcheck_role s = true ->
  postcheck_cb x y w s = Fail (Error_msg postcheck_both_msg).
Proof.
  unfold both_registered, __libmesh_petsc_snes_postcheck.
  intros H. now rewrite H.
Qed.

(** The post-check callback returns unless both post-check forms are
    registered. *)
Lemma postcheck_returns (x y w : Vec) (s : PetscNonlinearSolver) :
  both_registered Postcheck_role s = false ->
  exists ret, postcheck_cb x y w s = Ok ret.
Proof.
  unfold both_registered, __libmesh_petsc_snes_postcheck.
  intros ->.
  destruct (negb (0 <? n_constrained_dofs (get_dof_map (system s))) &&
            negb (is_set (postcheck s)) && negb (is_set (postcheck_object s)));
    [eexists; reflexivity|].
  destruct (is_set (postcheck s) || is_set (postcheck_object s));
    [destruct (postcheck s); [|destruct (postcheck_object s)]|];
    cbv zeta; cbv beta iota;
    match goal with
    | |- context [if (0 <? ?n) then _ else _] => destruct (0 <? n)
    end; eexists; reflexivity.
Qed.

(** On return, a system with constrained degrees of freedom means a set
    flag. *)
Lemma postcheck_flag_on_return (x y w : Vec) (s : PetscNonlinearSolver) ret :
  postcheck_cb x y w s = Ok ret ->
  0 < n_constrained_dofs (get_dof_map (system (post_solver ret))) ->
  changed_w ret = true.
Proof.
  unfold __libmesh_petsc_snes_postcheck.
  destruct (is_set (postcheck s) && is_set (postcheck_object s));
    [discriminate|].
  destruct (negb (0 <? n_constrained_dofs (get_dof_map (system s))) &&
            negb (is_set (postcheck s)) && negb (is_set (postcheck_object s))) eqn:E.
  - intros H; injection H as <-. simpl.
    apply andb_prop in E as [E _]. apply andb_prop in E as [E _].
    apply negb_true_iff, Nat.ltb_ge in E. lia.
  - destruct (is_set (postcheck s) || is_set (postcheck_object s));
      [destruct (postcheck s); [|destruct (postcheck_object s)]|];
      cbv zeta; cbv beta iota;
      match goal with
      | |- context [if (0 <? ?n) then _ else _] => destruct (0 <? n) eqn:En
      end; intros H; injection H as <-; simpl; try reflexivity;
      intros Hn; apply Nat.ltb_ge in En; simpl in En; lia.
Qed.

(** The degree-of-freedom map on return is the one of the entry, as far as
    the callback's own code goes. *)
Lemma postcheck_dof_map (x y w : Vec) (s : PetscNonlinearSolver) ret :
  postcheck_forms_keep_dof_map s ->
  postcheck_cb x y w s = Ok ret ->
  get_dof_map (system (post_solver ret)) = get_dof_map (system s).
Proof.
  intros [Hf Ho]. unfold __libmesh_petsc_snes_postcheck.
  destruct (is_set (postcheck s) && is_set (postcheck_object s));
    [discriminate|].
  destruct (negb (0 <? n_constrained_dofs (get_dof_map (system s))) &&
            negb (is_set (postcheck s)) && negb (is_set (postcheck_object s))).
  - intros H; injection H as <-. reflexivity.
  - destruct (is_set (postcheck s) || is_set (postcheck_object s));
      [destruct (postcheck s) as [f|] eqn:Ef;
         [|destruct (postcheck_object s) as [o|] eqn:Eo]|];
      cbv zeta; cbv beta iota;
      match goal with
      | |- context [if (0 <? ?n) then _ else _] => destruct (0 <? n)
      end; intros H; injection H as <-; simpl;
      try reflexivity;
      try (apply (Hf f eq_refl)); try (apply (Ho o eq_refl)).
Qed.

(** C3 (as amended).  Whenever the post-check callback returns, and it
    does unless both post-check forms are registered, the "new point
    changed" flag is true if the system has at least one constrained degree
    of freedom when the callback tests it, that is after the user
    post-check, if any, has run on the system, whichever form is registered
    and whatever flags it reports.  A constrained degree of freedom on
    entry is enough as soon as the user post-check leaves the
    degree-of-freedom map alone. *)
Theorem postcheck_constraints_force_changed_w (x y w : Vec)
    (s : PetscNonlinearSolver) :
  (both_registered Postcheck_role s = false ->
   exists ret, postcheck_cb x y w s = Ok ret) /\
  (forall ret,
      postcheck_cb x y w s = Ok ret ->
      (0 < n_constrained_dofs (get_dof_map (system (post_solver ret))) ->
       changed_w ret = true) /\
      (0 < n_constrained_dofs (get_dof_map (system s)) ->
       postcheck_forms_keep_dof_map s ->
       changed_w ret = true)).
Proof.
  split; [apply postcheck_returns|].
  intros ret E. split.
  - now apply postcheck_flag_on_return with (1 := E).
  - intros Hn Hk. apply postcheck_flag_on_return with (1 := E).
    now rewrite (postcheck_dof_map x y w s ret Hk E).
Qed.

(** With constrained degrees of freedom on entry and no user post-check,
    the callback returns with the flag set. *)
Lemma postcheck_constraints_no_user_form (x y w : Vec) (s : PetscNonlinearSolver) :
  0 < n_constrained_dofs (get_dof_map (system s)) ->
  postcheck s = None -> postcheck_object s = None ->
  exists ret, postcheck_cb x y w s = Ok ret /\ changed_w ret = true
              /\ changed_y ret = false.
Proof.
  intros Hn Hf Ho. unfold __libmesh_petsc_snes_postcheck.
  rewrite Hf, Ho. simpl.
  apply Nat.ltb_lt in Hn. rewrite Hn. simpl.
  eexists; split; [reflexivity|]. simpl. auto.
Qed.

(** C4.  With no constrained degree of freedom and neither post-check form
    registered, the post-check callback returns success at once: both
    change flags are false, the three buffers and the context (with its
    system) are as they were, and no user form has run. *)
Theorem postcheck_nothing_to_do (x y w : Vec) (s : PetscNonlinearSolver) :
  n_constrained_dofs (get_dof_map (system s)) = 0 ->
  postcheck s = None -> postcheck_object s = None ->
  postcheck_cb x y w s =
    Ok {| post_ierr := 0%Z; post_x := x; post_y := y; post_w := w;
          changed_y := false; changed_w := false;
          post_solver := s; post_invoked := [] |}.
Proof.
  intros Hn Hf Ho. unfold __libmesh_petsc_snes_postcheck.
  rewrite Hf, Ho, Hn. reflexivity.
Qed.

(** C5.  [swap] undoes itself, and the window
    [X_global.swap(X_sys); sys.update(); X_global.swap(X_sys);] of the
    residual and Jacobian callbacks leaves the trial buffer and the
    canonical solution as they were before the first swap: only the local
    replica changes, to the localization of the trial values. *)
Theorem swap_into_solution_and_back (X_global X_sys : PetscVector)
    (sys : NonlinearImplicitSystem) :
  (let '(a, b) := swap X_global X_sys in swap a b) = (X_global, X_sys) /\
  (let '(X', sys') := update_through_swap localize X_global sys in
   X' = X_global /\
   solution sys' = solution sys /\
   current_local_solution sys' =
     localize X_global (current_local_solution sys) /\
   get_dof_map sys' = get_dof_map sys).
Proof.
  split; [reflexivity|]. unfold update_through_swap. simpl. auto.
Qed.

(** The same window seen from the engine: whatever form runs, the residual
    callback hands the trial buffer back as it received it. *)
Lemma residual_leaves_trial_buffer snes x r s ret :
  residual_cb snes x r s = Ok ret -> res_x ret = x.
Proof.
  unfold __libmesh_petsc_snes_residual. simpl.
  destruct (is_set (residual s) && is_set (residual_object s)); [discriminate|].
  destruct (is_set (matvec s) && is_set (residual_and_jacobian_object s));
    [discriminate|].
  destruct (residual s), (residual_object s), (matvec s),
           (residual_and_jacobian_object s); simpl;
    try discriminate;
    try match goal with
        | |- context [match ?e with (_, _) => _ end] => destruct e as [[? ?] ?]
        end;
    simpl; intros H; injection H as <-; reflexivity.
Qed.

End Callbacks.

Section Orchestrator.

Variable localize : PetscVector -> PetscVector -> PetscVector.
Variable enforce_on : NonlinearImplicitSystem -> PetscVector -> PetscVector.
Variable PETSC_VERSION : nat * nat * nat.
Variable SNESSolve :
  SNES -> PetscNonlinearSolver -> PetscMatrix -> PetscVector -> PetscVector ->
  Outcome EngineRun.

Local Abbreviation residual_cb := (__libmesh_petsc_snes_residual localize enforce_on).
Local Abbreviation jacobian_cb := (__libmesh_petsc_snes_jacobian localize enforce_on).
Local Abbreviation postcheck_cb := (__libmesh_petsc_snes_postcheck enforce_on).

Lemma on_snes_ready f s :
  ready s -> exists s', on_snes f s = Ok s' /\ ready s' /\ settings s' = settings s
   /\ _is_initialized s' = _is_initialized s /\ _preconditioner s' = _preconditioner s.
Proof.
  intros [snes H]. unfold on_snes. rewrite H.
  eexists; split; [reflexivity|]. split; [eexists; reflexivity|]. auto.
Qed.

Lemma init_ok name s :
  handle_consistent s ->
  exists s', init PETSC_VERSION name s = Ok s' /\ ready s' /\ settings s' = settings s
             /\ _is_initialized s' = true.
Proof.
  intros Hc. unfold init, handle_consistent in *.
  destruct (_is_initialized s) eqn:Ei; simpl.
  - destruct (_snes s) as [snes|] eqn:Es; [|exfalso; now apply Hc].
    destruct (is_set (postcheck s) || is_set (postcheck_object s)).
    + eexists; split; [reflexivity|]. split; [eexists; reflexivity|]. simpl. auto.
    + eexists; split; [reflexivity|]. split; [eexists; eassumption|]. auto.
  - destruct (_preconditioner s) as [p|]; simpl;
    destruct (is_set (postcheck s) || is_set (postcheck_object s));
    (eexists; split; [reflexivity|]; split; [eexists; reflexivity|]; simpl; auto).
Qed.

Lemma build_mat_null_space_ok obj fn s :
  is_set fn || is_set obj = true ->
  exists msp s', build_mat_null_space obj fn s = Ok (msp, s') /\
     settings s' = settings s /\ _snes s' = _snes s /\
     _is_initialized s' = _is_initialized s.
Proof.
  intros H. unfold build_mat_null_space.
  destruct obj as [o|]; [|destruct fn as [f|]; [|discriminate]]; simpl.
  - destruct (o (system s)) as [sp sys']. eexists _, _; split; [reflexivity|]. auto.
  - destruct (f (system s)) as [sp sys']. eexists _, _; split; [reflexivity|]. auto.
Qed.

Lemma attach_subspace_ok obj fn MatSet jac s :
  is_set fn || is_set obj = true ->
  exists jac' s', attach_subspace obj fn MatSet jac s = Ok (jac', s') /\
     settings s' = settings s /\ _snes s' = _snes s /\
     _is_initialized s' = _is_initialized s.
Proof.
  intros H. unfold attach_subspace.
  destruct (build_mat_null_space_ok obj fn s H) as (msp & s' & -> & Hs).
  simpl. destruct msp; eexists _, _; (split; [reflexivity|exact Hs]).
Qed.


Lemma keeps_refl s : ready s -> keeps s s.
Proof. intros H; repeat split; auto. Qed.

Lemma keeps_trans s1 s2 s3 : keeps s1 s2 -> keeps s2 s3 -> keeps s1 s3.
Proof.
  intros (? & ? & ?) (? & ? & ?). repeat split; auto; congruence.
Qed.

Lemma on_snes_keeps f s :
  ready s -> exists s', on_snes f s = Ok s' /\ keeps s s'.
Proof.
  intros [snes H]. unfold on_snes. rewrite H.
  eexists; split; [reflexivity|]. repeat split; auto. eexists; reflexivity.
Qed.

Lemma on_snes_if_keeps (c : bool) f s :
  ready s -> exists s', (if c then on_snes f s else Ok s) = Ok s' /\ keeps s s'.
Proof.
  intros H. destruct c.
  - now apply on_snes_keeps.
  - eexists; split; [reflexivity|]. now apply keeps_refl.
Qed.

Lemma attach_subspace_keeps obj fn MatSet jac s :
  ready s -> is_set fn || is_set obj = true ->
  exists jac' s', attach_subspace obj fn MatSet jac s = Ok (jac', s') /\ keeps s s'.
Proof.
  intros Hr H.
  destruct (attach_subspace_ok obj fn MatSet jac s H) as (jac' & s' & E & Hs & Hn & Hi).
  exists jac', s'. split; [exact E|]. repeat split; auto.
  destruct Hr as [snes Hr]. exists snes. congruence.
Qed.

Lemma solve_setup_ok jac x r s :
  handle_consistent s ->
  exists st, solve_setup PETSC_VERSION jac x r s = Ok st /\
             _snes (setup_solver st) = Some (setup_snes st) /\
             settings (setup_solver st) = settings s /\
             _is_initialized (setup_solver st) = true.
Proof.
  intros Hc. unfold solve_setup.
  destruct (init_ok None s Hc) as (s1 & -> & Hr1 & Hs1 & Hi1). simpl.
  destruct (on_snes_keeps
              (snes_call (SNESSetFunction (_vec r) __libmesh_petsc_snes_residual_cb))
              s1 Hr1)
    as (s2 & -> & K2). simpl.
  assert (K12 : keeps s1 s2) by exact K2.
  destruct (on_snes_if_keeps
              (is_set (jacobian s2) || is_set (jacobian_object s2)
               || is_set (residual_and_jacobian_object s2))
              (snes_call (SNESSetJacobian __libmesh_petsc_snes_jacobian_cb))
              s2 (proj1 K2)) as (s3 & -> & K3). simpl.
  pose proof (keeps_trans _ _ _ K12 K3) as K13.
  assert (Hsub : exists jac' s4,
    (if negb (PETSC_VERSION_LESS_THAN PETSC_VERSION 3 3 0)
      then
       st <-
       (if is_set (nullspace s3) || is_set (nullspace_object s3)
        then attach_subspace (nullspace_object s3) (nullspace s3) MatSetNullSpace jac s3
        else Ok (jac, s3));;
       (let
        '(jac0, this) := st in
         st0 <-
         (if is_set (transpose_nullspace this) || is_set (transpose_nullspace_object this)
          then
           if PETSC_VERSION_LESS_THAN PETSC_VERSION 3 6 0
           then Ok (jac0, this)
           else
            attach_subspace (transpose_nullspace_object this) (transpose_nullspace this)
              MatSetTransposeNullSpace jac0 this
          else Ok (jac0, this));;
         (let
          '(jac1, this0) := st0 in
           if is_set (nearnullspace this0) || is_set (nearnullspace_object this0)
           then
            attach_subspace (nearnullspace_object this0) (nearnullspace this0)
              MatSetNearNullSpace jac1 this0
           else Ok (jac1, this0)))
      else Ok (jac, s3)) = Ok (jac', s4) /\ keeps s3 s4).
  { destruct (negb (PETSC_VERSION_LESS_THAN PETSC_VERSION 3 3 0));
      [|eexists _, _; split; [reflexivity|apply keeps_refl, K3]].
    assert (A1 : exists j1 t1,
      (if is_set (nullspace s3) || is_set (nullspace_object s3)
        then attach_subspace (nullspace_object s3) (nullspace s3) MatSetNullSpace jac s3
        else Ok (jac, s3)) = Ok (j1, t1) /\ keeps s3 t1).
    { destruct (is_set (nullspace s3) || is_set (nullspace_object s3)) eqn:E.
      - apply attach_subspace_keeps; [apply K3|exact E].
      - eexists _, _; split; [reflexivity|apply keeps_refl, K3]. }
    destruct A1 as (j1 & t1 & -> & Kt1). simpl.
    assert (A2 : exists j2 t2,
      (if is_set (transpose_nullspace t1) || is_set (transpose_nullspace_object t1)
          then
           if PETSC_VERSION_LESS_THAN PETSC_VERSION 3 6 0
           then Ok (j1, t1)
           else
            attach_subspace (transpose_nullspace_object t1) (transpose_nullspace t1)
              MatSetTransposeNullSpace j1 t1
          else Ok (j1, t1)) = Ok (j2, t2) /\ keeps t1 t2).
    { destruct (is_set (transpose_nullspace t1) || is_set (transpose_nullspace_object t1)) eqn:E;
        [destruct (PETSC_VERSION_LESS_THAN PETSC_VERSION 3 6 0)|].
      - eexists _, _; split; [reflexivity|apply keeps_refl, Kt1].
      - apply attach_subspace_keeps; [apply Kt1|exact E].
      - eexists _, _; split; [reflexivity|apply keeps_refl, Kt1]. }
    destruct A2 as (j2 & t2 & -> & Kt2). simpl.
    pose proof (keeps_trans _ _ _ Kt1 Kt2) as K32.
    destruct (is_set (nearnullspace t2) || is_set (nearnullspace_object t2)) eqn:E.
    - destruct (attach_subspace_keeps (nearnullspace_object t2) (nearnullspace t2)
                  MatSetNearNullSpace j2 t2 (proj1 Kt2) E) as (j3 & t3 & -> & Kt3).
      eexists _, _; split; [reflexivity|]. exact (keeps_trans _ _ _ K32 Kt3).
    - eexists _, _; split; [reflexivity|exact K32]. }
  destruct Hsub as (jac' & s4 & -> & K4). simpl.
  pose proof (keeps_trans _ _ _ K13 K4) as K14.
  destruct (on_snes_keeps (snes_call (KSPSetTolerances (initial_linear_tolerance s4)
                                                 (max_linear_iterations s4))) s4 (proj1 K4))
    as (s5 & -> & K5). simpl.
  pose proof (keeps_trans _ _ _ K14 K5) as K15.
  destruct (on_snes_keeps (snes_call (SNESSetTolerances
                                  (absolute_residual_tolerance s5)
                                  (relative_residual_tolerance s5)
                                  (relative_step_tolerance s5)
                                  (max_nonlinear_iterations s5)
                                  (max_function_evaluations s5))) s5 (proj1 K5))
    as (s6 & -> & K6). simpl.
  pose proof (keeps_trans _ _ _ K15 K6) as K16.
  destruct (on_snes_if_keeps (PETSC_VERSION_LESS_THAN PETSC_VERSION 3 7 0)
              (snes_call KSPSetFromOptions) s6 (proj1 K6)) as (s7 & -> & K7). simpl.
  pose proof (keeps_trans _ _ _ K16 K7) as K17.
  destruct (on_snes_keeps (snes_call SNESSetFromOptions) s7 (proj1 K7)) as (s8 & -> & K8).
  simpl.
  pose proof (keeps_trans _ _ _ K17 K8) as K18.
  set (s9 := match user_presolve s8 with
              | Some presolve => set_system (presolve (system s8)) s8
              | None => s8
              end).
  assert (K9 : keeps s8 s9).
  { subst s9. destruct (user_presolve s8); [|apply keeps_refl, K8].
    destruct K8 as ([snes E] & _). repeat split; auto. exists snes; exact E. }
  set (s10 := match _preconditioner s9 with
               | Some p => set_preconditioner (Some (pc_init (pc_set_matrix jac p))) s9
               | None => s9
               end).
  assert (K10 : keeps s9 s10).
  { subst s10. destruct (_preconditioner s9); [|apply keeps_refl, K9].
    destruct K9 as ([snes E] & _). repeat split; auto. exists snes; exact E. }
  assert (A11 : exists s11,
     match _solver_configuration s10 with
     | Some c => on_snes (configure_solver c) s10
     | None => Ok s10
     end = Ok s11 /\ keeps s10 s11).
  { destruct (_solver_configuration s10).
    - apply on_snes_keeps, K10.
    - eexists; split; [reflexivity|apply keeps_refl, K10]. }
  destruct A11 as (s11 & -> & K11). simpl.
  pose proof (keeps_trans _ _ _ (keeps_trans _ _ _ (keeps_trans _ _ _ K18 K9) K10) K11) as K.
  destruct K11 as ([snes E] & _). rewrite E. simpl.
  eexists; split; [reflexivity|]. simpl.
  destruct K as (_ & Hs & Hi). repeat split; auto; congruence.
Qed.

Lemma appends_refl s : ready s -> appends s s.
Proof.
  intros [snes E]. repeat split. exists snes, snes, [].
  rewrite app_nil_r. auto.
Qed.

Lemma appends_trans s1 s2 s3 : appends s1 s2 -> appends s2 s3 -> appends s1 s3.
Proof.
  intros (Hs1 & Hi1 & a & b & m1 & Ea & Eb & Em1 & F1)
         (Hs2 & Hi2 & b' & c & m2 & Eb' & Ec & Em2 & F2).
  rewrite Eb in Eb'. injection Eb' as <-.
  repeat split; try congruence.
  exists a, c, (m1 ++ m2). repeat split; auto.
  - rewrite Em2, Em1. now rewrite app_assoc.
  - apply Forall_app; auto.
Qed.

Lemma appends_ready s s' : appends s s' -> ready s'.
Proof. intros (_ & _ & a & b & m & _ & E & _). now exists b. Qed.

Lemma on_snes_call_appends c s :
  non_jacobian c -> ready s ->
  exists s', on_snes (snes_call c) s = Ok s' /\ appends s s'.
Proof.
  intros Hc [snes E]. unfold on_snes. rewrite E.
  eexists; split; [reflexivity|]. repeat split.
  exists snes, (snes_call c snes), [c]. simpl. repeat split; auto.
Qed.

Lemma on_snes_call_if_appends (b : bool) c s :
  non_jacobian c -> ready s ->
  exists s', (if b then on_snes (snes_call c) s else Ok s) = Ok s' /\ appends s s'.
Proof.
  intros Hc Hr. destruct b.
  - now apply on_snes_call_appends.
  - eexists; split; [reflexivity|now apply appends_refl].
Qed.

Lemma attach_subspace_appends obj fn MatSet jac s :
  ready s -> is_set fn || is_set obj = true ->
  exists jac' s', attach_subspace obj fn MatSet jac s = Ok (jac', s') /\ appends s s'.
Proof.
  intros Hr H.
  destruct (attach_subspace_ok obj fn MatSet jac s H) as (jac' & s' & E & Hs & Hn & Hi).
  exists jac', s'. split; [exact E|]. repeat split; auto.
  destruct Hr as [snes Hr]. exists snes, snes, []. rewrite app_nil_r.
  repeat split; auto; congruence.
Qed.

Lemma init_appends name s :
  handle_consistent s -> _solver_configuration s = None ->
  exists s1 snes1 made,
    init PETSC_VERSION name s = Ok s1 /\ settings s1 = settings s /\
    _is_initialized s1 = true /\ _snes s1 = Some snes1 /\
    snes_calls snes1 = calls_on_entry s ++ made /\ Forall non_jacobian made.
Proof.
  intros Hc Hcfg. unfold init, handle_consistent, calls_on_entry in *.
  destruct (_is_initialized s) eqn:Ei; simpl.
  - destruct (_snes s) as [snes|] eqn:Es; [|exfalso; now apply Hc].
    destruct (is_set (postcheck s) || is_set (postcheck_object s)).
    + eexists _, _, _. repeat split; simpl; auto.
      repeat constructor; discriminate.
    + eexists _, _, []. repeat split; simpl; eauto. now rewrite app_nil_r.
  - rewrite Hcfg.
    destruct name, (negb (PETSC_VERSION_LESS_THAN PETSC_VERSION 3 3 0)),
      (_default_monitor s), (PETSC_VERSION_LESS_THAN PETSC_VERSION 3 1 0),
      (_preconditioner s) as [p|]; simpl;
    destruct (is_set (postcheck s) || is_set (postcheck_object s));
    (eexists _, _, _; repeat split; simpl; auto;
     repeat constructor; discriminate).
Qed.

(** What [solve] does about the two callbacks, on a context without a
    [SolverConfiguration] hook (a hook may do anything to the engine): among
    the engine calls it makes before [SNESSolve], the residual callback is
    always registered, and the Jacobian callback is registered exactly when
    [jacobian], [jacobian_object] or [residual_and_jacobian_object] is set;
    [matvec] plays no part. *)
Lemma solve_setup_registrations jac x r s :
  handle_consistent s -> _solver_configuration s = None ->
  exists setup made,
    solve_setup PETSC_VERSION jac x r s = Ok setup /\
    snes_calls (setup_snes setup) = calls_on_entry s ++ made /\
    In (SNESSetFunction (_vec r) __libmesh_petsc_snes_residual_cb) made /\
    (In (SNESSetJacobian __libmesh_petsc_snes_jacobian_cb) made <->
     solve_registers_jacobian s = true).
Proof.
  intros Hc Hcfg. unfold solve_setup.
  destruct (init_appends None s Hc Hcfg)
    as (s1 & snes1 & m1 & -> & Hs1 & Hi1 & E1 & C1 & F1). cbn [bind].
  assert (Hr1 : ready s1) by (now exists snes1).
  unfold on_snes at 1. rewrite E1. cbn [bind].
  set (c2 := SNESSetFunction (_vec r) __libmesh_petsc_snes_residual_cb).
  set (s2 := set_snes (Some (snes_call c2 snes1)) s1).
  assert (E2 : _snes s2 = Some (snes_call c2 snes1)) by reflexivity.
  assert (Hcond : (is_set (jacobian s2) || is_set (jacobian_object s2)
                   || is_set (residual_and_jacobian_object s2))
                  = solve_registers_jacobian s).
  { unfold solve_registers_jacobian. subst s2. simpl. now rewrite Hs1. }
  rewrite Hcond.
  assert (A3 : exists s3 snes3,
     (if solve_registers_jacobian s
      then on_snes (snes_call (SNESSetJacobian __libmesh_petsc_snes_jacobian_cb)) s2
      else Ok s2) = Ok s3 /\ settings s3 = settings s /\ _snes s3 = Some snes3 /\
     snes_calls snes3 = calls_on_entry s ++ m1 ++ [c2] ++
       (if solve_registers_jacobian s
        then [SNESSetJacobian __libmesh_petsc_snes_jacobian_cb] else [])).
  { destruct (solve_registers_jacobian s).
    - unfold on_snes. rewrite E2. eexists _, _. split; [reflexivity|].
      split; [exact Hs1|]. split; [reflexivity|]. simpl. rewrite C1.
      now rewrite <- !app_assoc.
    - eexists _, _. split; [reflexivity|]. split; [exact Hs1|].
      split; [exact E2|]. simpl. rewrite C1. now rewrite <- !app_assoc. }
  destruct A3 as (s3 & snes3 & -> & Hs3 & E3 & C3). simpl.
  assert (Hr3 : ready s3) by (now exists snes3).
  assert (Hsub : exists jac' s4,
    (if negb (PETSC_VERSION_LESS_THAN PETSC_VERSION 3 3 0)
      then
       st <-
       (if is_set (nullspace s3) || is_set (nullspace_object s3)
        then attach_subspace (nullspace_object s3) (nullspace s3) MatSetNullSpace jac s3
        else Ok (jac, s3));;
       (let
        '(jac0, this) := st in
         st0 <-
         (if is_set (transpose_nullspace this) || is_set (transpose_nullspace_object this)
          then
           if PETSC_VERSION_LESS_THAN PETSC_VERSION 3 6 0
           then Ok (jac0, this)
           else
            attach_subspace (transpose_nullspace_object this) (transpose_nullspace this)
              MatSetTransposeNullSpace jac0 this
          else Ok (jac0, this));;
         (let
          '(jac1, this0) := st0 in
           if is_set (nearnullspace this0) || is_set (nearnullspace_object this0)
           then
            attach_subspace (nearnullspace_object this0) (nearnullspace this0)
              MatSetNearNullSpace jac1 this0
           else Ok (jac1, this0)))
      else Ok (jac, s3)) = Ok (jac', s4) /\ appends s3 s4).
  { destruct (negb (PETSC_VERSION_LESS_THAN PETSC_VERSION 3 3 0));
      [|eexists _, _; split; [reflexivity|now apply appends_refl]].
    assert (A1 : exists j1 t1,
      (if is_set (nullspace s3) || is_set (nullspace_object s3)
        then attach_subspace (nullspace_object s3) (nullspace s3) MatSetNullSpace jac s3
        else Ok (jac, s3)) = Ok (j1, t1) /\ appends s3 t1).
    { destruct (is_set (nullspace s3) || is_set (nullspace_object s3)) eqn:E.
      - now apply attach_subspace_appends.
      - eexists _, _; split; [reflexivity|now apply appends_refl]. }
    destruct A1 as (j1 & t1 & -> & Kt1). simpl.
    pose proof (appends_ready _ _ Kt1) as Rt1.
    assert (A2 : exists j2 t2,
      (if is_set (transpose_nullspace t1) || is_set (transpose_nullspace_object t1)
          then
           if PETSC_VERSION_LESS_THAN PETSC_VERSION 3 6 0
           then Ok (j1, t1)
           else
            attach_subspace (transpose_nullspace_object t1) (transpose_nullspace t1)
              MatSetTransposeNullSpace j1 t1
          else Ok (j1, t1)) = Ok (j2, t2) /\ appends t1 t2).
    { destruct (is_set (transpose_nullspace t1) || is_set (transpose_nullspace_object t1)) eqn:E;
        [destruct (PETSC_VERSION_LESS_THAN PETSC_VERSION 3 6 0)|].
      - eexists _, _; split; [reflexivity|now apply appends_refl].
      - now apply attach_subspace_appends.
      - eexists _, _; split; [reflexivity|now apply appends_refl]. }
    destruct A2 as (j2 & t2 & -> & Kt2). simpl.
    pose proof (appends_ready _ _ Kt2) as Rt2.
    pose proof (appends_trans _ _ _ Kt1 Kt2) as K32.
    destruct (is_set (nearnullspace t2) || is_set (nearnullspace_object t2)) eqn:E.
    - destruct (attach_subspace_appends (nearnullspace_object t2) (nearnullspace t2)
                  MatSetNearNullSpace j2 t2 Rt2 E) as (j3 & t3 & -> & Kt3).
      eexists _, _; split; [reflexivity|]. exact (appends_trans _ _ _ K32 Kt3).
    - eexists _, _; split; [reflexivity|exact K32]. }
  destruct Hsub as (jac' & s4 & -> & K4). simpl.
  destruct (on_snes_call_appends
              (KSPSetTolerances (initial_linear_tolerance s4) (max_linear_iterations s4))
              s4 ltac:(discriminate) (appends_ready _ _ K4)) as (s5 & -> & K5). simpl.
  pose proof (appends_trans _ _ _ K4 K5) as K35.
  destruct (on_snes_call_appends
              (SNESSetTolerances (absolute_residual_tolerance s5)
                                 (relative_residual_tolerance s5)
                                 (relative_step_tolerance s5)
                                 (max_nonlinear_iterations s5)
                                 (max_function_evaluations s5))
              s5 ltac:(discriminate) (appends_ready _ _ K5)) as (s6 & -> & K6). simpl.
  pose proof (appends_trans _ _ _ K35 K6) as K36.
  destruct (on_snes_call_if_appends (PETSC_VERSION_LESS_THAN PETSC_VERSION 3 7 0)
              KSPSetFromOptions s6 ltac:(discriminate) (appends_ready _ _ K6))
    as (s7 & -> & K7). simpl.
  pose proof (appends_trans _ _ _ K36 K7) as K37.
  destruct (on_snes_call_appends SNESSetFromOptions s7 ltac:(discriminate)
              (appends_ready _ _ K7)) as (s8 & -> & K8). simpl.
  pose proof (appends_trans _ _ _ K37 K8) as K38.
  set (s9 := match user_presolve s8 with
              | Some presolve => set_system (presolve (system s8)) s8
              | None => s8
              end).
  assert (K9 : appends s8 s9).
  { subst s9. pose proof (appends_ready _ _ K8) as [snes E].
    destruct (user_presolve s8); [|apply appends_refl; now exists snes].
    repeat split. exists snes, snes, []. rewrite app_nil_r. repeat split; auto. }
  set (s10 := match _preconditioner s9 with
               | Some p => set_preconditioner (Some (pc_init (pc_set_matrix jac p))) s9
               | None => s9
               end).
  assert (K10 : appends s9 s10).
  { subst s10. pose proof (appends_ready _ _ K9) as [snes E].
    destruct (_preconditioner s9); [|apply appends_refl; now exists snes].
    repeat split. exists snes, snes, []. rewrite app_nil_r. repeat split; auto. }
  pose proof (appends_trans _ _ _ (appends_trans _ _ _ K38 K9) K10) as K.
  destruct K as (HsK & _ & a & b & m & Ea & Eb & Em & Fm).
  assert (Hcfg10 : _solver_configuration s10 = None).
  { change (_solver_configuration (settings s10) = None).
    rewrite HsK, Hs3. exact Hcfg. }
  rewrite Hcfg10. simpl. rewrite Eb. simpl.
  rewrite E3 in Ea. injection Ea as <-.
  eexists _, _. split; [reflexivity|]. simpl.
  rewrite Em, C3. split; [now rewrite <- !app_assoc|].
  split.
  - apply in_or_app. right. now left.
  - rewrite !in_app_iff. split.
    + intros [H|[H|[H|H]]].
      * rewrite Forall_forall in F1. now destruct (F1 _ H).
      * destruct H as [H|[]]. discriminate H.
      * destruct (solve_registers_jacobian s); [reflexivity|destruct H].
      * rewrite Forall_forall in Fm. now destruct (Fm _ H).
    + intros ->. right. right. left. now left.
Qed.

(** On every context on which [solve] registers the Jacobian callback, that
    callback never reaches its [matvec] branch. *)
Lemma jacobian_callback_matvec_branch_unreachable snes x jac pc s ret :
  solve_registers_jacobian s = true ->
  jacobian_cb snes x jac pc s = Ok ret ->
  jac_invoked ret <> [F_matvec].
Proof.
  unfold solve_registers_jacobian, __libmesh_petsc_snes_jacobian. simpl.
  destruct (jacobian s), (jacobian_object s), (matvec s),
           (residual_and_jacobian_object s); simpl;
    try discriminate;
    try match goal with
        | |- context [match ?e with (_, _) => _ end] => destruct e as [[? ?] ?]
        end;
    simpl; intros _ H; injection H as <-; simpl; discriminate.
Qed.

(** C2.  A context in which both the function and the object of a role
    are set goes through [init] and through the whole of [solve] up to
    the engine call without an error (nothing before the callbacks looks
    at the pair), and every invocation of the role's callback on it, the
    first one included, ends in a configuration error. *)
Theorem double_registration_fails_in_callback (role : Role)
    (name : option string) (jac_in : PetscMatrix) (x_in r_in : PetscVector)
    (s : PetscNonlinearSolver) :
  handle_consistent s ->
  both_registered role s = true ->
  (exists s', init PETSC_VERSION name s = Ok s' /\ settings s' = settings s) /\
  (exists st, solve_setup PETSC_VERSION jac_in x_in r_in s = Ok st
              /\ settings (setup_solver st) = settings s) /\
  (forall (s' : PetscNonlinearSolver) snes x r jac pc y w,
      settings s' = settings s ->
      match role with
      | Residual_role => configuration_error (residual_cb snes x r s')
      | Jacobian_role => configuration_error (jacobian_cb snes x jac pc s')
      | Residual_and_jacobian_role =>
          configuration_error (residual_cb snes x r s') /\
          configuration_error (jacobian_cb snes x jac pc s')
      | Postcheck_role => configuration_error (postcheck_cb x y w s')
      end).
Proof.
  intros Hc Hb. split; [|split].
  - destruct (init_ok name s Hc) as (s' & E & _ & Hs & _). eauto.
  - destruct (solve_setup_ok jac_in x_in r_in s Hc) as (st & E & _ & Hs & _). eauto.
  - intros s' snes x r jac pc y w Hs.
    assert (Hb' : both_registered role s' = true).
    { unfold both_registered in *. now rewrite Hs. }
    destruct role.
    + eexists. now apply residual_both_registered.
    + eexists. now apply jacobian_both_registered.
    + split; [now apply residual_both_combined|now apply jacobian_both_combined].
    + eexists. now apply postcheck_both_registered.
Qed.

(** Whatever the engine did, a [solve] that returns leaves [converged]
    equal to the sign test on [_reason]. *)
Lemma solve_converged_flag (jac_in : PetscMatrix) (x_in r_in : PetscVector)
    (s : PetscNonlinearSolver) ret :
  solve enforce_on PETSC_VERSION SNESSolve jac_in x_in r_in s = Ok ret ->
  converged (solve_solver ret) = (0 <=? _reason (solve_solver ret))%Z.
Proof.
  unfold solve.
  destruct (solve_setup PETSC_VERSION jac_in x_in r_in s) as [setup|]; simpl;
    [|discriminate].
  destruct (SNESSolve _ _ _ _ _) as [run|]; simpl; [|discriminate].
  unfold solve_finish.
  destruct (negb (run_ierr run =? 0)%Z); [discriminate|]. simpl.
  intros H. injection H as <-. simpl. unfold clear. simpl.
  destruct (_is_initialized (setup_solver setup)); reflexivity.
Qed.

(** C6.  Every solve that returns has its [converged] flag true exactly
    when the recorded convergence reason is not negative; and a solve
    returns as soon as the engine call does so with a zero status, the
    recorded reason being the one the engine reports. *)
Theorem converged_iff_reason_nonnegative (jac_in : PetscMatrix)
    (x_in r_in : PetscVector) (s : PetscNonlinearSolver) :
  (forall ret,
      solve enforce_on PETSC_VERSION SNESSolve jac_in x_in r_in s = Ok ret ->
      (converged (solve_solver ret) = true <->
       (0 <= _reason (solve_solver ret))%Z) /\
      ((_reason (solve_solver ret) < 0)%Z ->
       converged (solve_solver ret) = false)) /\
  (handle_consistent s ->
   exists setup,
     solve_setup PETSC_VERSION jac_in x_in r_in s = Ok setup /\
     forall run,
       SNESSolve (setup_snes setup) (setup_solver setup) (setup_jac setup)
                 x_in r_in = Ok run ->
       run_ierr run = 0%Z ->
       exists ret,
         solve enforce_on PETSC_VERSION SNESSolve jac_in x_in r_in s = Ok ret /\
         _reason (solve_solver ret) = snes_converged_reason (run_snes run)).
Proof.
  split.
  - intros ret E. rewrite (solve_converged_flag jac_in x_in r_in s ret E).
    split; [apply Z.leb_le|apply Z.leb_gt].
  - intros Hc.
    destruct (solve_setup_ok jac_in x_in r_in s Hc) as (st & E & _ & _ & Hi).
    exists st. split; [exact E|].
    intros run Hrun Hierr. unfold solve. rewrite E. simpl. rewrite Hrun. simpl.
    unfold solve_finish. rewrite Hierr. simpl.
    unfold clear. simpl. rewrite Hi. simpl.
    eexists; split; reflexivity.
Qed.

End Orchestrator.

(** C1 (as stated) fails: with both a plain residual function and a residual
    object registered, the plain function comes first in the order, yet
    nothing is invoked. *)
Lemma residual_dispatch_double_registration :
  ~ residual_dispatch_as_stated plain_copy no_constraints SNES_created [1%R] [0%R]
      residual_twice.
Proof.
  unfold residual_dispatch_as_stated; simpl.
  intros [ret [H _]]. discriminate H.
Qed.

Lemma constructed_handle_consistent cfg sys :
  handle_consistent (constructed cfg sys).
Proof. unfold handle_consistent; simpl; discriminate. Qed.

Lemma double_registration_fails_in_callback_witness :
  (exists s', init (3, 7, 0) None residual_twice = Ok s') /\
  configuration_error
    (__libmesh_petsc_snes_residual plain_copy no_constraints SNES_created
       [1%R] [0%R] residual_twice).
Proof.
  destruct (@double_registration_fails_in_callback plain_copy no_constraints
              (3, 7, 0) Residual_role None a_matrix
              (PetscVector_of_Vec [1%R]) (PetscVector_of_Vec [0%R])
              residual_twice
              (@constructed_handle_consistent _ _) eq_refl)
    as ((s' & E & _) & _ & H).
  split; [exists s'; exact E|].
  exact (H residual_twice SNES_created [1%R] [0%R] a_matrix a_matrix [] []
           eq_refl).
Defined.

Lemma a_postcheck_keeps_dof_map :
  postcheck_forms_keep_dof_map
    (constructed (with_forms None None None None None None
                             (Some a_postcheck) None) (sys0 1)).
Proof.
  split; simpl; intros f E; [|discriminate].
  injection E as <-. intros ? ? ? ? ? ?. reflexivity.
Qed.

Lemma postcheck_constraints_force_changed_w_witness :
  exists ret,
    __libmesh_petsc_snes_postcheck no_constraints [1%R] [1%R] [2%R]
      (constructed (with_forms None None None None None None
                               (Some a_postcheck) None) (sys0 1)) = Ok ret /\
    changed_w ret = true.
Proof.
  destruct (postcheck_constraints_force_changed_w no_constraints
              [1%R] [1%R] [2%R]
              (constructed (with_forms None None None None None None
                                       (Some a_postcheck) None) (sys0 1)))
    as [Htotal Hflag].
  destruct (Htotal eq_refl) as [ret E].
  exists ret. split; [exact E|].
  apply (Hflag ret E).
  - simpl. lia.
  - exact a_postcheck_keeps_dof_map.
Defined.

(** C3 (as stated) fails: the system has one constrained degree of freedom
    on entry, the registered post-check leaves it none, and the callback
    returns with the flag clear. *)
Lemma postcheck_constraints_cleared_by_user :
  ~ postcheck_constraints_as_stated no_constraints [1%R] [1%R] [2%R]
      constraints_cleared_by_postcheck.
Proof.
  unfold postcheck_constraints_as_stated. intros H.
  specialize (H (Nat.lt_0_succ 0) _ eq_refl). discriminate H.
Qed.

Lemma postcheck_nothing_to_do_witness :
  __libmesh_petsc_snes_postcheck no_constraints [1%R] [1%R] [2%R]
    (constructed no_forms (sys0 0)) =
  Ok {| post_ierr := 0%Z; post_x := [1%R]; post_y := [1%R]; post_w := [2%R];
        changed_y := false; changed_w := false;
        post_solver := constructed no_forms (sys0 0); post_invoked := [] |}.
Proof.
  apply (postcheck_nothing_to_do no_constraints [1%R] [1%R] [2%R]
           (constructed no_forms (sys0 0))); reflexivity.
Defined.

Lemma converged_iff_reason_nonnegative_witness :
  exists ret,
    solve no_constraints (3, 7, 0) diverging_engine a_matrix
          (PetscVector_of_Vec [1%R]) (PetscVector_of_Vec [0%R])
          (constructed no_forms (sys0 0)) = Ok ret /\
    _reason (solve_solver ret) = (-2)%Z /\
    converged (solve_solver ret) = false.
Proof.
  destruct (converged_iff_reason_nonnegative no_constraints (3, 7, 0)
              diverging_engine a_matrix
              (PetscVector_of_Vec [1%R]) (PetscVector_of_Vec [0%R])
              (constructed no_forms (sys0 0))) as [Hflag Hruns].
  destruct (Hruns (constructed_handle_consistent _ _)) as (setup & _ & H).
  destruct (H _ eq_refl eq_refl) as (ret & E & Hr).
  exists ret. split; [exact E|]. split; [exact Hr|].
  apply (Hflag ret E). rewrite Hr. simpl. lia.
Defined.

(** C7, at a context whose only registered form is the combined function
    [matvec]: a Jacobian-producing form is registered, [solve] registers the
    residual callback with the engine but not the Jacobian callback, yet the
    Jacobian callback invoked on this context would hand control to
    [matvec]. *)
Theorem solve_matvec_only_skips_jacobian_callback :
  any_jacobian_producing_form matvec_only = true /\
  (exists setup,
      solve_setup (3, 7, 0) a_matrix (PetscVector_of_Vec [1%R])
                  (PetscVector_of_Vec [0%R]) matvec_only = Ok setup /\
      In (SNESSetFunction [0%R] __libmesh_petsc_snes_residual_cb)
         (snes_calls (setup_snes setup)) /\
      ~ In (SNESSetJacobian __libmesh_petsc_snes_jacobian_cb)
           (snes_calls (setup_snes setup))) /\
  (exists ret,
      __libmesh_petsc_snes_jacobian plain_copy no_constraints SNES_created
        [1%R] a_matrix a_matrix matvec_only = Ok ret /\
      jac_invoked ret = [F_matvec]).
Proof.
  split; [reflexivity|]. split.
  - eexists. split; [reflexivity|]. simpl. split.
    + intuition.
    + intuition discriminate.
  - eexists. split; reflexivity.
Qed.

End PetscFacts.

(* ================================================================== *)
(** ** More on the callbacks, [init], [clear] and [solve] *)

Module PetscMore.
Import Petsc PetscSpec PetscFacts.

Section Callbacks.

Variable localize : PetscVector -> PetscVector -> PetscVector.
Variable enforce_on : NonlinearImplicitSystem -> PetscVector -> PetscVector.

Local Abbreviation residual_cb := (__libmesh_petsc_snes_residual localize enforce_on).
Local Abbreviation jacobian_cb := (__libmesh_petsc_snes_jacobian localize enforce_on).
Local Abbreviation postcheck_cb := (__libmesh_petsc_snes_postcheck enforce_on).

Ltac case_forms s :=
  destruct s as [[res reso jac0 jaco mv rj pc0 pco ? ? ? ? ? ? ? ? ? ? ? ? ? ? ? ? ? ?]
                   ? ? ? ? ? ? ? ?];
  simpl in *.

(** X18.  Whenever the Jacobian callback returns, exactly one form has
    run, on the system with its refreshed and constrained local replica
    and on the preconditioning matrix, which carries the system's
    degree-of-freedom map and has been zeroed first when
    [_zero_out_jacobian] is set; the callback hands back what the form made
    of that matrix, closed, and the Jacobian matrix argument is closed as
    well.  The trial vector comes back untouched and the context records
    the engine's iteration number.  Nothing is said of the entries of the
    Jacobian matrix argument: it is the preconditioning matrix itself when
    [solve] registered the callback. *)
Theorem jacobian_callback_effects (snes : SNES) (x : Vec)
    (jac pc : PetscMatrix) (s : PetscNonlinearSolver) ret :
  jacobian_cb snes x jac pc s = Ok ret ->
  let sys := enforce_constraints_exactly_local enforce_on
               (snd (update_through_swap localize (PetscVector_of_Vec x)
                                         (system s))) in
  let PC := attach_dof_map (get_dof_map (system s)) pc in
  let PC := if _zero_out_jacobian s then mat_zero PC else PC in
  exists form PC' sys',
    jac_invoked ret = [form] /\
    jacobian_form_effect form s (current_local_solution sys) PC sys
    = Some (PC', sys') /\
    jac_pc ret = mat_close PC' /\ system (jac_solver ret) = sys' /\
    _mat_is_closed (jac_pc ret) = true /\
    _mat_is_closed (jac_jac ret) = true /\
    jac_x ret = x /\
    _current_nonlinear_iteration_number (jac_solver ret)
    = cast_int_unsigned (snes_iteration_number snes) /\
    jac_ierr ret = 0%Z.
Proof.
  case_forms s.
  unfold __libmesh_petsc_snes_jacobian, jacobian_form_effect; simpl.
  destruct jac0 as [f|], jaco as [o|], mv as [m|], rj as [oj|]; simpl;
    try discriminate;
    try match goal with
        | |- context [match ?e with (_, _) => _ end] =>
            destruct e as [[? ?] ?] eqn:?
        end;
    simpl; intros H; injection H as <-; simpl;
    eexists _, _, _; repeat split; simpl; eauto.
Qed.

(** X19.  With one post-check form registered the callback runs it once,
    with both flags cleared, and reports its flags: the "search direction
    changed" flag is the one the form sets, and the "new point changed"
    flag is the one the form sets unless the system the form leaves has a
    constrained degree of freedom, in which case it is set. *)
Theorem postcheck_flags_are_the_users (x y w : Vec) (s : PetscNonlinearSolver)
    (f : postcheck_fn) (form : Form) :
  the_postcheck s = Some (f, form) ->
  let e := f (PetscVector_of_Vec x) (PetscVector_of_Vec y)
             (PetscVector_of_Vec w) false false (system s) in
  exists ret,
    postcheck_cb x y w s = Ok ret /\
    post_invoked ret = [form] /\
    changed_y ret = pc_changed_search_direction e /\
    changed_w ret = pc_changed_new_soln e
                    || (0 <? n_constrained_dofs (get_dof_map (pc_system e))) /\
    post_x ret = _vec (pc_old_soln e) /\
    post_y ret = _vec (pc_search_direction e).
Proof.
  unfold the_postcheck, __libmesh_petsc_snes_postcheck.
  destruct (postcheck s) as [g|] eqn:Ef, (postcheck_object s) as [o|] eqn:Eo;
    try discriminate; intros H; injection H as <- <-; simpl;
    rewrite !andb_false_r; simpl;
    match goal with
    | |- context [if (0 <? ?n) then _ else _] => destruct (0 <? n) eqn:En
    end;
    eexists; (split; [reflexivity|]); simpl;
    repeat split;
    try match goal with
        | |- (if ?b then true else false) = _ => destruct b; reflexivity
        end;
    try (rewrite orb_true_r; reflexivity);
    try (rewrite orb_false_r; destruct (pc_changed_new_soln _); reflexivity).
Qed.

(** X20.  The two swaps around the constraint enforcement of the
    post-check callback make it act on the candidate solution and on
    nothing else: the system comes back as the user post-check left it, its
    canonical solution included, and the candidate comes back constrained
    when the system has a constrained degree of freedom, as the user
    post-check left it otherwise. *)
Theorem postcheck_enforces_on_candidate (x y w : Vec)
    (s : PetscNonlinearSolver) ret :
  postcheck_cb x y w s = Ok ret ->
  let W := fst (after_user_postcheck s x y w) in
  let sys := snd (after_user_postcheck s x y w) in
  system (post_solver ret) = sys /\
  post_w ret =
    (if 0 <? n_constrained_dofs (get_dof_map sys)
     then _vec (enforce_on (set_solution W sys) W) else _vec W).
Proof.
  unfold after_user_postcheck, the_postcheck, __libmesh_petsc_snes_postcheck.
  destruct (postcheck s) as [g|] eqn:Ef, (postcheck_object s) as [o|] eqn:Eo;
    simpl; try discriminate; rewrite ?andb_false_r, ?andb_true_r; simpl.
  - match goal with
    | |- context [if (0 <? ?n) then _ else _] => destruct (0 <? n) eqn:En
    end; simpl; intros H; injection H as <-; simpl; split; try reflexivity.
    destruct (pc_system _); reflexivity.
  - match goal with
    | |- context [if (0 <? ?n) then _ else _] => destruct (0 <? n) eqn:En
    end; simpl; intros H; injection H as <-; simpl; split; try reflexivity.
    destruct (pc_system _); reflexivity.
  - destruct (0 <? n_constrained_dofs (get_dof_map (system s))) eqn:En; simpl;
      intros H; injection H as <-; simpl; split; try reflexivity.
    destruct (system s); reflexivity.
Qed.

End Callbacks.

Section Lifecycle.

Variable PETSC_VERSION : nat * nat * nat.

(** [init] on a context that was never initialized. *)
Lemma init_fresh name s :
  _is_initialized s = false -> _solver_configuration s = None ->
  exists s' snes,
    init PETSC_VERSION name s = Ok s' /\ _snes s' = Some snes /\
    snes_calls snes = init_calls PETSC_VERSION name s ++ postcheck_registration s /\
    settings s' = settings s /\ _is_initialized s' = true /\
    system s' = system s /\
    _preconditioner s' = option_map pc_init (_preconditioner s).
Proof.
  intros Hi Hc. unfold init, init_calls, postcheck_registration.
  rewrite Hi. simpl. rewrite Hc.
  destruct name, (PETSC_VERSION_LESS_THAN PETSC_VERSION 3 3 0),
    (_default_monitor s), (PETSC_VERSION_LESS_THAN PETSC_VERSION 3 1 0),
    (_preconditioner s) as [p|] eqn:Ep; simpl;
    destruct (is_set (postcheck s) || is_set (postcheck_object s));
    eexists _, _; repeat split; simpl; rewrite ?Ep; reflexivity.
Qed.

(** X21.  On a context that is not initialized and has no
    [SolverConfiguration] hook, [init] creates the engine handle and
    registers the monitor exactly when [_default_monitor] is set, the
    post-check callback exactly when a post-check form is registered, the
    options prefix exactly when a name is given and the shell
    preconditioner exactly when a preconditioner is attached; it registers
    neither the residual nor the Jacobian callback. *)
Theorem init_fresh_registrations name s :
  _is_initialized s = false -> _solver_configuration s = None ->
  exists s' snes rest,
    init PETSC_VERSION name s = Ok s' /\ _snes s' = Some snes /\
    _is_initialized s' = true /\ settings s' = settings s /\
    snes_calls snes = SNESCreate :: rest /\
    (In (SNESMonitorSet __libmesh_petsc_snes_monitor_cb) rest <->
     _default_monitor s = true) /\
    (In (SNESLineSearchSetPostCheck __libmesh_petsc_snes_postcheck_cb) rest <->
     is_set (postcheck s) || is_set (postcheck_object s) = true) /\
    (forall n, In (SNESSetOptionsPrefix n) rest <-> name = Some n) /\
    (In PCShellSetUp rest <-> is_set (_preconditioner s) = true) /\
    (forall r cb, ~ In (SNESSetFunction r cb) rest) /\
    (forall cb, ~ In (SNESSetJacobian cb) rest).
Proof.
  intros Hi Hc.
  destruct (init_fresh name s Hi Hc) as (s' & snes & E & Es & Ec & Hs & Hi' & _).
  exists s', snes. eexists. split; [exact E|]. split; [exact Es|].
  split; [exact Hi'|]. split; [exact Hs|].
  rewrite Ec. unfold init_calls, postcheck_registration.
  split; [reflexivity|].
  destruct name, (PETSC_VERSION_LESS_THAN PETSC_VERSION 3 3 0),
    (_default_monitor s), (PETSC_VERSION_LESS_THAN PETSC_VERSION 3 1 0),
    (is_set (_preconditioner s)),
    (is_set (postcheck s) || is_set (postcheck_object s)); simpl;
    repeat match goal with
           | |- _ /\ _ => split
           | |- forall _, _ => intro
           end;
    intuition (try discriminate; try congruence);
    repeat match goal with
           | |- _ \/ _ => first [left; congruence | right]
           end.
Qed.


(** [init] on an initialized context keeps the handle and registers the
    post-check again. *)
Lemma init_again name s snes :
  _is_initialized s = true -> _snes s = Some snes ->
  exists s' snes',
    init PETSC_VERSION name s = Ok s' /\ _snes s' = Some snes' /\
    snes_calls snes' = snes_calls snes ++ postcheck_registration s /\
    settings s' = settings s /\ _is_initialized s' = true /\
    system s' = system s /\ _preconditioner s' = _preconditioner s.
Proof.
  intros Hi Es. unfold init, postcheck_registration. rewrite Hi. simpl.
  rewrite Es.
  destruct (is_set (postcheck s) || is_set (postcheck_object s));
    eexists _, _; repeat split; simpl; rewrite ?app_nil_r; eauto.
Qed.

(** X22.  A second [init] creates no new handle and ignores its name: it
    keeps the handle of the first one, does not initialize the
    preconditioner again, and only registers the post-check callback once
    more when a post-check form is registered. *)
Theorem init_twice name1 name2 s :
  handle_consistent s ->
  exists s1 s2 snes1 snes2,
    init PETSC_VERSION name1 s = Ok s1 /\ _snes s1 = Some snes1 /\
    init PETSC_VERSION name2 s1 = Ok s2 /\ _snes s2 = Some snes2 /\
    snes_calls snes2 = snes_calls snes1 ++ postcheck_registration s /\
    _preconditioner s2 = _preconditioner s1 /\ system s2 = system s1 /\
    settings s2 = settings s.
Proof.
  intros Hc.
  destruct (init_ok PETSC_VERSION name1 s Hc) as (s1 & E1 & [snes1 Es1] & Hs1 & Hi1).
  destruct (init_again name2 s1 snes1 Hi1 Es1)
    as (s2 & snes2 & E2 & Es2 & Ec2 & Hs2 & _ & Hsys & Hp).
  exists s1, s2, snes1, snes2. repeat split; auto; try congruence.
  rewrite Ec2. unfold postcheck_registration.
  change (postcheck s1) with (postcheck (settings s1)).
  change (postcheck_object s1) with (postcheck_object (settings s1)).
  now rewrite Hs1.
Qed.

(** X23.  [clear] after [init] gives the handle up: the context is no
    longer initialized, holds no handle, and its iteration counter is 0,
    while the settings, the recorded reason and the convergence flag stay;
    a second [clear], or the destructor, then changes nothing. *)
Theorem clear_after_init name s :
  handle_consistent s ->
  exists s1,
    init PETSC_VERSION name s = Ok s1 /\
    _is_initialized (clear s1) = false /\ _snes (clear s1) = None /\
    _current_nonlinear_iteration_number (clear s1) = 0%Z /\
    settings (clear s1) = settings s /\
    _reason (clear s1) = _reason s /\ converged (clear s1) = converged s /\
    clear (clear s1) = clear s1 /\ destroy (clear s1) = clear s1 /\
    handle_consistent (clear s1).
Proof.
  intros Hc.
  destruct (init_ok PETSC_VERSION name s Hc) as (s1 & E1 & _ & Hs1 & Hi1).
  exists s1. split; [exact E1|].
  assert (Hr : _reason s1 = _reason s /\ converged s1 = converged s).
  { revert E1. unfold init.
    destruct (_is_initialized s); simpl.
    - destruct (is_set (postcheck s) || is_set (postcheck_object s));
        [destruct (_snes s); [|discriminate]|];
        intros E; injection E as <-; simpl; auto.
    - destruct (_preconditioner s); simpl;
        destruct (is_set (postcheck s) || is_set (postcheck_object s));
        intros E; injection E as <-; simpl; auto. }
  unfold destroy, clear, handle_consistent. rewrite Hi1. simpl.
  repeat split; try tauto; try discriminate.
Qed.


(** [init] leaves alone what the last solve recorded. *)
Lemma init_keeps_results name s s1 :
  init PETSC_VERSION name s = Ok s1 ->
  system s1 = system s /\ _reason s1 = _reason s /\ converged s1 = converged s /\
  _n_linear_iterations s1 = _n_linear_iterations s.
Proof.
  unfold init. destruct (_is_initialized s); simpl.
  - destruct (is_set (postcheck s) || is_set (postcheck_object s));
      [destruct (_snes s); [|discriminate]|];
      intros E; injection E as <-; simpl; auto.
  - destruct (_preconditioner s); simpl;
      destruct (is_set (postcheck s) || is_set (postcheck_object s));
      intros E; injection E as <-; simpl; auto.
Qed.

End Lifecycle.

Section Orchestrator.

Variable localize : PetscVector -> PetscVector -> PetscVector.
Variable enforce_on : NonlinearImplicitSystem -> PetscVector -> PetscVector.
Variable PETSC_VERSION : nat * nat * nat.
Variable SNESSolve :
  SNES -> PetscNonlinearSolver -> PetscMatrix -> PetscVector -> PetscVector ->
  Outcome EngineRun.

(** One subspace block: the provider runs on the system, and the matrix is
    annotated with the orthonormalized vectors unless there is none. *)
Lemma attach_subspace_effect obj fn MatSet jac s :
  is_set fn || is_set obj = true ->
  exists sp sys',
    attach_subspace obj fn MatSet jac s =
    Ok (match sp with
        | [] => jac
        | _ :: _ => MatSet jac (orthonormalize_modes sp)
        end, set_system sys' s).
Proof.
  intros H. unfold attach_subspace, build_mat_null_space.
  destruct obj as [o|]; [|destruct fn as [f|]; [|discriminate]]; simpl.
  - destruct (o (system s)) as [sp sys']. exists sp, sys'.
    destruct sp; reflexivity.
  - destruct (f (system s)) as [sp sys']. exists sp, sys'.
    destruct sp; reflexivity.
Qed.

Lemma set_system_same s : set_system (system s) s = s.
Proof. destruct s; reflexivity. Qed.

Lemma set_system_twice a b s : set_system a (set_system b s) = set_system a s.
Proof. reflexivity. Qed.

Lemma subspace_blocks_effect jac s :
  exists jac' sys',
    subspace_blocks PETSC_VERSION jac s = Ok (jac', set_system sys' s) /\
    _mat jac' = _mat jac /\ _mat_is_closed jac' = _mat_is_closed jac /\
    _dof_map jac' = _dof_map jac /\
    (PETSC_VERSION_LESS_THAN PETSC_VERSION 3 3 0 = true ->
     jac' = jac /\ sys' = system s) /\
    (PETSC_VERSION_LESS_THAN PETSC_VERSION 3 6 0 = true ->
     mat_transpose_null_space jac' = mat_transpose_null_space jac) /\
    (no_subspace_provider s -> jac' = jac /\ sys' = system s).
Proof.
  unfold subspace_blocks, no_subspace_provider.
  destruct (PETSC_VERSION_LESS_THAN PETSC_VERSION 3 3 0) eqn:V33; cbn [negb].
  { exists jac, (system s). rewrite set_system_same.
    repeat split; auto. }
  assert (A1 : exists j1 sys1,
    (if is_set (nullspace s) || is_set (nullspace_object s)
     then attach_subspace (nullspace_object s) (nullspace s) MatSetNullSpace jac s
     else Ok (jac, s)) = Ok (j1, set_system sys1 s) /\
    _mat j1 = _mat jac /\ _mat_is_closed j1 = _mat_is_closed jac /\
    _dof_map j1 = _dof_map jac /\
    mat_transpose_null_space j1 = mat_transpose_null_space jac /\
    (nullspace s = None -> nullspace_object s = None ->
     j1 = jac /\ sys1 = system s)).
  { destruct (is_set (nullspace s) || is_set (nullspace_object s)) eqn:E.
    - destruct (attach_subspace_effect (nullspace_object s) (nullspace s)
                  MatSetNullSpace jac s E) as (sp & sys1 & ->).
      eexists _, _; split; [reflexivity|].
      destruct sp; repeat split; auto;
        try (simpl in E; repeat match goal with H : _ = None |- _ => rewrite H in E end; discriminate).
    - exists jac, (system s). rewrite set_system_same. repeat split; auto. }
  destruct A1 as (j1 & sys1 & -> & M1 & C1 & D1 & T1 & N1). cbn [bind].
  set (s1 := set_system sys1 s).
  assert (A2 : exists j2 sys2,
    (if is_set (transpose_nullspace s1) || is_set (transpose_nullspace_object s1)
     then
       if PETSC_VERSION_LESS_THAN PETSC_VERSION 3 6 0
       then Ok (j1, s1)
       else attach_subspace (transpose_nullspace_object s1)
                            (transpose_nullspace s1)
                            MatSetTransposeNullSpace j1 s1
     else Ok (j1, s1)) = Ok (j2, set_system sys2 s) /\
    _mat j2 = _mat j1 /\ _mat_is_closed j2 = _mat_is_closed j1 /\
    _dof_map j2 = _dof_map j1 /\
    (PETSC_VERSION_LESS_THAN PETSC_VERSION 3 6 0 = true ->
     mat_transpose_null_space j2 = mat_transpose_null_space j1) /\
    (transpose_nullspace s = None -> transpose_nullspace_object s = None ->
     j2 = j1 /\ sys2 = sys1)).
  { destruct (is_set (transpose_nullspace s1)
              || is_set (transpose_nullspace_object s1)) eqn:E;
      [destruct (PETSC_VERSION_LESS_THAN PETSC_VERSION 3 6 0) eqn:V36|].
    - exists j1, sys1. subst s1. repeat split; auto;
        try (simpl in E; repeat match goal with H : _ = None |- _ => rewrite H in E end; discriminate).
    - destruct (attach_subspace_effect (transpose_nullspace_object s1)
                  (transpose_nullspace s1) MatSetTransposeNullSpace j1 s1 E)
        as (sp & sys2 & ->).
      exists (match sp with
              | [] => j1
              | _ :: _ => MatSetTransposeNullSpace j1 (orthonormalize_modes sp)
              end), sys2.
      subst s1. rewrite set_system_twice. split; [reflexivity|].
      destruct sp; repeat split; auto; try discriminate;
        try (simpl in E; repeat match goal with H : _ = None |- _ => rewrite H in E end; discriminate).
    - exists j1, sys1. subst s1. repeat split; auto. }
  destruct A2 as (j2 & sys2 & -> & M2 & C2 & D2 & T2 & N2). cbn [bind].
  set (s2 := set_system sys2 s).
  assert (A3 : exists j3 sys3,
    (if is_set (nearnullspace s2) || is_set (nearnullspace_object s2)
     then attach_subspace (nearnullspace_object s2) (nearnullspace s2)
                          MatSetNearNullSpace j2 s2
     else Ok (j2, s2)) = Ok (j3, set_system sys3 s) /\
    _mat j3 = _mat j2 /\ _mat_is_closed j3 = _mat_is_closed j2 /\
    _dof_map j3 = _dof_map j2 /\
    mat_transpose_null_space j3 = mat_transpose_null_space j2 /\
    (nearnullspace s = None -> nearnullspace_object s = None ->
     j3 = j2 /\ sys3 = sys2)).
  { destruct (is_set (nearnullspace s2) || is_set (nearnullspace_object s2)) eqn:E.
    - destruct (attach_subspace_effect (nearnullspace_object s2)
                  (nearnullspace s2) MatSetNearNullSpace j2 s2 E)
        as (sp & sys3 & ->).
      exists (match sp with
              | [] => j2
              | _ :: _ => MatSetNearNullSpace j2 (orthonormalize_modes sp)
              end), sys3.
      subst s2. rewrite set_system_twice. split; [reflexivity|].
      destruct sp; repeat split; auto;
        try (simpl in E; repeat match goal with H : _ = None |- _ => rewrite H in E end; discriminate).
    - exists j2, sys2. subst s2. repeat split; auto. }
  destruct A3 as (j3 & sys3 & -> & M3 & C3 & D3 & T3 & N3).
  exists j3, sys3. split; [reflexivity|].
  split; [congruence|]. split; [congruence|]. split; [congruence|].
  split; [discriminate|].
  split; [intros V36; rewrite T3, (T2 V36), T1; reflexivity|].
  intros (H1 & H2 & H3 & H4 & H5 & H6).
  destruct (N1 H1 H2) as [-> ->]. destruct (N2 H3 H4) as [-> ->].
  destruct (N3 H5 H6) as [-> ->]. auto.
Qed.


Lemma solve_tail_effect jac_in jac this snes :
  _snes this = Some snes ->
  exists setup,
    solve_tail PETSC_VERSION jac_in (jac, this) = Ok setup /\
    setup_jac setup = jac /\
    (_solver_configuration this = None ->
     snes_calls (setup_snes setup)
     = snes_calls snes ++ tail_calls PETSC_VERSION this) /\
    system (setup_solver setup)
    = match user_presolve this with
      | Some presolve => presolve (system this)
      | None => system this
      end /\
    _preconditioner (setup_solver setup)
    = option_map (fun p => pc_init (pc_set_matrix jac_in p)) (_preconditioner this).
Proof.
  intros Es. unfold solve_tail, tail_calls.
  destruct this as [cfg conv sys ini pre sn rea nli cni].
  cbn [_snes] in Es. subst sn. unfold on_snes. cbn.
  destruct (PETSC_VERSION_LESS_THAN PETSC_VERSION 3 7 0) eqn:V37; cbn;
    destruct (user_presolve cfg) as [presolve|]; cbn;
    destruct pre as [p|]; cbn;
    destruct (_solver_configuration cfg) as [c|] eqn:Ec; cbn;
    (eexists; split; [reflexivity|]; split; [reflexivity|];
     split; [|split; reflexivity];
     try (intros H; discriminate H); intros _; cbn;
     rewrite <- ?app_assoc; reflexivity).
Qed.

(** [solve] up to the engine call, in three parts: [init] and the
    registration of the callbacks, the subspace blocks, and the rest. *)
Lemma solve_setup_parts jac x r s s1 snes1 :
  init PETSC_VERSION None s = Ok s1 -> _snes s1 = Some snes1 ->
  settings s1 = settings s ->
  exists snes3,
    snes_calls snes3 = snes_calls snes1 ++ callback_registrations r s /\
    solve_setup PETSC_VERSION jac x r s
    = (st <- subspace_blocks PETSC_VERSION jac (set_snes (Some snes3) s1) ;;
       solve_tail PETSC_VERSION jac st).
Proof.
  intros E1 Es1 Hs1. unfold solve_setup. rewrite E1. cbn [bind].
  unfold on_snes at 1. rewrite Es1. cbn [bind].
  unfold callback_registrations, solve_registers_jacobian.
  rewrite <- Hs1.
  destruct (is_set (jacobian s1) || is_set (jacobian_object s1)
            || is_set (residual_and_jacobian_object s1)) eqn:Ej.
  - eexists (snes_call _ (snes_call _ snes1)).
    split; [cbn; rewrite <- app_assoc; reflexivity|].
    cbn [set_snes settings jacobian jacobian_object residual_and_jacobian_object].
    rewrite Ej. reflexivity.
  - eexists (snes_call _ snes1). split; [reflexivity|].
    cbn [set_snes settings jacobian jacobian_object residual_and_jacobian_object].
    rewrite Ej. reflexivity.
Qed.

(** [solve] up to the engine call, step by step. *)
Lemma solve_setup_shape jac x r s :
  handle_consistent s ->
  exists s1 snes1 jac' sys' setup,
    init PETSC_VERSION None s = Ok s1 /\ _snes s1 = Some snes1 /\
    solve_setup PETSC_VERSION jac x r s = Ok setup /\
    setup_jac setup = jac' /\
    _mat jac' = _mat jac /\ _mat_is_closed jac' = _mat_is_closed jac /\
    _dof_map jac' = _dof_map jac /\
    (PETSC_VERSION_LESS_THAN PETSC_VERSION 3 3 0 = true ->
     jac' = jac /\ sys' = system s1) /\
    (PETSC_VERSION_LESS_THAN PETSC_VERSION 3 6 0 = true ->
     mat_transpose_null_space jac' = mat_transpose_null_space jac) /\
    (no_subspace_provider s -> jac' = jac /\ sys' = system s1) /\
    (_solver_configuration s = None ->
     snes_calls (setup_snes setup) = snes_calls snes1 ++ solve_calls PETSC_VERSION r s) /\
    system (setup_solver setup)
    = match user_presolve s with Some presolve => presolve sys' | None => sys' end /\
    _preconditioner (setup_solver setup)
    = option_map (fun p => pc_init (pc_set_matrix jac p)) (_preconditioner s1).
Proof.
  intros Hc.
  destruct (init_ok PETSC_VERSION None s Hc) as (s1 & E1 & [snes1 Es1] & Hs1 & Hi1).
  destruct (solve_setup_parts jac x r s s1 snes1 E1 Es1 Hs1) as (snes3 & C3 & E).
  set (s3 := set_snes (Some snes3) s1) in *.
  destruct (subspace_blocks_effect jac s3)
    as (jac' & sys' & Eb & M & C & D & V33 & V36 & N).
  rewrite Eb in E. cbn [bind] in E.
  destruct (solve_tail_effect jac jac' (set_system sys' s3) snes3 eq_refl)
    as (setup & Et & Hj & Hcalls & Hsys & Hpre).
  rewrite Et in E.
  exists s1, snes1, jac', sys', setup.
  assert (Hset : settings (set_system sys' s3) = settings s) by exact Hs1.
  repeat split; auto.
  - now apply V33.
  - now apply V33.
  - apply N. unfold no_subspace_provider in *. subst s3. simpl.
    change (nullspace s1) with (nullspace (settings s1)).
    change (nullspace_object s1) with (nullspace_object (settings s1)).
    change (transpose_nullspace s1) with (transpose_nullspace (settings s1)).
    change (transpose_nullspace_object s1)
      with (transpose_nullspace_object (settings s1)).
    change (nearnullspace s1) with (nearnullspace (settings s1)).
    change (nearnullspace_object s1) with (nearnullspace_object (settings s1)).
    rewrite Hs1. assumption.
  - apply N. unfold no_subspace_provider in *. subst s3. simpl.
    change (nullspace s1) with (nullspace (settings s1)).
    change (nullspace_object s1) with (nullspace_object (settings s1)).
    change (transpose_nullspace s1) with (transpose_nullspace (settings s1)).
    change (transpose_nullspace_object s1)
      with (transpose_nullspace_object (settings s1)).
    change (nearnullspace s1) with (nearnullspace (settings s1)).
    change (nearnullspace_object s1) with (nearnullspace_object (settings s1)).
    rewrite Hs1. assumption.
  - intros Hcfg. rewrite Hcalls.
    + rewrite C3. unfold solve_calls, tail_calls.
      change (initial_linear_tolerance (set_system sys' s3))
        with (initial_linear_tolerance (settings (set_system sys' s3))).
      rewrite <- app_assoc. unfold tail_calls. rewrite Hset. reflexivity.
    + change (_solver_configuration (settings (set_system sys' s3)) = None).
      rewrite Hset. exact Hcfg.
  - rewrite Hsys.
    change (user_presolve (set_system sys' s3))
      with (user_presolve (settings (set_system sys' s3))).
    rewrite Hset. reflexivity.
Qed.


(** X24.  The engine calls of a [solve] on a context that is not
    initialized and has no [SolverConfiguration] hook, in order: those of
    [init], the registration of the residual callback, that of the
    Jacobian callback when [solve] makes it, the linear and the nonlinear
    tolerances as the settings give them, and last the command-line
    options, which therefore come after the tolerances of the settings. *)
Theorem solve_engine_script jac x r s :
  _is_initialized s = false -> _solver_configuration s = None ->
  exists setup,
    solve_setup PETSC_VERSION jac x r s = Ok setup /\
    snes_calls (setup_snes setup)
    = init_calls PETSC_VERSION None s ++ postcheck_registration s
      ++ solve_calls PETSC_VERSION r s.
Proof.
  intros Hi Hcfg.
  assert (Hc : handle_consistent s).
  { unfold handle_consistent. rewrite Hi. discriminate. }
  destruct (solve_setup_shape jac x r s Hc)
    as (s1 & snes1 & jac' & sys' & setup & E1 & Es1 & E & _ & _ & _ & _ & _ & _
        & _ & Hcalls & _).
  destruct (init_fresh PETSC_VERSION None s Hi Hcfg) as (s1' & snes1' & E1' & Es1' & Ec & _).
  rewrite E1 in E1'. injection E1' as <-.
  rewrite Es1 in Es1'. injection Es1' as <-.
  exists setup. split; [exact E|].
  rewrite (Hcalls Hcfg), Ec, <- app_assoc. reflexivity.
Qed.

(** X25.  What [solve] does to the Jacobian matrix before the engine
    runs: it never touches its entries; compiled against PETSc older than
    3.3 it leaves the matrix as it is, and older than 3.6 it leaves the
    transpose null space as it is; without any subspace provider it leaves
    the matrix as it is, and the system is then the one the pre-solve hook,
    if any, makes of the system on entry. *)
Theorem solve_subspace_gating jac x r s :
  handle_consistent s ->
  exists setup,
    solve_setup PETSC_VERSION jac x r s = Ok setup /\
    _mat (setup_jac setup) = _mat jac /\
    _mat_is_closed (setup_jac setup) = _mat_is_closed jac /\
    (PETSC_VERSION_LESS_THAN PETSC_VERSION 3 3 0 = true ->
     setup_jac setup = jac) /\
    (PETSC_VERSION_LESS_THAN PETSC_VERSION 3 6 0 = true ->
     mat_transpose_null_space (setup_jac setup) = mat_transpose_null_space jac) /\
    (no_subspace_provider s ->
     setup_jac setup = jac /\
     system (setup_solver setup)
     = match user_presolve s with
       | Some presolve => presolve (system s)
       | None => system s
       end).
Proof.
  intros Hc.
  destruct (solve_setup_shape jac x r s Hc)
    as (s1 & snes1 & jac' & sys' & setup & E1 & Es1 & E & Hj & M & C & _ & V33
        & V36 & N & _ & Hsys & _).
  destruct (init_keeps_results PETSC_VERSION None s s1 E1) as (Hs1 & _).
  exists setup. rewrite Hj. repeat split; auto.
  - now apply V33.
  - now apply N.
  - rewrite Hsys. destruct (N H) as [_ ->]. now rewrite Hs1.
Qed.

(** X26.  [solve] always reaches the engine call, and its outcome follows
    the engine's.  When the engine call fails, or returns a non-zero
    status, [solve] ends in that failure.  When it returns status zero,
    [solve] returns the engine's iteration count and the 2-norm of the
    engine's last function value, which is never negative, and the system
    of the context is the one the engine left with the constraints
    enforced on its canonical solution.  (Nothing is said of the solution
    vector argument: it is that canonical solution when the system itself
    calls [solve].) *)
Theorem solve_outcome_follows_engine jac x r s :
  handle_consistent s ->
  exists setup,
    solve_setup PETSC_VERSION jac x r s = Ok setup /\
    (forall f,
        SNESSolve (setup_snes setup) (setup_solver setup) (setup_jac setup) x r
        = Fail f ->
        solve enforce_on PETSC_VERSION SNESSolve jac x r s = Fail f) /\
    (forall run,
        SNESSolve (setup_snes setup) (setup_solver setup) (setup_jac setup) x r
        = Ok run ->
        run_ierr run <> 0%Z ->
        solve enforce_on PETSC_VERSION SNESSolve jac x r s
        = Fail (Petsc_error (run_ierr run))) /\
    (forall run,
        SNESSolve (setup_snes setup) (setup_solver setup) (setup_jac setup) x r
        = Ok run ->
        run_ierr run = 0%Z ->
        exists ret,
          solve enforce_on PETSC_VERSION SNESSolve jac x r s = Ok ret /\
          n_iterations ret
          = cast_int_unsigned (snes_iteration_number (run_snes run)) /\
          final_residual_norm ret = VecNorm (snes_function (run_snes run)) /\
          (0 <= final_residual_norm ret)%R /\
          system (solve_solver ret)
          = enforce_constraints_exactly enforce_on (run_system run)).
Proof.
  intros Hc.
  destruct (solve_setup_ok PETSC_VERSION jac x r s Hc) as (st & E & _ & _ & Hi).
  exists st. split; [exact E|]. unfold solve. rewrite E. simpl.
  split; [|split].
  - intros f ->. reflexivity.
  - intros run -> Hne. simpl. unfold solve_finish.
    apply Z.eqb_neq in Hne. rewrite Hne. reflexivity.
  - intros run -> Hierr. simpl.
    unfold solve_finish. rewrite Hierr. simpl.
    unfold clear. simpl. rewrite Hi. simpl.
    eexists; split; [reflexivity|]. simpl.
    repeat split. unfold VecNorm. apply sqrt_pos.
Qed.

(** A [solve] whose engine call returns with status zero returns. *)
Lemma solve_returns jac x r s :
  handle_consistent s ->
  (forall snes s' jac' x' r',
      exists run, SNESSolve snes s' jac' x' r' = Ok run /\ run_ierr run = 0%Z) ->
  exists ret, solve enforce_on PETSC_VERSION SNESSolve jac x r s = Ok ret.
Proof.
  intros Hc Heng.
  destruct (solve_setup_ok PETSC_VERSION jac x r s Hc) as (st & E & _).
  unfold solve. rewrite E. cbn [bind].
  destruct (Heng (setup_snes st) (setup_solver st) (setup_jac st) x r)
    as (run & -> & Hz).
  cbn [bind]. unfold solve_finish. rewrite Hz. simpl.
  eexists. reflexivity.
Qed.

(** X27.  A [solve] that returns leaves the context cleared: not
    initialized, without a handle, with the iteration counter back to 0
    and the settings as they were.  The reason and the number of linear
    iterations it recorded are those of the handle the engine call of this
    very [solve] returned, and they are what [get_converged_reason], which
    then no longer asks the engine and changes nothing, and
    [get_total_linear_iterations] return. *)
Theorem solve_leaves_context_cleared jac x r s ret :
  solve enforce_on PETSC_VERSION SNESSolve jac x r s = Ok ret ->
  handle_consistent s ->
  _is_initialized (solve_solver ret) = false /\
  _snes (solve_solver ret) = None /\
  _current_nonlinear_iteration_number (solve_solver ret) = 0%Z /\
  settings (solve_solver ret) = settings s /\
  handle_consistent (solve_solver ret) /\
  get_converged_reason (solve_solver ret)
  = Ok (_reason (solve_solver ret), solve_solver ret) /\
  exists setup run,
    solve_setup PETSC_VERSION jac x r s = Ok setup /\
    SNESSolve (setup_snes setup) (setup_solver setup) (setup_jac setup) x r
    = Ok run /\
    run_ierr run = 0%Z /\
    _reason (solve_solver ret) = snes_converged_reason (run_snes run) /\
    get_converged_reason (solve_solver ret)
    = Ok (snes_converged_reason (run_snes run), solve_solver ret) /\
    get_total_linear_iterations (solve_solver ret)
    = snes_linear_solve_iterations (run_snes run).
Proof.
  intros H Hc. revert H.
  destruct (solve_setup_ok PETSC_VERSION jac x r s Hc) as (st & E & _ & Hs & Hi).
  unfold solve. rewrite E. simpl.
  destruct (SNESSolve (setup_snes st) (setup_solver st) (setup_jac st) x r)
    as [run|] eqn:Erun; simpl; [|discriminate].
  unfold solve_finish.
  destruct (run_ierr run =? 0)%Z eqn:Ez; simpl; [|discriminate].
  unfold clear. simpl. rewrite Hi. simpl.
  intros H. injection H as <-. simpl.
  unfold handle_consistent, get_converged_reason, get_total_linear_iterations.
  simpl. repeat split; auto; try discriminate.
  exists st, run. repeat split; auto. now apply Z.eqb_eq.
Qed.

End Orchestrator.

(** *** The statements above at concrete contexts *)

Lemma residual_result_is_the_forms_witness :
  exists ret form,
    __libmesh_petsc_snes_residual plain_copy no_constraints SNES_created
      [1%R] [0%R] matvec_only = Ok ret /\
    res_invoked ret = [form] /\ res_x ret = [1%R].
Proof.
  destruct (@residual_result_is_the_forms plain_copy no_constraints
              SNES_created [1%R] [0%R] matvec_only _ eq_refl)
    as (form & R' & sys' & Hi & _ & _ & _ & Hx & _).
  eexists _, form. split; [reflexivity|]. split; [exact Hi|exact Hx].
Defined.

Lemma jacobian_callback_effects_witness :
  exists ret form,
    __libmesh_petsc_snes_jacobian plain_copy no_constraints SNES_created
      [1%R] a_matrix a_matrix matvec_only = Ok ret /\
    jac_invoked ret = [form] /\ jac_x ret = [1%R].
Proof.
  destruct (@jacobian_callback_effects plain_copy no_constraints
              SNES_created [1%R] a_matrix a_matrix matvec_only _ eq_refl)
    as (form & PC' & sys' & Hi & _ & _ & _ & _ & _ & Hx & _).
  eexists _, form. split; [reflexivity|]. split; [exact Hi|exact Hx].
Defined.

Lemma postcheck_flags_are_the_users_witness :
  exists ret,
    __libmesh_petsc_snes_postcheck no_constraints [1%R] [1%R] [2%R]
      (with_postcheck a_moving_postcheck 0) = Ok ret /\
    changed_y ret = false /\ changed_w ret = true.
Proof.
  destruct (@postcheck_flags_are_the_users no_constraints [1%R] [1%R] [2%R]
              (with_postcheck a_moving_postcheck 0) a_moving_postcheck
              F_postcheck eq_refl)
    as (ret & E & _ & Hy & Hw & _).
  exists ret. split; [exact E|]. split; [exact Hy|exact Hw].
Defined.

Lemma postcheck_enforces_on_candidate_witness :
  exists ret,
    __libmesh_petsc_snes_postcheck no_constraints [1%R] [1%R] [2%R]
      (with_postcheck a_postcheck 1) = Ok ret /\
    system (post_solver ret) = sys0 1 /\ post_w ret = [2%R].
Proof.
  eexists. split; [reflexivity|].
  exact (@postcheck_enforces_on_candidate no_constraints [1%R] [1%R] [2%R]
           (with_postcheck a_postcheck 1) _ eq_refl).
Defined.

Lemma init_fresh_registrations_witness :
  exists s' snes rest,
    init (3, 7, 0) None (constructed no_forms (sys0 0)) = Ok s' /\
    _snes s' = Some snes /\ snes_calls snes = SNESCreate :: rest /\
    In (SNESMonitorSet __libmesh_petsc_snes_monitor_cb) rest /\
    ~ In (SNESLineSearchSetPostCheck __libmesh_petsc_snes_postcheck_cb) rest.
Proof.
  destruct (@init_fresh_registrations (3, 7, 0) None
              (constructed no_forms (sys0 0)) eq_refl eq_refl)
    as (s' & snes & rest & E & Es & _ & _ & Ec & Hmon & Hpc & _).
  exists s', snes, rest. split; [exact E|]. split; [exact Es|].
  split; [exact Ec|]. split.
  - apply Hmon. reflexivity.
  - intros H. apply Hpc in H. discriminate H.
Defined.

Lemma init_twice_witness :
  exists s1 s2 snes1 snes2,
    init (3, 7, 0) None (with_postcheck a_postcheck 0) = Ok s1 /\
    _snes s1 = Some snes1 /\
    init (3, 7, 0) None s1 = Ok s2 /\ _snes s2 = Some snes2 /\
    snes_calls snes2
    = snes_calls snes1
      ++ [SNESLineSearchSetPostCheck __libmesh_petsc_snes_postcheck_cb].
Proof.
  destruct (@init_twice (3, 7, 0) None None (with_postcheck a_postcheck 0)
              (@constructed_handle_consistent _ _))
    as (s1 & s2 & snes1 & snes2 & E1 & Es1 & E2 & Es2 & Ec & _).
  exists s1, s2, snes1, snes2. repeat split; assumption.
Defined.

Lemma clear_after_init_witness :
  exists s1,
    init (3, 7, 0) None (constructed no_forms (sys0 0)) = Ok s1 /\
    _is_initialized (clear s1) = false /\ _snes (clear s1) = None.
Proof.
  destruct (@clear_after_init (3, 7, 0) None (constructed no_forms (sys0 0))
              (@constructed_handle_consistent _ _))
    as (s1 & E & Hi & Hs & _).
  exists s1. repeat split; assumption.
Defined.

Lemma solve_engine_script_witness :
  exists setup,
    solve_setup (3, 7, 0) a_matrix (PetscVector_of_Vec [1%R])
                (PetscVector_of_Vec [0%R]) matvec_only = Ok setup /\
    snes_calls (setup_snes setup)
    = [SNESCreate; SNESSetDM None;
       SNESMonitorSet __libmesh_petsc_snes_monitor_cb;
       SNESSetFunction [0%R] __libmesh_petsc_snes_residual_cb;
       KSPSetTolerances 0%R 10000%Z;
       SNESSetTolerances 0%R 0%R 0%R 50%Z 10000%Z;
       SNESSetFromOptions].
Proof.
  exact (@solve_engine_script (3, 7, 0) a_matrix (PetscVector_of_Vec [1%R])
           (PetscVector_of_Vec [0%R]) matvec_only eq_refl eq_refl).
Defined.

Lemma solve_subspace_gating_witness :
  exists setup,
    solve_setup (3, 7, 0) a_matrix (PetscVector_of_Vec [1%R])
                (PetscVector_of_Vec [0%R]) (constructed no_forms (sys0 0))
    = Ok setup /\
    setup_jac setup = a_matrix.
Proof.
  destruct (@solve_subspace_gating (3, 7, 0) a_matrix
              (PetscVector_of_Vec [1%R]) (PetscVector_of_Vec [0%R])
              (constructed no_forms (sys0 0))
              (@constructed_handle_consistent _ _))
    as (setup & E & _ & _ & _ & _ & H).
  exists setup. split; [exact E|]. apply H. repeat split.
Defined.

Lemma solve_outcome_follows_engine_witness :
  solve no_constraints (3, 7, 0) failing_engine a_matrix
        (PetscVector_of_Vec [1%R]) (PetscVector_of_Vec [0%R])
        (constructed no_forms (sys0 0))
  = Fail (Petsc_error 73).
Proof.
  destruct (@solve_outcome_follows_engine no_constraints (3, 7, 0)
              failing_engine a_matrix
              (PetscVector_of_Vec [1%R]) (PetscVector_of_Vec [0%R])
              (constructed no_forms (sys0 0))
              (@constructed_handle_consistent _ _))
    as (setup & _ & _ & H & _).
  apply (H _ eq_refl). discriminate.
Defined.

Lemma diverging_engine_returns snes s jac x r :
  exists run, diverging_engine snes s jac x r = Ok run /\ run_ierr run = 0%Z.
Proof. eexists. split; reflexivity. Qed.

Lemma solve_leaves_context_cleared_witness :
  exists ret,
    solve no_constraints (3, 7, 0) diverging_engine a_matrix
          (PetscVector_of_Vec [1%R]) (PetscVector_of_Vec [0%R])
          (constructed no_forms (sys0 0)) = Ok ret /\
    _is_initialized (solve_solver ret) = false /\
    _snes (solve_solver ret) = None /\
    get_converged_reason (solve_solver ret)
    = Ok (_reason (solve_solver ret), solve_solver ret).
Proof.
  destruct (@solve_returns no_constraints (3, 7, 0) diverging_engine a_matrix
              (PetscVector_of_Vec [1%R]) (PetscVector_of_Vec [0%R])
              (constructed no_forms (sys0 0))
              (@constructed_handle_consistent _ _)
              diverging_engine_returns) as [ret E].
  exists ret. split; [exact E|].
  destruct (@solve_leaves_context_cleared no_constraints (3, 7, 0)
              diverging_engine a_matrix
              (PetscVector_of_Vec [1%R]) (PetscVector_of_Vec [0%R])
              (constructed no_forms (sys0 0)) ret E
              (@constructed_handle_consistent _ _))
    as (Hi & Hs & _ & _ & _ & Hg & _).
  split; [exact Hi|]. split; [exact Hs|exact Hg].
Defined.

End PetscMore.

(* ================================================================== *)
(** ** Gram-Schmidt in [build_mat_null_space] *)

Module GramSchmidt.
Import Petsc PetscSpec.
Local Open Scope R_scope.

(** *** The vector primitives *)
Lemma VecAXPY_length y a x : length (VecAXPY y a x) = length y.
Proof.
  revert x; induction y as [|b y IH]; intros [|c x]; simpl; auto.
Qed.

Lemma VecScale_length x a : length (VecScale x a) = length x.
Proof. unfold VecScale. apply length_map. Qed.

Lemma VecDot_comm x y : VecDot x y = VecDot y x.
Proof.
  revert y; induction x as [|a x IH]; intros [|b y]; simpl; auto.
  rewrite IH. ring.
Qed.

Lemma VecDot_AXPY_l y a x z :
  length x = length y -> VecDot (VecAXPY y a x) z = VecDot y z + a * VecDot x z.
Proof.
  revert x z; induction y as [|b y IH]; intros [|c x] [|d z] H; simpl in *;
    try discriminate; try ring.
  rewrite IH by congruence. ring.
Qed.

Lemma VecDot_scale_l x a z : VecDot (VecScale x a) z = a * VecDot x z.
Proof.
  revert z; induction x as [|b x IH]; intros [|d z]; simpl; try ring.
  unfold VecScale in IH. rewrite IH. ring.
Qed.

Lemma VecDot_self_nonneg x : 0 <= VecDot x x.
Proof.
  induction x as [|a x IH]; simpl; [lra|]. nra.
Qed.

Lemma VecDot_self_zero x : VecDot x x = 0 -> x = repeat 0 (length x).
Proof.
  induction x as [|a x IH]; simpl; intros H; [reflexivity|].
  pose proof (VecDot_self_nonneg x) as Hx.
  assert (Ha : a = 0) by nra.
  assert (Hx0 : VecDot x x = 0) by nra.
  rewrite <- IH by exact Hx0. now rewrite Ha.
Qed.

Lemma VecNorm_zero_iff x : VecNorm x = 0 <-> VecDot x x = 0.
Proof.
  unfold VecNorm. split.
  - intros H. apply sqrt_eq_0 in H; [exact H|apply VecDot_self_nonneg].
  - intros ->. apply sqrt_0.
Qed.

Lemma VecNormalize_length x : length (VecNormalize x) = length x.
Proof.
  unfold VecNormalize. destruct (Req_dec_T _ _); auto using VecScale_length.
Qed.

Lemma VecNormalize_dot x z :
  exists c, VecDot (VecNormalize x) z = c * VecDot x z.
Proof.
  unfold VecNormalize. destruct (Req_dec_T _ _).
  - exists 1. ring.
  - eexists. apply VecDot_scale_l.
Qed.

Lemma VecNormalize_unit x :
  VecDot x x <> 0 -> VecDot (VecNormalize x) (VecNormalize x) = 1.
Proof.
  intros H. unfold VecNormalize.
  destruct (Req_dec_T _ _) as [E|E].
  - apply VecNorm_zero_iff in E. contradiction.
  - rewrite VecDot_scale_l, VecDot_comm, VecDot_scale_l.
    unfold VecNorm in *.
    pose proof (sqrt_sqrt (VecDot x x) (VecDot_self_nonneg x)) as Hs.
    set (q := sqrt (VecDot x x)) in *.
    rewrite <- Hs. field. exact E.
Qed.

Lemma unit_norm_of_dot x : VecDot x x = 1 -> VecNorm x = 1.
Proof. intros H. unfold VecNorm. rewrite H. apply sqrt_1. Qed.


(** Entrywise identities of [VecAXPY] and [VecScale]. *)
Lemma VecAXPY_zero_r y a m : VecAXPY y a (repeat 0 m) = y.
Proof.
  revert m; induction y as [|b y IH]; intros [|m]; simpl; auto.
  rewrite IH. f_equal. ring.
Qed.

Lemma VecAXPY_zero_l x n : length x = n -> VecAXPY (repeat 0 n) 1 x = x.
Proof.
  revert n; induction x as [|c x IH]; intros [|n] H; simpl in *; try discriminate; auto.
  rewrite IH by congruence. f_equal. ring.
Qed.

Lemma VecAXPY_assoc y a x c s :
  length x = length y -> length s = length y ->
  VecAXPY y a (VecAXPY x c s) = VecAXPY (VecAXPY y a x) (a * c) s.
Proof.
  revert x s; induction y as [|b y IH]; intros [|d x] [|e s] H1 H2; simpl in *;
    try discriminate; auto.
  rewrite IH by congruence. f_equal. ring.
Qed.

Lemma VecAXPY_undo y a x :
  length x = length y -> VecAXPY (VecAXPY y a x) (a * -1) x = y.
Proof.
  revert x; induction y as [|b y IH]; intros [|d x] H; simpl in *;
    try discriminate; auto.
  rewrite IH by congruence. f_equal. ring.
Qed.

Lemma VecScale_zero a n : VecScale (repeat 0 n) a = repeat 0 n.
Proof.
  induction n; simpl; auto. unfold VecScale in *. rewrite IHn. f_equal. ring.
Qed.

Lemma VecScale_AXPY y c s a :
  VecScale (VecAXPY y c s) a = VecAXPY (VecScale y a) (a * c) s.
Proof.
  revert s; induction y as [|b y IH]; intros [|e s]; simpl; auto.
  unfold VecScale in *. rewrite IH. f_equal. ring.
Qed.

(** *** Linear combinations *)
Section Span.
Variable n : nat.
Variable S : list Vec.
Hypothesis HS : same_dim n S.

Lemma span_length x : span n S x -> length x = n.
Proof.
  induction 1 as [|y a x _ IH Hin].
  - apply repeat_length.
  - now rewrite VecAXPY_length.
Qed.

Lemma in_same_dim x : In x S -> length x = n.
Proof. intros H. unfold same_dim in HS. rewrite Forall_forall in HS. auto. Qed.

Lemma span_member x : In x S -> span n S x.
Proof.
  intros H. rewrite <- (VecAXPY_zero_l x n (in_same_dim x H)).
  apply span_axpy; [apply span_zero|exact H].
Qed.

Lemma span_axpy_span y a x : span n S y -> span n S x -> span n S (VecAXPY y a x).
Proof.
  intros Hy Hx. revert y Hy. induction Hx as [|x c s Hx IH Hin]; intros y Hy.
  - now rewrite VecAXPY_zero_r.
  - rewrite VecAXPY_assoc.
    + apply span_axpy; [now apply IH|exact Hin].
    + rewrite (span_length _ Hx), (span_length _ Hy); reflexivity.
    + rewrite (in_same_dim _ Hin), (span_length _ Hy); reflexivity.
Qed.

Lemma span_scale x a : span n S x -> span n S (VecScale x a).
Proof.
  induction 1 as [|y c s Hy IH Hin].
  - rewrite VecScale_zero. apply span_zero.
  - rewrite VecScale_AXPY. now apply span_axpy.
Qed.

Lemma span_normalize x : span n S x -> span n S (VecNormalize x).
Proof.
  intros H. unfold VecNormalize. destruct (Req_dec_T _ _); auto using span_scale.
Qed.
End Span.

Lemma span_mono n S S' x : incl S S' -> span n S x -> span n S' x.
Proof.
  intros Hi. induction 1; [apply span_zero|apply span_axpy; auto].
Qed.

Lemma combine_map_self {A B : Type} (g : A -> B) (l : list A) :
  combine (map g l) l = map (fun u => (g u, u)) l.
Proof. induction l as [|u l IH]; simpl; congruence. Qed.

Lemma fold_left_map_arg {A B C : Type} (f : A -> B -> A) (h : C -> B) l a :
  fold_left f (map h l) a = fold_left (fun a u => f a (h u)) l a.
Proof. revert a; induction l as [|u l IH]; intros a; simpl; auto. Qed.

Lemma VecMAXPY_MDot y k modes :
  VecMAXPY y k (map (fun d => d * -1) (VecMDot y k modes)) modes
  = project_out y (firstn k modes) y.
Proof.
  unfold VecMAXPY, VecMDot, project_out.
  rewrite map_map.
  rewrite (firstn_all2 (n := k)) by (rewrite length_map; apply firstn_le_length).
  rewrite combine_map_self, fold_left_map_arg. reflexivity.
Qed.

(** *** The [modes] array *)
Lemma nth_upd_same {A : Type} (l : list A) i x d :
  (i < length l)%nat -> nth i (upd l i x) d = x.
Proof.
  revert i; induction l as [|h t IH]; intros [|i] H; simpl in *; try lia; auto.
  apply IH. lia.
Qed.

Lemma upd_upd {A : Type} (l : list A) i x y : upd (upd l i x) i y = upd l i y.
Proof.
  revert i; induction l as [|h t IH]; intros [|i]; simpl; auto. now rewrite IH.
Qed.

Lemma firstn_upd {A : Type} (l : list A) k x : firstn k (upd l k x) = firstn k l.
Proof.
  revert k; induction l as [|h t IH]; intros [|k]; simpl; auto. now rewrite IH.
Qed.

Lemma firstn_S_upd {A : Type} (l : list A) k x :
  (k < length l)%nat -> firstn (S k) (upd l k x) = firstn k l ++ [x].
Proof.
  revert k; induction l as [|h t IH]; intros [|k] H; simpl in *; try lia; auto.
  rewrite <- IH by lia. reflexivity.
Qed.

Lemma skipn_S_upd {A : Type} (l : list A) k x : skipn (S k) (upd l k x) = skipn (S k) l.
Proof.
  revert k; induction l as [|h t IH]; intros [|k]; simpl; auto.
  apply (IH k).
Qed.

Lemma skipn_nth {A : Type} (l : list A) k d :
  (k < length l)%nat -> skipn k l = nth k l d :: skipn (S k) l.
Proof.
  revert k; induction l as [|h t IH]; intros [|k] H; simpl in *; try lia; auto.
  apply IH. lia.
Qed.

Lemma orthonormalize_mode_eq modes k :
  (k < length modes)%nat ->
  orthonormalize_mode modes k =
  upd modes k (VecNormalize
                 (project_out (nth k modes []) (firstn k modes) (nth k modes []))).
Proof.
  intros H. unfold orthonormalize_mode.
  rewrite nth_upd_same by exact H. rewrite upd_upd, VecMAXPY_MDot. reflexivity.
Qed.

Lemma ortho_snoc us w :
  ortho us -> Forall (fun u => VecDot u w = 0) us -> VecDot w w = 1 ->
  ortho (us ++ [w]).
Proof.
  induction us as [|u us IH]; simpl; intros Ho Hw Hww.
  - auto.
  - destruct Ho as (Huu & Hur & Ho). inversion Hw; subst.
    split; [exact Huu|]. split; [|now apply IH].
    apply Forall_app. split; [exact Hur|]. constructor; auto.
Qed.

Lemma project_out_dot y0 n us acc z :
  length acc = n -> same_dim n us ->
  VecDot (project_out y0 us acc) z
  = VecDot acc z - sumR (map (fun u => VecDot y0 u * VecDot u z) us).
Proof.
  intros Hacc Hus. revert acc Hacc.
  induction Hus as [|u us Hu Hus IH]; intros acc Hacc; simpl.
  - ring.
  - unfold project_out in *. rewrite IH by (rewrite VecAXPY_length; exact Hacc).
    rewrite VecDot_AXPY_l by congruence. ring.
Qed.

Lemma sumR_zero {A : Type} (f g : A -> R) l :
  Forall (fun u => g u = 0) l -> sumR (map (fun u => f u * g u) l) = 0.
Proof.
  induction 1 as [|u l Hu Hl IH]; simpl; [reflexivity|]. rewrite IH, Hu. ring.
Qed.

Lemma ortho_sum (f : Vec -> R) us z :
  ortho us -> In z us ->
  sumR (map (fun u => f u * VecDot u z) us) = f z.
Proof.
  induction us as [|u us IH]; simpl; intros Ho Hin; [contradiction|].
  destruct Ho as (Huu & Hur & Ho). destruct Hin as [->|Hin].
  - rewrite Huu. rewrite sumR_zero.
    + ring.
    + rewrite Forall_forall in *. intros w Hw. rewrite VecDot_comm. auto.
  - rewrite IH by assumption.
    rewrite Forall_forall in Hur. rewrite (Hur z Hin). ring.
Qed.

Lemma project_out_orthogonal y0 n us z :
  length y0 = n -> same_dim n us -> ortho us -> In z us ->
  VecDot (project_out y0 us y0) z = 0.
Proof.
  intros Hy Hus Ho Hin.
  rewrite (project_out_dot y0 n us y0 z Hy Hus).
  rewrite (ortho_sum (fun u => VecDot y0 u) us z Ho Hin). ring.
Qed.

Lemma project_out_length y0 us acc : length (project_out y0 us acc) = length acc.
Proof.
  unfold project_out. revert acc; induction us as [|u us IH]; intros acc; simpl; auto.
  rewrite IH. apply VecAXPY_length.
Qed.

Lemma project_out_span n S y0 us acc :
  same_dim n S -> Forall (span n S) us -> span n S acc ->
  span n S (project_out y0 us acc).
Proof.
  intros HS Hus. revert acc. unfold project_out.
  induction Hus as [|u us Hu Hus IH]; intros acc Hacc; simpl; auto.
  apply IH. now apply span_axpy_span.
Qed.

Lemma project_out_span_inv n S y0 us acc :
  same_dim n S -> Forall (span n S) us -> length acc = n ->
  span n S (project_out y0 us acc) -> span n S acc.
Proof.
  intros HS Hus. revert acc. unfold project_out.
  induction Hus as [|u us Hu Hus IH]; intros acc Hacc; simpl; auto.
  intros H. apply IH in H; [|now rewrite VecAXPY_length].
  rewrite <- (VecAXPY_undo acc (VecDot y0 u * -1) u).
  - now apply span_axpy_span.
  - rewrite (span_length n S u Hu). now symmetry.
Qed.


Lemma Forall_upd {A : Type} (P : A -> Prop) l i x :
  Forall P l -> P x -> Forall P (upd l i x).
Proof.
  intros Hl Hx. revert i. induction Hl as [|h t Hh Ht IH]; intros [|i]; simpl;
    constructor; auto.
Qed.

Lemma firstn_S_nth {A : Type} (l : list A) k d :
  (k < length l)%nat -> firstn (S k) l = firstn k l ++ [nth k l d].
Proof.
  revert k; induction l as [|h t IH]; intros [|k] H; simpl in *; try lia; auto.
  rewrite <- IH by lia. reflexivity.
Qed.

Lemma Forall_firstn {A : Type} (P : A -> Prop) k l : Forall P l -> Forall P (firstn k l).
Proof.
  intros H. revert k. induction H as [|h t Hh Ht IH]; intros [|k]; simpl;
    constructor; auto.
Qed.

Section Loop.
Variable n : nat.
Variable vs : list Vec.
Hypothesis Hdim : same_dim n vs.
Hypothesis Hind : independent_of_earlier n vs.

Lemma Inv_start : Inv n vs 0 vs.
Proof. constructor; simpl; auto. Qed.

Lemma Inv_step k modes :
  Inv n vs k modes -> (k < length vs)%nat ->
  Inv n vs (S k) (orthonormalize_mode modes k).
Proof.
  intros [Hlen Hd Hrest Ho Hsp] Hk.
  assert (Hk' : (k < length modes)%nat) by lia.
  rewrite (skipn_nth modes k [] Hk'), (skipn_nth vs k [] Hk) in Hrest.
  injection Hrest as Hvk Hrest.
  rewrite orthonormalize_mode_eq by exact Hk'.
  rewrite Hvk.
  set (vk := nth k vs []).
  set (us := firstn k modes) in *.
  set (r := project_out vk us vk).
  assert (Hvkn : length vk = n).
  { unfold same_dim in Hdim. rewrite Forall_forall in Hdim. apply Hdim.
    apply nth_In. exact Hk. }
  assert (Hus : same_dim n us) by (apply Forall_firstn; exact Hd).
  assert (Hrn : length r = n) by (unfold r; now rewrite project_out_length).
  assert (Hprev : same_dim n (firstn k vs)) by (apply Forall_firstn; exact Hdim).
  assert (Hrr : VecDot r r <> 0).
  { intros E. apply (Hind k Hk). fold vk.
    apply (project_out_span_inv n (firstn k vs) vk us vk Hprev Hsp Hvkn).
    fold r. rewrite (VecDot_self_zero r E), Hrn. apply span_zero. }
  constructor.
  - now rewrite upd_length.
  - apply Forall_upd; [exact Hd|]. now rewrite VecNormalize_length.
  - rewrite skipn_S_upd. exact Hrest.
  - rewrite firstn_S_upd by exact Hk'. fold us.
    apply ortho_snoc; [exact Ho| |now apply VecNormalize_unit].
    rewrite Forall_forall. intros u Hu.
    rewrite VecDot_comm. destruct (VecNormalize_dot r u) as [c ->].
    unfold r. rewrite (project_out_orthogonal vk n us u Hvkn Hus Ho Hu). ring.
  - rewrite firstn_S_upd by exact Hk'. fold us.
    rewrite (firstn_S_nth vs k [] Hk). fold vk.
    assert (Hnext : same_dim n (firstn k vs ++ [vk])).
    { apply Forall_app. split; [exact Hprev|]. constructor; auto. }
    assert (Hold : Forall (span n (firstn k vs ++ [vk])) us).
    { rewrite Forall_forall in *. intros u Hu.
      apply (span_mono n (firstn k vs)); [apply incl_appl, incl_refl|auto]. }
    apply Forall_app. split; [exact Hold|]. constructor; [|constructor].
    apply span_normalize.
    apply project_out_span; [exact Hnext|exact Hold|].
    apply span_member; [exact Hnext|]. apply in_or_app. right. now left.
Qed.

Lemma Inv_loop m : forall k modes,
  Inv n vs k modes -> (k + m = length vs)%nat ->
  Inv n vs (length vs) (fold_left orthonormalize_mode (seq k m) modes).
Proof.
  induction m as [|m IH]; intros k modes HI Hk; simpl.
  - replace (length vs) with k by lia. exact HI.
  - apply IH; [|lia]. apply Inv_step; [exact HI|lia].
Qed.
End Loop.

Lemma ortho_orthonormal us : ortho us -> orthonormal us.
Proof.
  induction us as [|u us IH]; simpl.
  - intros _. split; intros; simpl in *; lia.
  - intros (Huu & Hur & Ho). destruct (IH Ho) as [Hn Hd].
    rewrite Forall_forall in Hur.
    split.
    + intros [|i] Hi; simpl in *.
      * now apply unit_norm_of_dot.
      * apply Hn. lia.
    + intros [|i] [|j] Hi Hj Hij; simpl in *; try lia.
      * apply Hur. apply nth_In. lia.
      * rewrite VecDot_comm. apply Hur. apply nth_In. lia.
      * apply Hd; lia.
Qed.

Lemma orthonormalize_modes_as_loop sp :
  sp <> [] ->
  orthonormalize_modes sp
  = fold_left orthonormalize_mode (seq 0 (length sp)) (map _vec sp).
Proof.
  intros Hne. unfold orthonormalize_modes.
  destruct sp as [|v sp]; [congruence|].
  cbn [length seq fold_left].
  replace (S (length sp) - 1)%nat with (length sp) by lia.
  rewrite orthonormalize_mode_eq by (simpl; lia).
  reflexivity.
Qed.

Lemma orthonormalize_modes_orthonormal n sp :
  sp <> [] -> same_dim n (map _vec sp) -> independent_of_earlier n (map _vec sp) ->
  length (orthonormalize_modes sp) = length sp /\
  same_dim n (orthonormalize_modes sp) /\
  orthonormal (orthonormalize_modes sp).
Proof.
  intros Hne Hdim Hind.
  rewrite orthonormalize_modes_as_loop by exact Hne.
  assert (Hk : (0 + length sp = length (map _vec sp))%nat)
    by (now rewrite length_map).
  destruct (Inv_loop n (map _vec sp) Hdim Hind (length sp) 0 (map _vec sp)
              (Inv_start n (map _vec sp) Hdim) Hk) as [Hlen Hd _ Ho _].
  rewrite <- Hlen, firstn_all in Ho.
  rewrite length_map in Hlen.
  split; [exact Hlen|]. split; [exact Hd|].
  apply ortho_orthonormal. exact Ho.
Qed.


Lemma lincomb_length n cs vs : length (lincomb n cs vs) = n.
Proof.
  revert vs; induction cs as [|c cs IH]; intros [|v vs]; simpl;
    try apply repeat_length.
  rewrite VecAXPY_length. apply IH.
Qed.

Lemma VecAXPY_zero_coeff y v : VecAXPY y 0 v = y.
Proof.
  revert v; induction y as [|b y IH]; intros [|a v]; simpl; auto.
  rewrite IH. f_equal. ring.
Qed.

Lemma VecAXPY_same y c a v : VecAXPY (VecAXPY y c v) a v = VecAXPY y (c + a) v.
Proof.
  revert v; induction y as [|b y IH]; intros [|d v]; simpl; auto.
  rewrite IH. f_equal. ring.
Qed.

Lemma VecAXPY_swap y a x c v :
  VecAXPY (VecAXPY y a x) c v = VecAXPY (VecAXPY y c v) a x.
Proof.
  revert x v; induction y as [|b y IH]; intros [|d x] [|e v]; simpl; auto.
  rewrite IH. f_equal. ring.
Qed.

Lemma VecAXPY_cancel v n :
  length v = n -> VecAXPY (VecAXPY (repeat 0 n) (-1) v) 1 v = repeat 0 n.
Proof.
  revert n; induction v as [|a v IH]; intros [|n] H; simpl in *;
    try discriminate; auto.
  rewrite IH by congruence. f_equal. ring.
Qed.

Lemma lincomb_zeros n m vs : lincomb n (repeat 0 m) vs = repeat 0 n.
Proof.
  revert vs; induction m as [|m IH]; intros [|v vs]; simpl; auto.
  rewrite IH. apply VecAXPY_zero_coeff.
Qed.

Lemma lincomb_add_coeff n S x a :
  In x S -> forall cs, length cs = length S ->
  exists cs', length cs' = length S /\
              lincomb n cs' S = VecAXPY (lincomb n cs S) a x.
Proof.
  induction S as [|v S IH]; intros Hin [|c cs] Hl; simpl in *;
    try contradiction; try discriminate.
  destruct Hin as [->|Hin].
  - exists ((c + a) :: cs). split; [simpl; congruence|].
    simpl. now rewrite VecAXPY_same.
  - destruct (IH Hin cs) as (cs' & Hl' & E); [congruence|].
    exists (c :: cs'). split; [simpl; congruence|].
    simpl. rewrite E. apply VecAXPY_swap.
Qed.

Lemma span_lincomb n S x :
  span n S x -> exists cs, length cs = length S /\ lincomb n cs S = x.
Proof.
  induction 1 as [|y a x _ (cs & Hl & E) Hin].
  - exists (repeat 0 (length S)). split; [apply repeat_length|apply lincomb_zeros].
  - destruct (lincomb_add_coeff n S x a Hin cs Hl) as (cs' & Hl' & E').
    exists cs'. split; [exact Hl'|]. now rewrite E', E.
Qed.

Lemma lincomb_app n cs S1 ds S2 :
  length cs = length S1 -> same_dim n S1 ->
  lincomb n (cs ++ ds) (S1 ++ S2)
  = VecAXPY (lincomb n ds S2) 1 (lincomb n cs S1).
Proof.
  revert S1; induction cs as [|c cs IH]; intros [|v S1] Hl Hd; simpl in *;
    try discriminate.
  - now rewrite VecAXPY_zero_r.
  - inversion Hd; subst. rewrite IH by (auto; congruence).
    rewrite VecAXPY_assoc.
    + now rewrite Rmult_1_l.
    + now rewrite !lincomb_length.
    + now rewrite lincomb_length.
Qed.

(** Among linearly independent vectors none is a linear combination of the
    ones before it. *)
Lemma linearly_independent_of_earlier n vs :
  same_dim n vs -> linearly_independent n vs -> independent_of_earlier n vs.
Proof.
  intros Hd Hnt k Hk Hspan.
  destruct (span_lincomb _ _ _ Hspan) as (cs & Hl & E).
  set (vk := nth k vs []) in *.
  assert (Hvs : vs = firstn k vs ++ vk :: skipn (S k) vs).
  { rewrite <- (firstn_skipn k vs) at 1. f_equal. now apply skipn_nth. }
  assert (Hvk : length vk = n).
  { unfold same_dim in Hd. rewrite Forall_forall in Hd. apply Hd, nth_In, Hk. }
  set (ds := (-1) :: repeat 0 (length (skipn (S k) vs))).
  assert (Hz : Forall (fun c => c = 0) (cs ++ ds)).
  { apply Hnt.
    - pose proof (f_equal (@length Vec) Hvs) as Hlen.
      rewrite length_app in Hlen. simpl in Hlen.
      rewrite length_app, Hl. unfold ds. simpl. rewrite repeat_length. lia.
    - rewrite Hvs at 1. rewrite lincomb_app; [|exact Hl|now apply Forall_firstn].
      unfold ds. simpl. rewrite lincomb_zeros, E.
      now apply VecAXPY_cancel. }
  apply Forall_app in Hz as [_ Hz]. unfold ds in Hz. inversion Hz; subst. lra.
Qed.

(** C8 (as amended).  A provider that supplies no vector leaves [*msp]
    null, so that [solve] attaches nothing to the matrix; a provider that
    supplies N >= 1 linearly independent vectors of one dimension yields a
    basis of N vectors, each of unit norm and any two distinct ones
    orthogonal, which is what gets attached. *)
Theorem null_space_basis_orthonormal
    (computeSubspaceObject computeSubspace : option subspace_fn)
    (this : PetscNonlinearSolver) (p : subspace_fn)
    (sp : list PetscVector) (sys' : NonlinearImplicitSystem) (n : nat) :
  provider computeSubspaceObject computeSubspace = Some p ->
  p (system this) = (sp, sys') ->
  (sp = [] ->
   build_mat_null_space computeSubspaceObject computeSubspace this
   = Ok (None, set_system sys' this) /\
   forall MatSet jac,
     attach_subspace computeSubspaceObject computeSubspace MatSet jac this
     = Ok (jac, set_system sys' this)) /\
  (sp <> [] -> same_dim n (map _vec sp) -> linearly_independent n (map _vec sp) ->
   exists basis,
     build_mat_null_space computeSubspaceObject computeSubspace this
     = Ok (Some basis, set_system sys' this) /\
     length basis = length sp /\
     orthonormal basis /\
     forall MatSet jac,
       attach_subspace computeSubspaceObject computeSubspace MatSet jac this
       = Ok (MatSet jac basis, set_system sys' this)).
Proof.
  intros Hp Hsp.
  assert (E : build_mat_null_space computeSubspaceObject computeSubspace this
              = Ok (if (0 <? length sp)%nat then Some (orthonormalize_modes sp)
                    else None, set_system sys' this)).
  { unfold build_mat_null_space, provider in *.
    destruct computeSubspaceObject as [o|]; [|destruct computeSubspace as [f|]];
      try discriminate; injection Hp as ->; simpl; rewrite Hsp; reflexivity. }
  split.
  - intros ->. simpl in E. split; [exact E|].
    intros MatSet jac. unfold attach_subspace. rewrite E. reflexivity.
  - intros Hne Hdim Hind.
    destruct (orthonormalize_modes_orthonormal n sp Hne Hdim
                (linearly_independent_of_earlier _ _ Hdim Hind)) as (Hl & _ & Ho).
    assert (Hpos : (0 <? length sp)%nat = true).
    { apply Nat.ltb_lt. destruct sp; [congruence|simpl; lia]. }
    rewrite Hpos in E.
    exists (orthonormalize_modes sp). repeat split; try assumption; try apply Ho.
    intros MatSet jac. unfold attach_subspace. rewrite E. reflexivity.
Qed.

Lemma two_modes_independent : linearly_independent 2 [[1; 0]; [1; 1]].
Proof.
  intros [|c1 [|c2 [|? ?]]] Hl H; simpl in *; try discriminate.
  injection H as H1 H2.
  assert (c2 = 0) by lra. assert (c1 = 0) by lra.
  subst. repeat constructor.
Qed.

Lemma null_space_basis_orthonormal_witness :
  exists basis,
    build_mat_null_space None (Some two_modes) (constructed no_forms (sys0 0))
    = Ok (Some basis, constructed no_forms (sys0 0)) /\
    length basis = 2%nat /\ orthonormal basis.
Proof.
  destruct (null_space_basis_orthonormal None (Some two_modes)
              (constructed no_forms (sys0 0)) two_modes
              [PetscVector_of_Vec [1; 0]; PetscVector_of_Vec [1; 1]]
              (sys0 0) 2 eq_refl eq_refl) as [_ H].
  destruct H as (basis & E & Hl & Ho & _).
  - discriminate.
  - repeat constructor.
  - exact two_modes_independent.
  - exists basis. split; [exact E|]. split; [exact Hl|exact Ho].
Defined.

Lemma VecDot_zero1_l z : VecDot [0] z = 0.
Proof. destruct z; simpl; ring. Qed.

(** C8 (as stated) fails: from the single vector [0] the construction
    returns a basis whose only vector has norm 0. *)
Lemma null_space_basis_of_zero_vector :
  ~ null_space_basis_as_stated None (Some zero_mode) (constructed no_forms (sys0 0)).
Proof.
  intros H.
  destruct (H zero_mode [PetscVector_of_Vec [0]] (sys0 0) eq_refl eq_refl) as [_ H'].
  destruct H' as (basis & E & Hn & _); [discriminate|].
  unfold build_mat_null_space in E. simpl in E. injection E as <-.
  specialize (Hn 0%nat). unfold orthonormalize_modes in Hn. simpl in Hn.
  specialize (Hn (Nat.lt_0_succ 0)).
  unfold VecNorm in Hn.
  destruct (VecNormalize_dot [0] (VecNormalize [0])) as [c Hc].
  rewrite Hc, VecDot_zero1_l, Rmult_0_r, sqrt_0 in Hn. lra.
Qed.

End GramSchmidt.

(* ================================================================== *)
(** ** More on the Gram-Schmidt loop *)

Module GramSchmidtMore.
Import Petsc PetscSpec GramSchmidt.
Local Open Scope R_scope.


Lemma upd_nth_same {A : Type} (l : list A) k d : upd l k (nth k l d) = l.
Proof.
  revert k; induction l as [|h t IH]; intros [|k]; simpl; auto.
  now rewrite IH.
Qed.


Lemma map_length_upd (l : list Vec) k x :
  length x = length (nth k l []) ->
  map (@length R) (upd l k x) = map (@length R) l.
Proof.
  revert k; induction l as [|h t IH]; intros [|k] H; simpl in *; auto.
  - now rewrite H.
  - now rewrite IH.
Qed.

Lemma VecMAXPY_length y nv alpha x : length (VecMAXPY y nv alpha x) = length y.
Proof.
  unfold VecMAXPY.
  generalize (combine (firstn nv alpha) (firstn nv x)). intros l.
  revert y; induction l as [|[a u] l IH]; intros y; simpl; auto.
  rewrite IH. apply VecAXPY_length.
Qed.

Lemma orthonormalize_mode_lengths modes i :
  map (@length R) (orthonormalize_mode modes i) = map (@length R) modes.
Proof.
  unfold orthonormalize_mode.
  rewrite map_length_upd.
  - apply map_length_upd. apply VecMAXPY_length.
  - apply VecNormalize_length.
Qed.

(** X28.  Whatever the provider returns, the orthonormalization keeps the
    shape of the array: as many vectors as the provider gave, each with as
    many entries as the vector it was copied from. *)
Theorem orthonormalize_modes_shape (sp : list PetscVector) :
  map (@length R) (orthonormalize_modes sp) = map (@length R) (map _vec sp) /\
  length (orthonormalize_modes sp) = length sp.
Proof.
  assert (H : map (@length R) (orthonormalize_modes sp)
              = map (@length R) (map _vec sp)).
  { unfold orthonormalize_modes.
    generalize (seq 1 (length sp - 1)). intros ks.
    assert (H0 : map (@length R)
                   (upd (map _vec sp) 0 (VecNormalize (nth 0 (map _vec sp) [])))
                 = map (@length R) (map _vec sp))
      by (apply map_length_upd, VecNormalize_length).
    revert H0.
    generalize (upd (map _vec sp) 0 (VecNormalize (nth 0 (map _vec sp) []))).
    induction ks as [|k ks IH]; intros modes Hm; simpl; [exact Hm|].
    apply IH. now rewrite orthonormalize_mode_lengths. }
  split; [exact H|].
  apply (f_equal (@length nat)) in H. now rewrite !length_map in H.
Qed.

(** In an orthonormal list each vector is a unit vector orthogonal to the
    ones before it. *)
Lemma ortho_nth vs k :
  ortho vs -> (k < length vs)%nat ->
  VecDot (nth k vs []) (nth k vs []) = 1 /\
  Forall (fun u => VecDot (nth k vs []) u = 0) (firstn k vs).
Proof.
  revert k; induction vs as [|v vs IH]; intros k Ho Hk; simpl in *; [lia|].
  destruct Ho as (Hvv & Hr & Ho).
  destruct k as [|k]; simpl; [split; [exact Hvv|constructor]|].
  destruct (IH k Ho ltac:(lia)) as [H1 H2].
  split; [exact H1|]. constructor; [|exact H2].
  rewrite VecDot_comm. rewrite Forall_forall in Hr. apply Hr.
  apply nth_In. lia.
Qed.

Lemma project_out_orthogonal_is_identity y0 us acc :
  Forall (fun u => VecDot y0 u = 0) us -> project_out y0 us acc = acc.
Proof.
  unfold project_out. intros H. revert acc.
  induction H as [|u us Hu _ IH]; intros acc; simpl; [reflexivity|].
  rewrite Hu, Rmult_0_l, VecAXPY_zero_coeff. apply IH.
Qed.

Lemma VecNormalize_unit_is_identity x : VecDot x x = 1 -> VecNormalize x = x.
Proof.
  intros H. unfold VecNormalize.
  rewrite (unit_norm_of_dot x H).
  destruct (Req_dec_T 1 0) as [E|_]; [reflexivity|].
  unfold VecScale. rewrite <- (map_id x) at 2.
  apply map_ext. intros a. field.
Qed.

Lemma orthonormalize_mode_fixed vs k :
  ortho vs -> (k < length vs)%nat -> orthonormalize_mode vs k = vs.
Proof.
  intros Ho Hk. rewrite orthonormalize_mode_eq by exact Hk.
  destruct (ortho_nth vs k Ho Hk) as [H1 H0].
  rewrite project_out_orthogonal_is_identity by exact H0.
  rewrite VecNormalize_unit_is_identity by exact H1.
  apply upd_nth_same.
Qed.

(** X29.  Orthonormalizing an orthonormal family changes nothing. *)
Theorem orthonormalize_modes_fixes_orthonormal (sp : list PetscVector) :
  ortho (map _vec sp) -> orthonormalize_modes sp = map _vec sp.
Proof.
  intros Ho. destruct sp as [|v sp]; [reflexivity|].
  rewrite orthonormalize_modes_as_loop by discriminate.
  set (vs := map _vec (v :: sp)) in *.
  assert (H : forall m k, (k + m <= length vs)%nat ->
                fold_left orthonormalize_mode (seq k m) vs = vs).
  { induction m as [|m IH]; intros k Hk; simpl; [reflexivity|].
    rewrite orthonormalize_mode_fixed by (auto; lia). apply IH. lia. }
  apply H. subst vs. rewrite length_map. simpl. lia.
Qed.

Section SpanOnly.
Variable n : nat.
Variable vs : list Vec.
Hypothesis Hdim : same_dim n vs.



End SpanOnly.


Lemma orthonormalize_modes_fixes_orthonormal_witness :
  orthonormalize_modes canonical_basis = map _vec canonical_basis.
Proof.
  apply (orthonormalize_modes_fixes_orthonormal canonical_basis).
  simpl. repeat split; try ring; repeat constructor; ring.
Defined.


End GramSchmidtMore.
